(** * GlobalLocalStorage: a shallow embedding of the storage core
      (src/index.html) and of the client library (src/lib.mjs).

    Modelling conventions.
    - A JavaScript number is an IEEE 754 double: a [spec_float] of the
      standard library, with the operations of binary64 ([Number]).  A
      lifetime [ttl] and a stored [expiresAt] are such numbers.
    - [Date.now()] is a whole number of milliseconds; it is given as an
      integer and enters the arithmetic as the double of that value.
    - A request id is a whole number that [requestIdCounter++] produced:
      an integer, with the rounding of [++] written out ([increment]).
    - Arguments have the types their JSDoc gives them: keys and origins
      are strings, ACL lists are arrays of strings, [options] is an object
      whose fields [acl] and [ttl] may be absent.  The two lists of
      [options.acl] may be one array object; [value] shares no array with
      them.
    - One message is handled at a time: every handler runs to completion
      on the state left by the previous one.
    - The IndexedDB object store (key path ['key']) is a finite map from
      the key to the record; its scans enumerate the map. *)

From Stdlib Require Import ZArith String Lia SpecFloat.
From stdpp Require Import base option list gmap strings.

Open Scope string_scope.
Open Scope list_scope.
Set Warnings "-register-all".

(** ** JavaScript values, exceptions, completions *)

(** Structured-clonable data: what is stored under a key and what
    travels in messages. *)
Inductive Value :=
| VUndefined
| VNull
| VBool (b : bool)
| VNum (n : spec_float)
| VStr (s : string)
| VArr (l : list Value)
| VObj (fields : list (string * Value)).

(** An exception object, reduced to the two properties the code reads. *)
Record JsError := { name : string; message : string }.

(** [new Error(msg)] *)
Definition Error (msg : string) : JsError := {| name := "Error"; message := msg |}.

Inductive Completion (A : Type) :=
| Return (a : A)
| Throw (e : JsError).
Arguments Return {A} a.
Arguments Throw {A} e.

(** ** Numbers *)

Module Number.

Definition prec : Z := 53.
Definition emax : Z := 1024.

(** [x + y], [x * y] and [x < y] of binary64. *)
Definition add : spec_float → spec_float → spec_float := SFadd prec emax.
Definition mul : spec_float → spec_float → spec_float := SFmul prec emax.
Definition ltb : spec_float → spec_float → bool := SFltb.

(** The double nearest to an integer. *)
Definition of_Z (z : Z) : spec_float := binary_normalize prec emax z 0 false.

(** A number used as a condition: false for [0], [-0] and [NaN]. *)
Definition truthy (x : spec_float) : bool :=
  match x with
  | S754_zero _ | S754_nan => false
  | _ => true
  end.

(** The representations that are doubles. *)
Definition valid : spec_float → bool := valid_binary prec emax.

(** Not zero, of sign [s], with an exponent that is not below [emin]. *)
Definition signed (s : bool) (x : spec_float) : Prop :=
  match x with
  | S754_finite s' _ e => s' = s ∧ (emin prec emax ≤ e)%Z
  | S754_infinity s' => s' = s
  | _ => False
  end.

(** What [JSON.parse(JSON.stringify(x))] makes of a number: [NaN] and the
    infinities become null, [-0] becomes [0]. *)
Definition JSON_value (x : spec_float) : option spec_float :=
  match x with
  | S754_nan | S754_infinity _ => None
  | S754_zero _ => Some (S754_zero false)
  | S754_finite _ _ _ => Some x
  end.

End Number.

Arguments Number.add : simpl never.
Arguments Number.mul : simpl never.
Arguments Number.ltb : simpl never.
Arguments Number.of_Z : simpl never.

(** [Array.prototype.includes] on an array of strings. *)
Definition includes (l : list string) (x : string) : bool := bool_decide (x ∈ l).

(** ** Messages exchanged by the client and the core *)

(** [options.acl]: either list may be absent; when both are given they
    may be one and the same array object, and they stay one through the
    structured clone of [postMessage]. *)
Inductive AclOptions :=
| Arrays (read write : option (list string))
| OneArray (both : list string).

(** [acl.read] and [acl.write] *)
Definition opt_read (acl : AclOptions) : option (list string) :=
  match acl with
  | Arrays read _ => read
  | OneArray both => Some both
  end.

Definition opt_write (acl : AclOptions) : option (list string) :=
  match acl with
  | Arrays _ write => write
  | OneArray both => Some both
  end.

(** [acl.read] and [acl.write] are the same object. *)
Definition same_array (acl : option AclOptions) : bool :=
  match acl with
  | Some (OneArray _) => true
  | _ => false
  end.

(** [options] of [setItem]: [{ acl, ttl }], both optional. *)
Record Options := { opt_acl : option AclOptions; opt_ttl : option spec_float }.

(** [JSON.parse(JSON.stringify(options))]: the copy has two arrays where
    the original had one. *)
Definition JSON_copy (options : Options) : Options :=
  {| opt_acl := match opt_acl options with
                | Some (OneArray both) => Some (Arrays (Some both) (Some both))
                | acl => acl
                end;
     opt_ttl := opt_ttl options ≫= Number.JSON_value |}.

(** The data of a request message.  Fields a message does not carry
    ([key] for clear and keys, [value] and [options] outside setItem) are
    not read by the branch that handles it; [req_key] then holds the empty
    string, [req_value] is [VUndefined] and [req_options] is [None]. *)
Record Request := {
  req_action : string;
  req_key : string;
  req_value : Value;
  req_options : option Options;
  req_requestId : Z
}.

(** [{ action: 'response', requestId, value }] or
    [{ action: 'response', requestId, error: { name, message } }]. *)
Record Response := {
  res_action : string;
  res_requestId : Z;
  res_value : Value;
  res_error : option JsError
}.

(** What is posted on the BroadcastChannel: [{ key, action }]. *)
Record ChangeEvent := { change_key : string; change_action : string }.

(** A window handle ([event.source], [iframe.contentWindow]). *)
Definition Window := nat.

(** A [message] event of [window]: the fields the listeners read. *)
Record MessageEvent (D : Type) := {
  origin : string;            (* event.origin; empty when absent *)
  source : option Window;     (* event.source *)
  data : D                    (* event.data *)
}.
Arguments origin {D} _.
Arguments source {D} _.
Arguments data {D} _.

(** * The storage core (src/index.html) *)

Module Core.

Record ACL := { read : list string; write : list string }.

Record StorageItem := {
  key : string;
  value : Value;
  acl : ACL;
  expiresAt : option spec_float
}.

(** The durable object store and the log of the broadcast channel. *)
Record World := {
  db : gmap string StorageItem;
  channel : list ChangeEvent
}.

(** The requests the code awaits on the Durable Store; each may reject. *)
Inductive DbOp :=
| OpOpen                       (* await dbPromise *)
| OpGet (k : string)           (* store.get / db.get *)
| OpPut (item : StorageItem)   (* store.put *)
| OpDelete (k : string)        (* store.delete / db.delete *)
| OpGetAll                     (* db.getAll *)
| OpIterate                    (* store.iterate *)
| OpDone.                      (* tx.done *)

(** Computations of the core: they read and change the world and either
    return or throw; what was done before a throw stays done. *)
Definition M (A : Type) : Type := World → Completion A * World.

Definition ret {A} (a : A) : M A := λ w, (Return a, w).
Definition throw {A} (e : JsError) : M A := λ w, (Throw e, w).
Definition bind {A B} (c : M A) (k : A → M B) : M B :=
  λ w, match c w with
       | (Return a, w') => k a w'
       | (Throw e, w') => (Throw e, w')
       end.

Notation "'do' x <- c ; k" := (bind c (λ x, k))
  (at level 10, x name, c at level 100, k at level 200, only parsing).

(** [function hasPermission(aclList, origin)]; the [Array.isArray] guard
    holds by the type of [aclList]. *)
Definition hasPermission (aclList : list string) (origin : string) : bool :=
  includes aclList "*" || includes aclList origin.

(** The message of the error thrown when an ACL check fails;
    [perm] is ["read"] or ["write"]. *)
Definition permission_message (origin perm key : string) : string :=
  "Origin '" +:+ origin +:+ "' does not have " +:+ perm +:+
  " permission for key '" +:+ key +:+ "'.".

Section Backend.

(** Which requests the Durable Store rejects, and with what exception. *)
Variable fault : DbOp → option JsError.

Definition request {A} (op : DbOp) (result : A) : M A :=
  λ w, match fault op with
       | Some e => (Throw e, w)
       | None => (Return result, w)
       end.

Definition dbPromise : M unit := request OpOpen tt.

(** [db.transaction(STORE_NAME, ...).objectStore(STORE_NAME)]: the
    transaction works on its own view of the store until [tx.done]. *)
Definition transaction : M (gmap string StorageItem) := λ w, (Return (db w), w).

Definition store_get (tx : gmap string StorageItem) (k : string)
  : M (option StorageItem) := request (OpGet k) (tx !! k).

(** [store.put(item)]: upsert under the record's key path. *)
Definition store_put (tx : gmap string StorageItem) (item : StorageItem)
  : M (gmap string StorageItem) := request (OpPut item) (<[key item := item]> tx).

Definition store_delete (tx : gmap string StorageItem) (k : string)
  : M (gmap string StorageItem) := request (OpDelete k) (delete k tx).

Definition store_getAll (tx : gmap string StorageItem)
  : M (list StorageItem) := request OpGetAll ((map_to_list tx).*2).

Definition store_iterate (tx : gmap string StorageItem)
  : M (list StorageItem) := request OpIterate ((map_to_list tx).*2).

(** [await tx.done]: commit, or reject and leave the store as it was. *)
Definition tx_done (tx : gmap string StorageItem) : M unit :=
  λ w, match fault OpDone with
       | Some e => (Throw e, w)
       | None => (Return tt, {| db := tx; channel := channel w |})
       end.

(** [channel.postMessage(ev)] *)
Definition postMessage (ev : ChangeEvent) : M unit :=
  λ w, (Return tt, {| db := db w; channel := channel w ++ [ev] |}).

(** The one-request shortcuts of the [idb] wrapper. *)
Definition db_get (k : string) : M (option StorageItem) :=
  do tx <- transaction ; store_get tx k.

Definition db_delete (k : string) : M unit :=
  do tx <- transaction ; do tx <- store_delete tx k ; tx_done tx.

Definition db_getAll : M (list StorageItem) :=
  do tx <- transaction ; store_getAll tx.

(** [item.expiresAt && Date.now() > item.expiresAt] *)
Definition expired (now : Z) (item : StorageItem) : bool :=
  match expiresAt item with
  | Some e => Number.truthy e && Number.ltb e (Number.of_Z now)
  | None => false
  end.

Definition dbGet (now : Z) (key origin : string) : M Value :=
  do _ <- dbPromise ;
  do item <- db_get key ;
  match item with
  | None => ret VNull
  | Some item =>
      if expired now item then
        do _ <- db_delete key ;
        do _ <- postMessage {| change_key := key; change_action := "remove" |} ;
        ret VNull
      else if hasPermission (read (acl item)) origin then
        ret (value item)
      else
        throw (Error (permission_message origin "read" key))
  end.

Definition dbSet (now : Z) (key : string) (value : Value)
    (options : option Options) (origin : string) : M unit :=
  do _ <- dbPromise ;
  do tx <- transaction ;
  do existingItem <- store_get tx key ;
  let acl := options ≫= opt_acl in
  let ttl := options ≫= opt_ttl in
  let newAcl := {| read := default ["*"] (acl ≫= opt_read);
                   write := default [origin] (acl ≫= opt_write) |} in
  do newAcl <-
    match existingItem with
    | Some existingItem =>
        if negb (hasPermission (write (Core.acl existingItem)) origin) then
          throw (Error (permission_message origin "write" key))
        else ret newAcl
    | None =>
        if negb (includes (write newAcl) origin) then
          (* newAcl.write.push(origin): the array itself grows, and it is
             newAcl.read as well when the request gave one array for both *)
          ret {| read := if same_array acl then read newAcl ++ [origin] else read newAcl;
                 write := write newAcl ++ [origin] |}
        else ret newAcl
    end ;
  let itemToStore :=
    {| key := key;
       value := value;
       acl := newAcl;
       expiresAt := match ttl with
                    | Some ttl =>
                        if Number.truthy ttl
                        then Some (Number.add (Number.of_Z now)
                                              (Number.mul ttl (Number.of_Z 1000)))
                        else None
                    | None => None
                    end |} in
  do tx <- store_put tx itemToStore ;
  do _ <- tx_done tx ;
  postMessage {| change_key := key; change_action := "set" |}.

Definition dbRemove (key origin : string) : M unit :=
  do _ <- dbPromise ;
  do tx <- transaction ;
  do existingItem <- store_get tx key ;
  match existingItem with
  | None => ret tt
  | Some existingItem =>
      if negb (hasPermission (write (acl existingItem)) origin) then
        throw (Error (permission_message origin "write" key))
      else
        do tx <- store_delete tx key ;
        do _ <- tx_done tx ;
        postMessage {| change_key := key; change_action := "remove" |}
  end.

(** The body of [for await (const cursor of store.iterate())].
    [cursor.delete()] is not awaited: the record leaves the transaction's
    view and the event is posted at once.  A [cursor.delete()] that the
    store rejects is not among the requests modelled here. *)
Fixpoint clear_loop (origin : string) (cursor : list StorageItem)
    (tx : gmap string StorageItem) : M (gmap string StorageItem) :=
  match cursor with
  | [] => ret tx
  | item :: cursor =>
      if hasPermission (write (acl item)) origin then
        let keyToDelete := key item in
        do _ <- postMessage {| change_key := keyToDelete; change_action := "remove" |} ;
        clear_loop origin cursor (delete keyToDelete tx)
      else clear_loop origin cursor tx
  end.

Definition dbClear (origin : string) : M unit :=
  do _ <- dbPromise ;
  do tx <- transaction ;
  do cursor <- store_iterate tx ;
  do tx <- clear_loop origin cursor tx ;
  tx_done tx.

Definition dbKeys (origin : string) : M (list string) :=
  do _ <- dbPromise ;
  do allItems <- db_getAll ;
  ret (key <$> filter (λ item, hasPermission (read (acl item)) origin = true) allItems).

(** ** The message listener *)

(** [event.source.postMessage(message, event.origin)] *)
Record Posted := {
  target : Window;
  targetOrigin : string;
  posted_message : Response
}.

(** The [switch (action)]: [Some responseValue] when a case ran to its
    [break], [None] for the [default: return]. *)
Definition dispatch (now : Z) (event : MessageEvent Request) : M (option Value) :=
  let action := req_action (data event) in
  let key := req_key (data event) in
  if String.eqb action "setItem" then
    do _ <- dbSet now key (req_value (data event)) (req_options (data event)) (origin event) ;
    ret (Some VUndefined)
  else if String.eqb action "getItem" then
    do responseValue <- dbGet now key (origin event) ; ret (Some responseValue)
  else if String.eqb action "removeItem" then
    do _ <- dbRemove key (origin event) ; ret (Some VUndefined)
  else if String.eqb action "clear" then
    do _ <- dbClear (origin event) ; ret (Some VUndefined)
  else if String.eqb action "keys" then
    do responseValue <- dbKeys (origin event) ; ret (Some (VArr (VStr <$> responseValue)))
  else ret None.

Definition listener (now : Z) (event : MessageEvent Request)
  : World → option Posted * World :=
  λ w,
  match String.eqb (origin event) "", source event with
  | false, Some win =>
      let requestId := req_requestId (data event) in
      match dispatch now event w with
      | (Return None, w') => (None, w')
      | (Return (Some responseValue), w') =>
          (Some {| target := win; targetOrigin := origin event;
                   posted_message :=
                     {| res_action := "response"; res_requestId := requestId;
                        res_value := responseValue; res_error := None |} |}, w')
      | (Throw e, w') =>
          (Some {| target := win; targetOrigin := origin event;
                   posted_message :=
                     {| res_action := "response"; res_requestId := requestId;
                        res_value := VUndefined;
                        res_error := Some {| name := name e; message := message e |} |} |},
           w')
      end
  | _, _ => (None, w)       (* if (!event.origin || !event.source) return *)
  end.

End Backend.

(** A Durable Store that rejects nothing. *)
Definition healthy (fault : DbOp → option JsError) : Prop := ∀ op, fault op = None.

(** Every record sits under its own [key] property (the key path). *)
Definition keyed (m : gmap string StorageItem) : Prop :=
  map_Forall (λ k item, key item = k) m.

Definition no_fault : DbOp → option JsError := λ _, None.

(** The event that announces the deletion of [item]. *)
Definition removal (item : StorageItem) : ChangeEvent :=
  {| change_key := key item; change_action := "remove" |}.

(** The messages of [trace], handled one after the other, each at its
    own reading of the clock and with its own rejections by the store. *)
Definition handle_all (trace : list ((DbOp → option JsError) * (Z * MessageEvent Request)))
    (w : World) : World :=
  foldl (λ w m, (listener m.1 m.2.1 m.2.2 w).2) w trace.

(** Every key whose record differs between [w] and [w'] is the key of an
    event posted in between. *)
Definition announced (w w' : World) : Prop :=
  ∃ events, channel w' = channel w ++ events ∧
            ∀ k, db w' !! k ≠ db w !! k → ∃ event, event ∈ events ∧ change_key event = k.

(** Every expiry that is stored is a positive timestamp. *)
Definition dated (m : gmap string StorageItem) : Prop :=
  map_Forall (λ _ item, ∀ e, expiresAt item = Some e →
                             Number.ltb (Number.of_Z 0) e = true) m.

(** The clock reading is positive and the lifetime asked for, if any, is
    a double that is not negative. *)
Definition timely (m : Z * MessageEvent Request) : Prop :=
  (0 < m.1)%Z ∧
  ∀ ttl, req_options (data m.2) ≫= opt_ttl = Some ttl →
         Number.valid ttl = true ∧ Number.ltb ttl (Number.of_Z 0) = false.

(** The actions the [switch] of the listener has a case for. *)
Definition actions : list string :=
  ["setItem"; "getItem"; "removeItem"; "clear"; "keys"].

End Core.

(** * The client library (src/lib.mjs) *)

Module Client.

Inductive CoreState := uninitialized | initializing | ready | failed.

#[global] Instance CoreState_eq_dec : EqDecision CoreState.
Proof. solve_decision. Defined.

Inductive Settlement :=
| Resolved (v : Value)
| Rejected (e : JsError).

(** The promise a public function returns: already settled, or waiting
    for the response to the request with that id.  The promise that
    [sendRequest] creates for a request is named by the request's id; once
    the counter has stopped and an id comes back, the name stands for the
    latest promise created with it, the one whose controller the Map
    [pendingRequests] holds. *)
Inductive Promise :=
| Settled (s : Settlement)
| Pending (requestId : Z).

(** [coreWindow.postMessage(message, coreOrigin)] *)
Record ToCore := {
  to_window : option Window;
  to_origin : option string;
  to_message : Request
}.

(** The module's variables, followed by what the module has done to its
    environment. *)
Record State := {
  coreWindow : option Window;         (* let coreWindow = null *)
  coreOrigin : option string;         (* let coreOrigin = null *)
  coreState : CoreState;              (* let coreState = 'uninitialized' *)
  defaultOptions : Options;           (* let defaultOptions = {} *)
  requestQueue : list Request;        (* let requestQueue = []  (the messages) *)
  pendingRequests : list Z;           (* keys of the Map, in insertion order *)
  requestIdCounter : Z;               (* let requestIdCounter = 0 *)
  cache : gmap string Value;          (* const cache = new Map() *)
  channel : bool;                     (* the BroadcastChannel was created *)
  reactions : list (Z * string);      (* getItem's .then: promise, cache key *)
  settled : list (Z * Settlement);    (* promises settled, oldest first *)
  posted : list ToCore;               (* coreWindow.postMessage calls *)
  iframes : list string;              (* src of the iframes appended *)
  deferred : list string              (* setupIframe awaiting DOMContentLoaded *)
}.

Definition initial : State :=
  {| coreWindow := None; coreOrigin := None; coreState := uninitialized;
     defaultOptions := {| opt_acl := None; opt_ttl := None |};
     requestQueue := []; pendingRequests := []; requestIdCounter := 0;
     cache := ∅; channel := false;
     reactions := []; settled := []; posted := []; iframes := []; deferred := [] |}.

Definition set_coreWindow (v : option Window) (st : State) : State :=
  {| coreWindow := v; coreOrigin := coreOrigin st; coreState := coreState st;
     defaultOptions := defaultOptions st; requestQueue := requestQueue st;
     pendingRequests := pendingRequests st;
     requestIdCounter := requestIdCounter st; cache := cache st;
     channel := channel st; reactions := reactions st; settled := settled st;
     posted := posted st; iframes := iframes st; deferred := deferred st |}.

Definition set_coreOrigin (v : option string) (st : State) : State :=
  {| coreWindow := coreWindow st; coreOrigin := v; coreState := coreState st;
     defaultOptions := defaultOptions st; requestQueue := requestQueue st;
     pendingRequests := pendingRequests st;
     requestIdCounter := requestIdCounter st; cache := cache st;
     channel := channel st; reactions := reactions st; settled := settled st;
     posted := posted st; iframes := iframes st; deferred := deferred st |}.

Definition set_coreState (v : CoreState) (st : State) : State :=
  {| coreWindow := coreWindow st; coreOrigin := coreOrigin st; coreState := v;
     defaultOptions := defaultOptions st; requestQueue := requestQueue st;
     pendingRequests := pendingRequests st;
     requestIdCounter := requestIdCounter st; cache := cache st;
     channel := channel st; reactions := reactions st; settled := settled st;
     posted := posted st; iframes := iframes st; deferred := deferred st |}.

Definition set_defaultOptions (v : Options) (st : State) : State :=
  {| coreWindow := coreWindow st; coreOrigin := coreOrigin st;
     coreState := coreState st; defaultOptions := v;
     requestQueue := requestQueue st; pendingRequests := pendingRequests st;
     requestIdCounter := requestIdCounter st; cache := cache st;
     channel := channel st; reactions := reactions st; settled := settled st;
     posted := posted st; iframes := iframes st; deferred := deferred st |}.

Definition set_requestQueue (v : list Request) (st : State) : State :=
  {| coreWindow := coreWindow st; coreOrigin := coreOrigin st;
     coreState := coreState st; defaultOptions := defaultOptions st;
     requestQueue := v; pendingRequests := pendingRequests st;
     requestIdCounter := requestIdCounter st; cache := cache st;
     channel := channel st; reactions := reactions st; settled := settled st;
     posted := posted st; iframes := iframes st; deferred := deferred st |}.

Definition set_pendingRequests (v : list Z) (st : State) : State :=
  {| coreWindow := coreWindow st; coreOrigin := coreOrigin st;
     coreState := coreState st; defaultOptions := defaultOptions st;
     requestQueue := requestQueue st; pendingRequests := v;
     requestIdCounter := requestIdCounter st; cache := cache st;
     channel := channel st; reactions := reactions st; settled := settled st;
     posted := posted st; iframes := iframes st; deferred := deferred st |}.

Definition set_requestIdCounter (v : Z) (st : State) : State :=
  {| coreWindow := coreWindow st; coreOrigin := coreOrigin st;
     coreState := coreState st; defaultOptions := defaultOptions st;
     requestQueue := requestQueue st; pendingRequests := pendingRequests st;
     requestIdCounter := v; cache := cache st; channel := channel st;
     reactions := reactions st; settled := settled st; posted := posted st;
     iframes := iframes st; deferred := deferred st |}.

Definition set_cache (v : gmap string Value) (st : State) : State :=
  {| coreWindow := coreWindow st; coreOrigin := coreOrigin st;
     coreState := coreState st; defaultOptions := defaultOptions st;
     requestQueue := requestQueue st; pendingRequests := pendingRequests st;
     requestIdCounter := requestIdCounter st; cache := v;
     channel := channel st; reactions := reactions st; settled := settled st;
     posted := posted st; iframes := iframes st; deferred := deferred st |}.

Definition set_channel (v : bool) (st : State) : State :=
  {| coreWindow := coreWindow st; coreOrigin := coreOrigin st;
     coreState := coreState st; defaultOptions := defaultOptions st;
     requestQueue := requestQueue st; pendingRequests := pendingRequests st;
     requestIdCounter := requestIdCounter st; cache := cache st; channel := v;
     reactions := reactions st; settled := settled st; posted := posted st;
     iframes := iframes st; deferred := deferred st |}.

Definition set_reactions (v : list (Z * string)) (st : State) : State :=
  {| coreWindow := coreWindow st; coreOrigin := coreOrigin st;
     coreState := coreState st; defaultOptions := defaultOptions st;
     requestQueue := requestQueue st; pendingRequests := pendingRequests st;
     requestIdCounter := requestIdCounter st; cache := cache st;
     channel := channel st; reactions := v; settled := settled st;
     posted := posted st; iframes := iframes st; deferred := deferred st |}.

Definition set_settled (v : list (Z * Settlement)) (st : State) : State :=
  {| coreWindow := coreWindow st; coreOrigin := coreOrigin st;
     coreState := coreState st; defaultOptions := defaultOptions st;
     requestQueue := requestQueue st; pendingRequests := pendingRequests st;
     requestIdCounter := requestIdCounter st; cache := cache st;
     channel := channel st; reactions := reactions st; settled := v;
     posted := posted st; iframes := iframes st; deferred := deferred st |}.

Definition set_posted (v : list ToCore) (st : State) : State :=
  {| coreWindow := coreWindow st; coreOrigin := coreOrigin st;
     coreState := coreState st; defaultOptions := defaultOptions st;
     requestQueue := requestQueue st; pendingRequests := pendingRequests st;
     requestIdCounter := requestIdCounter st; cache := cache st;
     channel := channel st; reactions := reactions st; settled := settled st;
     posted := v; iframes := iframes st; deferred := deferred st |}.

Definition set_iframes (v : list string) (st : State) : State :=
  {| coreWindow := coreWindow st; coreOrigin := coreOrigin st;
     coreState := coreState st; defaultOptions := defaultOptions st;
     requestQueue := requestQueue st; pendingRequests := pendingRequests st;
     requestIdCounter := requestIdCounter st; cache := cache st;
     channel := channel st; reactions := reactions st; settled := settled st;
     posted := posted st; iframes := v; deferred := deferred st |}.

Definition set_deferred (v : list string) (st : State) : State :=
  {| coreWindow := coreWindow st; coreOrigin := coreOrigin st;
     coreState := coreState st; defaultOptions := defaultOptions st;
     requestQueue := requestQueue st; pendingRequests := pendingRequests st;
     requestIdCounter := requestIdCounter st; cache := cache st;
     channel := channel st; reactions := reactions st; settled := settled st;
     posted := posted st; iframes := iframes st; deferred := v |}.

Definition defaultCoreUrl : string :=
  "https://globallocalstorage.github.io/globallocalstorage".

(** The value that [requestIdCounter++] leaves in the counter.  The
    counter is a double that starts at 0: adding 1 is exact up to [2^53],
    and [2^53 + 1] rounds back to [2^53]. *)
Definition increment (n : Z) : Z := if (n <? 2 ^ 53)%Z then (n + 1)%Z else n.

(** What [init] reads from its surroundings. *)
Record Env := {
  has_window : bool;      (* typeof window !== 'undefined' *)
  has_document : bool;    (* typeof document !== 'undefined' *)
  readyState : string     (* document.readyState *)
}.

Record Config := {
  coreUrl : option string;
  cfg_defaultOptions : option Options
}.

(** ** Promises *)

(** [reject(error)] of the promise named [id]; settling twice does nothing. *)
Definition reject (id : Z) (error : JsError) (st : State) : State :=
  if bool_decide (id ∈ (settled st).*1) then st
  else set_settled (settled st ++ [(id, Rejected error)]) st.

(** [resolve(value)] of the promise named [id], followed by the [.then]
    callbacks attached to it: [cache.set(key, value)]. *)
Definition resolve (id : Z) (value : Value) (st : State) : State :=
  if bool_decide (id ∈ (settled st).*1) then st
  else
    let st := set_settled (settled st ++ [(id, Resolved value)]) st in
    foldl (λ st r, if bool_decide (r.1 = id) then set_cache (<[r.2 := value]> (cache st)) st else st)
          st (reactions st).

(** [p.then(value => { cache.set(key, value); return value })] *)
Definition then_cache (p : Promise) (key : string) (st : State) : State :=
  match p with
  | Pending id => set_reactions (reactions st ++ [(id, key)]) st
  | Settled (Resolved value) => set_cache (<[key := value]> (cache st)) st
  | Settled (Rejected _) => st
  end.

(** [new Promise(...)] for the request [id]: the name [id] now stands for
    a promise that is not settled and has no callback. *)
Definition new_promise (id : Z) (st : State) : State :=
  set_reactions (filter (λ r, r.1 ≠ id) (reactions st))
    (set_settled (filter (λ x, x.1 ≠ id) (settled st)) st).

(** [pendingRequests.set(id, { resolve, reject })] *)
Definition pending_set (id : Z) (l : list Z) : list Z :=
  if bool_decide (id ∈ l) then l else l ++ [id].

(** [pendingRequests.delete(id)] *)
Definition pending_delete (id : Z) (l : list Z) : list Z :=
  filter (λ i, i ≠ id) l.

Definition postToCore (message : Request) (st : State) : State :=
  set_posted (posted st ++ [{| to_window := coreWindow st; to_origin := coreOrigin st;
                               to_message := message |}]) st.

(** ** The iframe and its handlers *)

Definition processRequestQueue (st : State) : State :=
  set_requestQueue [] (foldl (λ st request, postToCore request st) st (requestQueue st)).

(** [iframe.onload], for the iframe whose window is [iframe]. *)
Definition iframe_onload (iframe : Window) (st : State) : State :=
  processRequestQueue (set_coreState ready (set_coreWindow (Some iframe) st)).

(** [iframe.onerror], for the iframe that [init] created for [coreUrl]. *)
Definition iframe_onerror (coreUrl : string) (st : State) : State :=
  let error := Error ("Failed to load the storage core iframe. URL: " +:+ coreUrl +:+ ".") in
  let st := set_coreState failed st in
  let rejectAll st (req : Request) :=
    if bool_decide (req_requestId req ∈ pendingRequests st)
    then reject (req_requestId req) error st else st in
  let st := foldl rejectAll st (requestQueue st) in
  let st := foldl (λ st id, reject id error st) st (pendingRequests st) in
  set_pendingRequests [] (set_requestQueue [] st).

(** [setupIframe]: the iframe is appended to the document. *)
Definition setupIframe (coreUrl : string) (st : State) : State :=
  set_iframes (iframes st ++ [coreUrl]) st.

(** The [DOMContentLoaded] listeners that [init] added. *)
Definition DOMContentLoaded (st : State) : State :=
  set_deferred [] (foldl (λ st coreUrl, setupIframe coreUrl st) st (deferred st)).

(** [channel.onmessage] *)
Definition channel_onmessage (event : ChangeEvent) (st : State) : State :=
  if String.eqb (change_action event) "set" || String.eqb (change_action event) "remove"
  then set_cache (delete (change_key event) (cache st)) st
  else st.

(** The [message] listener that [init] adds to [window].  Every [init]
    that gets past its guards adds it again; the copies act on the same
    variables and the first one to run removes the pending entry, so they
    do what one does. *)
Definition window_onmessage (event : MessageEvent Response) (st : State) : State :=
  if negb (bool_decide (coreState st = ready))
     || negb (bool_decide (Some (origin event) = coreOrigin st))
     || negb (bool_decide (source event = coreWindow st))
  then st
  else
    let requestId := res_requestId (data event) in
    if String.eqb (res_action (data event)) "response"
       && bool_decide (requestId ∈ pendingRequests st)
    then
      let st :=
        match res_error (data event) with
        | Some error => reject requestId {| name := name error; message := message error |} st
        | None => resolve requestId (res_value (data event)) st
        end in
      set_pendingRequests (pending_delete requestId (pendingRequests st)) st
    else st.

Section Url.

(** [new URL(url).origin]: the origin, or the exception of the constructor. *)
Variable URL_origin : string → Completion string.

Definition init (env : Env) (config : Config) (st : State) : Completion unit * State :=
  if negb (has_window env) || negb (has_document env) then
    (Return tt, set_coreState failed st)
  else if negb (bool_decide (coreState st = uninitialized))
          && negb (bool_decide (coreState st = failed)) then
    (Return tt, st)
  else
    let st := set_coreState initializing st in
    let coreUrl :=
      match coreUrl config with
      | Some url => if String.eqb url "" then defaultCoreUrl else url
      | None => defaultCoreUrl
      end in
    match URL_origin coreUrl with
    | Throw e => (Throw e, st)
    | Return o =>
        let st := set_coreOrigin (Some o) st in
        let st :=
          match cfg_defaultOptions config with
          | Some d => set_defaultOptions (JSON_copy d) st
          | None => st
          end in
        let st := if channel st then st else set_channel true st in
        let st :=
          if String.eqb (readyState env) "loading"
          then set_deferred (deferred st ++ [coreUrl]) st
          else setupIframe coreUrl st in
        (Return tt, st)
    end.

Definition sendRequest (env : Env) (message : Request) (st : State)
  : Completion Promise * State :=
  let '(c, st) :=
    if bool_decide (coreState st = uninitialized)
    then init env {| coreUrl := None; cfg_defaultOptions := None |} st
    else (Return tt, st) in
  match c with
  | Throw e => (Throw e, st)
  | Return _ =>
      if bool_decide (coreState st = failed) then
        (Return (Settled (Rejected (Error "GlobalLocalStorage core is in a failed state."))), st)
      else
        let st := new_promise (req_requestId message) st in
        let st := set_pendingRequests
                    (pending_set (req_requestId message) (pendingRequests st)) st in
        let st :=
          if bool_decide (coreState st = ready) then postToCore message st
          else set_requestQueue (requestQueue st ++ [message]) st in
        (Return (Pending (req_requestId message)), st)
  end.

(** [{ ...defaultOptions, ...options }] *)
Definition merge (defaults options : Options) : Options :=
  {| opt_acl := match opt_acl options with Some a => Some a | None => opt_acl defaults end;
     opt_ttl := match opt_ttl options with Some t => Some t | None => opt_ttl defaults end |}.

Definition setItem (env : Env) (key : string) (value : Value) (options : Options)
    (st : State) : Completion Promise * State :=
  let requestId := requestIdCounter st in
  let st := set_requestIdCounter (increment requestId) st in
  let st := set_cache (delete key (cache st)) st in
  let finalOptions := merge (defaultOptions st) options in
  sendRequest env {| req_action := "setItem"; req_key := key; req_value := value;
                     req_options := Some finalOptions; req_requestId := requestId |} st.

Definition getItem (env : Env) (key : string) (st : State) : Completion Promise * State :=
  match cache st !! key with
  | Some value => (Return (Settled (Resolved value)), st)
  | None =>
      let requestId := requestIdCounter st in
      let st := set_requestIdCounter (increment requestId) st in
      match sendRequest env {| req_action := "getItem"; req_key := key;
                               req_value := VUndefined; req_options := None;
                               req_requestId := requestId |} st with
      | (Return p, st) => (Return p, then_cache p key st)
      | (Throw e, st) => (Throw e, st)
      end
  end.

Definition removeItem (env : Env) (key : string) (st : State) : Completion Promise * State :=
  let requestId := requestIdCounter st in
  let st := set_requestIdCounter (increment requestId) st in
  let st := set_cache (delete key (cache st)) st in
  sendRequest env {| req_action := "removeItem"; req_key := key;
                     req_value := VUndefined; req_options := None;
                     req_requestId := requestId |} st.

Definition clear (env : Env) (st : State) : Completion Promise * State :=
  let requestId := requestIdCounter st in
  let st := set_requestIdCounter (increment requestId) st in
  let st := set_cache ∅ st in
  sendRequest env {| req_action := "clear"; req_key := "";
                     req_value := VUndefined; req_options := None;
                     req_requestId := requestId |} st.

Definition keys (env : Env) (st : State) : Completion Promise * State :=
  let requestId := requestIdCounter st in
  let st := set_requestIdCounter (increment requestId) st in
  sendRequest env {| req_action := "keys"; req_key := "";
                     req_value := VUndefined; req_options := None;
                     req_requestId := requestId |} st.

(** ** The public surface *)

Inductive PublicOp :=
| Init (config : Config)
| SetItem (key : string) (value : Value) (options : Options)
| GetItem (key : string)
| RemoveItem (key : string)
| Clear
| Keys.

(** The state a call leaves behind (also when it throws). *)
Definition call (env : Env) (op : PublicOp) (st : State) : State :=
  match op with
  | Init config => (init env config st).2
  | SetItem key value options => (setItem env key value options st).2
  | GetItem key => (getItem env key st).2
  | RemoveItem key => (removeItem env key st).2
  | Clear => (clear env st).2
  | Keys => (keys env st).2
  end.

Definition is_init (op : PublicOp) : bool :=
  match op with Init _ => true | _ => false end.

(** The proxy can take a request: it is ready, or initializing, or not
    yet initialized in a browser where the default core URL parses (the
    first request then calls [init()]). *)
Definition operational (env : Env) (st : State) : Prop :=
  coreState st = ready ∨ coreState st = initializing ∨
  (coreState st = uninitialized ∧ has_window env = true ∧ has_document env = true ∧
   ∃ o, URL_origin defaultCoreUrl = Return o).

End Url.

(** Everything that can happen to the module: a call of the public
    surface or one of the handlers that [init] installed. *)
Inductive Step :=
| Call (op : PublicOp)
| Loaded (iframe : Window)
| LoadError (coreUrl : string)
| DomReady
| Broadcast (event : ChangeEvent)
| Message (reply : MessageEvent Response).

Definition step (URL_origin : string → Completion string) (env : Env)
    (s : Step) (st : State) : State :=
  match s with
  | Call op => call URL_origin env op st
  | Loaded iframe => iframe_onload iframe st
  | LoadError coreUrl => iframe_onerror coreUrl st
  | DomReady => DOMContentLoaded st
  | Broadcast event => channel_onmessage event st
  | Message reply => window_onmessage reply st
  end.

(** Request ids in use are below the counter: the promises that are
    pending, settled or have a callback were all named by earlier values
    of [requestIdCounter]. *)
Definition fresh (st : State) : Prop :=
  ∀ id, id ∈ pendingRequests st ∨ id ∈ (settled st).*1 ∨ id ∈ (reactions st).*1 →
        (id < requestIdCounter st)%Z.

(** Same ids in use, same counter. *)
Definition same_ids (st st' : State) : Prop :=
  requestIdCounter st' = requestIdCounter st ∧
  pendingRequests st' = pendingRequests st ∧
  settled st' = settled st ∧
  reactions st' = reactions st.

(** The states the module goes through, from the one it is loaded in. *)
Definition reachable (URL_origin : string → Completion string) (st : State) : Prop :=
  ∃ trace : list (Env * Step),
    st = foldl (λ st es, step URL_origin es.1 es.2 st) initial trace.

(** The requests handed to the transport so far and not dropped: those
    posted to the core, then those waiting in the queue. *)
Definition issued (st : State) : list Request :=
  (to_message <$> posted st) ++ requestQueue st.

(** The ids of the issued requests are distinct and below the counter. *)
Definition numbered (st : State) : Prop :=
  NoDup (req_requestId <$> issued st) ∧
  ∀ m, m ∈ issued st → (req_requestId m < requestIdCounter st)%Z.

(** Same requests posted and queued, same counter. *)
Definition same_wire (st st' : State) : Prop :=
  posted st' = posted st ∧ requestQueue st' = requestQueue st ∧
  requestIdCounter st' = requestIdCounter st.

(** Same connection to the core. *)
Definition same_link (st st' : State) : Prop :=
  coreState st' = coreState st ∧ coreWindow st' = coreWindow st ∧
  coreOrigin st' = coreOrigin st.

(** [postToCore] as it posts when the connection is that of [st]. *)
Definition toCore (st : State) (message : Request) : ToCore :=
  {| to_window := coreWindow st; to_origin := coreOrigin st; to_message := message |}.

(** The call [op] hands a request to [sendRequest]: every call but
    [init] and a [getItem] that the cache answers. *)
Definition requests (op : PublicOp) (st : State) : Prop :=
  match op with
  | Init _ => False
  | GetItem key => cache st !! key = None
  | _ => True
  end.

(** The request [id] of a [getItem(key)] is on its way: the ids handed
    out from now on differ from [id], and as long as [id] is pending its
    promise is not settled and has the callback that fills the cache. *)
Definition awaited (id : Z) (key : string) (st : State) : Prop :=
  (id < requestIdCounter st)%Z ∧
  (id ∈ pendingRequests st → (id ∉ (settled st).*1) ∧ (id, key) ∈ reactions st).

(** The guard of [window_onmessage] lets [reply] through. *)
Definition accepts (st : State) (reply : MessageEvent Response) : Prop :=
  coreState st = ready ∧ coreOrigin st = Some (origin reply) ∧
  coreWindow st = source reply.

End Client.

(** * Scenarios *)

Module Scenario.

Definition empty : Core.World := {| Core.db := ∅; Core.channel := [] |}.

(** At time 0, [https://a] stores a profile that everyone may read and a
    session that lives one second; [https://b] stores its notes. *)
Definition populated : Core.World :=
  let w := (Core.dbSet Core.no_fault 0 "profile" (VObj [("name", VStr "x")])
              (Some {| opt_acl := Some (Arrays (Some ["*"]) None); opt_ttl := None |})
              "https://a" empty).2 in
  let w := (Core.dbSet Core.no_fault 0 "session" (VStr "v")
              (Some {| opt_acl := None; opt_ttl := Some (Number.of_Z 1) |}) "https://a" w).2 in
  (Core.dbSet Core.no_fault 0 "notes" (VStr "n") None "https://b" w).2.

Definition profile : Core.StorageItem :=
  {| Core.key := "profile"; Core.value := VObj [("name", VStr "x")];
     Core.acl := {| Core.read := ["*"]; Core.write := ["https://a"] |};
     Core.expiresAt := None |}.

Definition session : Core.StorageItem :=
  {| Core.key := "session"; Core.value := VStr "v";
     Core.acl := {| Core.read := ["*"]; Core.write := ["https://a"] |};
     Core.expiresAt := Some (Number.of_Z 1000) |}.

Definition notes : Core.StorageItem :=
  {| Core.key := "notes"; Core.value := VStr "n";
     Core.acl := {| Core.read := ["*"]; Core.write := ["https://b"] |};
     Core.expiresAt := None |}.

(** [0.001], a lifetime of one millisecond:
    [0x1.0624dd2f1a9fcp-10]. *)
Definition millisecond : spec_float := S754_finite false 4611686018427388 (-62).

(** A store that is full: every put is rejected. *)
Definition quota : JsError :=
  {| name := "QuotaExceededError"; message := "The quota has been exceeded." |}.

Definition full (op : Core.DbOp) : option JsError :=
  match op with
  | Core.OpPut _ => Some quota
  | _ => None
  end.

(** [https://a] asks to store a draft, as request 0 of its window 3. *)
Definition store_request : MessageEvent Request :=
  {| origin := "https://a"; source := Some 3;
     data := {| req_action := "setItem"; req_key := "draft"; req_value := VStr "d";
                req_options := Some {| opt_acl := None; opt_ttl := None |};
                req_requestId := 0 |} |}.

(** A browser page that has finished loading, and a URL parser that
    knows the default deployment. *)
Definition browser : Client.Env :=
  {| Client.has_window := true; Client.has_document := true;
     Client.readyState := "complete" |}.

Definition core_origin : string := "https://globallocalstorage.github.io".

Definition URL_origin (url : string) : Completion string :=
  if String.eqb url Client.defaultCoreUrl then Return core_origin
  else Throw {| name := "TypeError"; message := "Invalid URL" |}.

Definition no_config : Client.Config :=
  {| Client.coreUrl := None; Client.cfg_defaultOptions := None |}.

Definition initializing_state : Client.State :=
  (Client.init URL_origin browser no_config Client.initial).2.

(** The iframe (window 0) has loaded. *)
Definition ready_state : Client.State := Client.iframe_onload 0 initializing_state.

(** A ready client whose counter has reached [2^53]. *)
Definition exhausted_state : Client.State :=
  Client.set_requestIdCounter (2 ^ 53) ready_state.

(** The iframe has failed to load. *)
Definition failed_state : Client.State :=
  Client.iframe_onerror Client.defaultCoreUrl initializing_state.

(** The client of [https://a], ready, has asked to store a draft
    (request 0) and then for the keys (request 1). *)
Definition waiting_state : Client.State :=
  (Client.keys URL_origin browser
     (Client.setItem URL_origin browser "draft" (VStr "d")
        {| opt_acl := None; opt_ttl := None |} ready_state).2).2.

(** A message from the core's iframe that carries [response]. *)
Definition from_core (response : Response) : MessageEvent Response :=
  {| origin := core_origin; source := Some 0; data := response |}.

End Scenario.

(** * Properties of the arithmetic of doubles *)

Module NumberProps.
Import Number.
Local Open Scope Z_scope.

Lemma digits2_size (p : positive) : digits2_pos p = Pos.size p.
Proof. induction p as [p IH|p IH|]; simpl; by rewrite ?IH. Qed.

Lemma digits2_upper (p : positive) : Zpos p < 2 ^ Zpos (digits2_pos p).
Proof.
  rewrite digits2_size. pose proof (Pos.size_gt p) as H.
  apply Pos2Z.pos_lt_pos in H. by rewrite Pos2Z.inj_pow in H.
Qed.

Lemma digits2_lower (p : positive) : 2 ^ (Zpos (digits2_pos p) - 1) ≤ Zpos p.
Proof.
  rewrite digits2_size. pose proof (Pos.size_le p) as H.
  apply Pos2Z.pos_le_pos in H. rewrite Pos2Z.inj_pow in H.
  replace (Zpos (Pos.size p)) with (Z.succ (Zpos (Pos.size p) - 1)) in H by lia.
  rewrite Z.pow_succ_r in H by lia. lia.
Qed.

Lemma digits2_mono (p q : positive) :
  Zpos p ≤ Zpos q → Zpos (digits2_pos p) ≤ Zpos (digits2_pos q).
Proof.
  intros Hpq. pose proof (digits2_lower p). pose proof (digits2_upper q).
  destruct (Z.le_gt_cases (Zpos (digits2_pos p)) (Zpos (digits2_pos q))) as [|Hlt]; [done|].
  assert (2 ^ Zpos (digits2_pos q) ≤ 2 ^ (Zpos (digits2_pos p) - 1))
    by (apply Z.pow_le_mono_r; lia).
  lia.
Qed.

Lemma shr_1_m (mrs : shr_record) :
  0 ≤ shr_m mrs → shr_m (shr_1 mrs) = shr_m mrs / 2.
Proof.
  destruct mrs as [m r s]. destruct m as [|[p|p|]|p]; cbn [shr_1 shr_m]; intros Hm; try lia.
  - reflexivity.
  - apply Z.div_unique with 1; lia.
  - apply Z.div_unique with 0; lia.
  - reflexivity.
Qed.

Lemma iter_shr_1_m (n : positive) (mrs : shr_record) :
  0 ≤ shr_m mrs → shr_m (SpecFloat.iter_pos shr_1 n mrs) = shr_m mrs / 2 ^ Zpos n.
Proof.
  revert mrs. induction n as [n IH|n IH|]; intros mrs Hm; cbn [SpecFloat.iter_pos].
  - assert (Hp : 2 ^ Zpos n~1 = 2 * 2 ^ Zpos n * 2 ^ Zpos n).
    { replace (Zpos n~1) with (1 + Zpos n + Zpos n) by lia.
      by rewrite !Z.pow_add_r by lia. }
    assert (H1 : 0 ≤ shr_m (shr_1 mrs)) by (rewrite shr_1_m by done; apply Z.div_pos; lia).
    assert (H2 : 0 ≤ shr_m (SpecFloat.iter_pos shr_1 n (shr_1 mrs)))
      by (rewrite IH by done; apply Z.div_pos; [done|apply Z.pow_pos_nonneg; lia]).
    rewrite IH, IH, shr_1_m by done.
    assert (0 < 2 ^ Zpos n) by (apply Z.pow_pos_nonneg; lia).
    rewrite !Z.div_div by lia. by rewrite Hp, Z.mul_assoc.
  - assert (Hp : 2 ^ Zpos n~0 = 2 ^ Zpos n * 2 ^ Zpos n).
    { replace (Zpos n~0) with (Zpos n + Zpos n) by lia.
      by rewrite Z.pow_add_r by lia. }
    assert (H2 : 0 ≤ shr_m (SpecFloat.iter_pos shr_1 n mrs))
      by (rewrite IH by done; apply Z.div_pos; [done|apply Z.pow_pos_nonneg; lia]).
    rewrite IH, IH by done.
    assert (0 < 2 ^ Zpos n) by (apply Z.pow_pos_nonneg; lia).
    rewrite !Z.div_div by lia. by rewrite Hp.
  - by rewrite shr_1_m.
Qed.

Lemma round_nearest_even_le (m : Z) (l : location) : m ≤ round_nearest_even m l.
Proof. destruct l as [|[]]; simpl; try lia. destruct (Z.even m); lia. Qed.

Lemma shr_record_of_loc_m (m : Z) (l : location) : shr_m (shr_record_of_loc m l) = m.
Proof. by destruct l as [|[]]. Qed.

Lemma fexp_emin (x : Z) : emin prec emax ≤ fexp prec emax x.
Proof. unfold fexp. lia. Qed.

Lemma fexp_below (x : Z) : emin prec emax < x → fexp prec emax x < x.
Proof. unfold fexp, prec. lia. Qed.

(** A shift to the exponent that [fexp] asks for leaves a mantissa of at
    least one when the number has a digit above [emin]. *)
Lemma shr_fexp_positive (p : positive) (e : Z) (l : location) :
  emin prec emax < Zpos (digits2_pos p) + e →
  ∃ mrs e',
    shr_fexp prec emax (Zpos p) e l = (mrs, e') ∧
    1 ≤ shr_m mrs ∧
    (e' = e ∧ shr_m mrs = Zpos p ∧ fexp prec emax (Zpos (digits2_pos p) + e) ≤ e
     ∨ e' = fexp prec emax (Zpos (digits2_pos p) + e)).
Proof.
  intros Hd. unfold shr_fexp, shr. cbn [Zdigits2].
  set (d := Zpos (digits2_pos p)) in *.
  pose proof (fexp_below (d + e) Hd) as Hf.
  destruct (fexp prec emax (d + e) - e) as [|n|n] eqn:Hn.
  - eexists _, _. split; [reflexivity|]. rewrite shr_record_of_loc_m. split; [lia|]. left. lia.
  - eexists _, _. split; [reflexivity|].
    rewrite iter_shr_1_m by (rewrite shr_record_of_loc_m; lia).
    rewrite shr_record_of_loc_m. split; [|right; lia].
    pose proof (digits2_lower p) as Hl. fold d in Hl.
    assert (2 ^ Zpos n ≤ 2 ^ (d - 1)) by (apply Z.pow_le_mono_r; lia).
    apply Z.div_le_lower_bound; [apply Z.pow_pos_nonneg; lia|lia].
  - eexists _, _. split; [reflexivity|]. rewrite shr_record_of_loc_m. split; [lia|]. left. lia.
Qed.

(** Rounding does not lose a number that has a digit above [emin]: the
    result is not zero, keeps the sign and has an exponent in range. *)
Lemma binary_round_aux_signed (s : bool) (p : positive) (e : Z) (l : location) :
  emin prec emax < Zpos (digits2_pos p) + e →
  signed s (binary_round_aux prec emax s (Zpos p) e l).
Proof.
  intros Hd. unfold binary_round_aux.
  destruct (shr_fexp_positive p e l Hd) as (mrs1 & e1 & -> & Hm1 & He1).
  pose proof (round_nearest_even_le (shr_m mrs1) (loc_of_shr_record mrs1)) as Hr.
  destruct (round_nearest_even (shr_m mrs1) (loc_of_shr_record mrs1)) as [|q|q] eqn:Hq;
    [lia| |lia].
  assert (Hd2 : emin prec emax < Zpos (digits2_pos q) + e1).
  { pose proof (fexp_emin (Zpos (digits2_pos p) + e)).
    destruct He1 as [(-> & Hp & Hle)| ->]; [|lia].
    pose proof (digits2_mono p q). lia. }
  destruct (shr_fexp_positive q e1 loc_Exact Hd2) as (mrs2 & e2 & -> & Hm2 & He2).
  destruct (shr_m mrs2) as [|m2|m2]; [lia| |lia].
  pose proof (fexp_emin (Zpos (digits2_pos q) + e1)).
  destruct (e2 <=? emax - prec); simpl; [split; [done|]|done].
  destruct He2 as [(-> & _ & Hle)| ->]; lia.
Qed.

Lemma binary_round_signed (s : bool) (p : positive) (e : Z) :
  emin prec emax < Zpos (digits2_pos p) + e →
  signed s (binary_round prec emax s p e).
Proof.
  intros Hd. unfold binary_round, shl_align.
  pose proof (fexp_emin (Zpos (digits2_pos p) + e)) as Hf.
  destruct (fexp prec emax (Zpos (digits2_pos p) + e) - e) as [|n|n] eqn:Hn;
    apply binary_round_aux_signed; lia.
Qed.

Lemma of_Z_signed (z : Z) : 0 < z → signed false (of_Z z).
Proof.
  intros Hz. destruct z as [|p|p]; [lia| |lia].
  apply binary_round_signed. unfold emin, prec, emax. lia.
Qed.

(** [x * 1000] of a positive [x] is positive. *)
Lemma mul_1000_signed (x : spec_float) :
  signed false x → signed false (mul x (of_Z 1000)).
Proof.
  destruct x as [| [] | | s m e]; try done. intros [-> He].
  change (of_Z 1000) with (S754_finite false 8796093022208000 (-43)).
  unfold mul, SFmul. cbn [xorb]. apply binary_round_aux_signed.
  pose proof (digits2_mono 8796093022208000 (m * 8796093022208000)) as Hm.
  change (Zpos (digits2_pos 8796093022208000)) with 53 in Hm.
  unfold emin, prec, emax in *. lia.
Qed.

(** The sum of a clock reading that is not negative and a positive
    number is positive. *)
Lemma add_signed (now : Z) (x : spec_float) :
  0 ≤ now → signed false x → signed false (add (of_Z now) x).
Proof.
  intros Hnow Hx. destruct (Z.eq_dec now 0) as [->|Hne].
  { change (of_Z 0) with (S754_zero false). by destruct x as [| [] | | [] m e]. }
  pose proof (of_Z_signed now ltac:(lia)) as Hn.
  destruct (of_Z now) as [| [] | | sn mn en]; try done;
    destruct x as [| [] | | s m e]; try done.
  destruct Hn as [-> Hn], Hx as [-> Hx].
  unfold add, SFadd. cbn [cond_Zopp]. rewrite <- Pos2Z.inj_add.
  cbn [binary_normalize]. apply binary_round_signed.
  unfold emin, prec, emax in *. lia.
Qed.

(** A double that is greater than zero. *)
Lemma signed_valid (x : spec_float) :
  valid x = true → ltb (of_Z 0) x = true → signed false x.
Proof.
  destruct x as [| [] | | [] m e]; try done. intros Hv _. split; [done|].
  unfold valid, valid_binary, bounded, canonical_mantissa in Hv.
  apply andb_true_iff in Hv as [Hv _]. apply Z.eqb_eq in Hv.
  pose proof (fexp_emin (Zpos (digits2_pos m) + e)). lia.
Qed.

Lemma signed_positive (x : spec_float) : signed false x → ltb (of_Z 0) x = true.
Proof. destruct x as [| [] | | s m e]; try done. by intros [-> _]. Qed.

Lemma signed_truthy (s : bool) (x : spec_float) : signed s x → truthy x = true.
Proof. by destruct x. Qed.

End NumberProps.

(** * Properties of the storage core *)

Module CoreProps.
Import Core.
Import Scenario.

Lemma no_fault_healthy : healthy no_fault.
Proof. intros op. reflexivity. Qed.

Section Healthy.
Context (fault : DbOp → option JsError) (H : healthy fault).

Lemma request_ok {A} (op : DbOp) (r : A) (w : World) :
  request fault op r w = (Return r, w).
Proof. unfold request. by rewrite H. Qed.

Lemma tx_done_ok (tx : gmap string StorageItem) (w : World) :
  tx_done fault tx w = (Return tt, {| db := tx; channel := channel w |}).
Proof. unfold tx_done. by rewrite H. Qed.

End Healthy.

Ltac run H :=
  unfold dbSet, dbGet, dbRemove, dbClear, dbKeys, db_get, db_delete, db_getAll,
    dbPromise, store_get, store_put, store_delete, store_getAll, store_iterate,
    transaction, postMessage, bind, ret, throw;
  rewrite ?(request_ok _ H), ?(tx_done_ok _ H); simpl.

Lemma world_eta (w : World) : {| db := db w; channel := channel w |} = w.
Proof. by destruct w. Qed.

(** C1: a set on an existing item by an origin that its write list does
    not admit fails with the error that says so (the PermissionDenied of
    the specification) and leaves the world as it was: the stored item
    keeps its value, ACL and expiry, and nothing is posted on the channel.
    Only the open and the read of [key] need to succeed. *)
Theorem dbSet_denied fault now key value options origin w existingItem :
  fault OpOpen = None →
  fault (OpGet key) = None →
  db w !! key = Some existingItem →
  hasPermission (write (acl existingItem)) origin = false →
  dbSet fault now key value options origin w
  = (Throw (Error (permission_message origin "write" key)), w).
Proof.
  intros Hopen Hget Hk Hperm.
  unfold dbSet, dbPromise, transaction, store_get, request, bind, throw.
  rewrite Hopen, Hget, Hk, Hperm. reflexivity.
Qed.

(** An expired item is evicted by the get that finds it. *)
Lemma dbGet_evicts fault now key origin w item :
  healthy fault →
  db w !! key = Some item →
  expired now item = true →
  dbGet fault now key origin w
  = (Return VNull,
     {| db := delete key (db w);
        channel := channel w ++ [{| change_key := key; change_action := "remove" |}] |}).
Proof.
  intros H Hk Hexp. run H. rewrite Hk, Hexp. run H. reflexivity.
Qed.

(** C2: a get on an item whose [expiresAt] is set and lies before [now]
    deletes the item, posts exactly one [{key, remove}] event and returns
    null, whatever the origin: the read ACL is not consulted.  Set is what
    the code tests with [item.expiresAt]: not null and, being a number,
    neither zero nor NaN, as is every timestamp that a set computes from a
    positive lifetime ([dbSet_expiresAt_positive] below); before [now] is
    the code's comparison of the two doubles. *)
Theorem dbGet_expired fault now key origin w item e :
  healthy fault →
  db w !! key = Some item →
  expiresAt item = Some e →
  Number.truthy e = true → Number.ltb e (Number.of_Z now) = true →
  dbGet fault now key origin w
  = (Return VNull,
     {| db := delete key (db w);
        channel := channel w ++ [{| change_key := key; change_action := "remove" |}] |}).
Proof.
  intros H Hk He Hnz Hlt. apply (dbGet_evicts _ _ _ _ _ item); [done..|].
  unfold expired. by rewrite He, Hnz, Hlt.
Qed.


(** ** Scans *)

Lemma keyed_keys (m : gmap string StorageItem) :
  keyed m → key <$> (map_to_list m).*2 = (map_to_list m).*1.
Proof.
  unfold keyed. rewrite map_Forall_to_list.
  induction 1 as [|[k item] l Hk _ IH]; [done|].
  rewrite !fmap_cons. simpl in Hk |- *. f_equal; [exact Hk|exact IH].
Qed.

Lemma elem_of_scan (m : gmap string StorageItem) (P : StorageItem → Prop)
    `{!∀ item, Decision (P item)} (k : string) :
  keyed m →
  k ∈ key <$> filter P (map_to_list m).*2 ↔ ∃ item, m !! k = Some item ∧ P item.
Proof.
  intros Hm. rewrite list_elem_of_fmap. split.
  - intros (item & -> & Hin). apply list_elem_of_filter in Hin as [HP Hin].
    apply list_elem_of_fmap in Hin as ([k' item'] & -> & Hin).
    apply elem_of_map_to_list in Hin. simpl.
    rewrite (Hm _ _ Hin). eauto.
  - intros (item & Hk & HP). exists item. split; [by rewrite (Hm _ _ Hk)|].
    apply list_elem_of_filter. split; [done|].
    apply list_elem_of_fmap. exists (k, item). split; [done|].
    by apply elem_of_map_to_list.
Qed.

Lemma NoDup_scan (m : gmap string StorageItem) (P : StorageItem → Prop)
    `{!∀ item, Decision (P item)} :
  keyed m → NoDup (key <$> filter P (map_to_list m).*2).
Proof.
  intros Hm. apply (sublist_NoDup _ (key <$> (map_to_list m).*2)).
  - rewrite keyed_keys by done. apply NoDup_fst_map_to_list.
  - apply fmap_sublist, sublist_filter.
Qed.

Lemma clear_loop_spec origin (cursor : list StorageItem) tx w :
  let P := λ item, hasPermission (write (acl item)) origin = true in
  clear_loop origin cursor tx w
  = (Return (foldl (λ t item, delete (key item) t) tx (filter P cursor)),
     {| db := db w; channel := channel w ++ (removal <$> filter P cursor) |}).
Proof.
  intros P. revert tx w. induction cursor as [|item cursor IH]; intros tx w; simpl.
  - unfold ret. by rewrite app_nil_r, world_eta.
  - destruct (hasPermission (write (acl item)) origin) eqn:Hp.
    + rewrite filter_cons_True by done. unfold bind, postMessage.
      rewrite IH. simpl. by rewrite <- app_assoc.
    + rewrite filter_cons_False by (unfold P; congruence). apply IH.
Qed.

Lemma lookup_foldl_delete (l : list StorageItem) (tx : gmap string StorageItem) k :
  foldl (λ t item, delete (key item) t) tx l !! k
  = if bool_decide (k ∈ key <$> l) then None else tx !! k.
Proof.
  revert tx. induction l as [|item l IH]; intros tx; cbn [foldl].
  - rewrite fmap_nil. case_bool_decide as Hin; [by apply elem_of_nil in Hin|done].
  - rewrite IH, fmap_cons. destruct (decide (k = key item)) as [->|Hne].
    + rewrite lookup_delete_eq.
      rewrite (bool_decide_eq_true_2 (_ ∈ _ :: _)) by apply list_elem_of_here.
      by case_bool_decide.
    + rewrite lookup_delete_ne by done.
      apply (f_equal (λ b : bool, if b then None else tx !! k)).
      apply bool_decide_ext. rewrite elem_of_cons. tauto.
Qed.

(** C4: clear by [origin] deletes exactly the items whose write list
    admits [origin], posts one [{key, remove}] event for each of them and
    nothing else, and leaves every other item as it was. *)
Theorem dbClear_scoped fault origin w :
  healthy fault →
  keyed (db w) →
  ∃ w' events,
    dbClear fault origin w = (Return tt, w') ∧
    (∀ k, db w' !! k
          = match db w !! k with
            | Some item => if hasPermission (write (acl item)) origin then None else Some item
            | None => None
            end) ∧
    channel w' = channel w ++ events ∧
    NoDup events ∧
    (∀ event, event ∈ events ↔
       change_action event = "remove" ∧
       ∃ item, db w !! change_key event = Some item ∧
               hasPermission (write (acl item)) origin = true).
Proof.
  intros H Hm. run H. rewrite clear_loop_spec. rewrite (tx_done_ok _ H). simpl.
  set (P := λ item, hasPermission (write (acl item)) origin = true).
  set (deleted := filter P (map_to_list (db w)).*2).
  eexists _, (removal <$> deleted). split; [reflexivity|]. simpl.
  assert (Hin : ∀ k, k ∈ key <$> deleted ↔ ∃ item, db w !! k = Some item ∧ P item)
    by (intros k; by apply elem_of_scan).
  split; [|split; [done|split]].
  - intros k. rewrite lookup_foldl_delete.
    destruct (db w !! k) as [item|] eqn:Hk.
    + destruct (hasPermission (write (acl item)) origin) eqn:Hp.
      * rewrite bool_decide_eq_true_2; [done|]. apply Hin. eauto.
      * rewrite bool_decide_eq_false_2; [done|]. rewrite Hin.
        intros (item' & ? & HP). unfold P in HP. congruence.
    + by destruct (bool_decide _).
  - assert (Hnd : NoDup (key <$> deleted)) by by apply NoDup_scan.
    apply (NoDup_fmap_1 change_key). rewrite <- list_fmap_compose. exact Hnd.
  - intros event. rewrite list_elem_of_fmap. split.
    + intros (item & -> & Hitem). split; [done|]. simpl.
      apply Hin. apply list_elem_of_fmap. eauto.
    + intros (Hact & Hex). apply Hin in Hex.
      apply list_elem_of_fmap in Hex as (item & Hkey & Hitem).
      exists item. split; [|done]. destruct event as [k a]. simpl in *.
      unfold removal. congruence.
Qed.

(** C5: a set on an existing item by an origin its write list admits
    stores [{read: options.acl?.read ?? ['*'], write: options.acl?.write
    ?? [origin]}] in place of the old ACL.  Without [options.acl] the read
    list becomes the wildcard and the write list just the caller; a write
    list the caller supplies is stored as given, so that a caller who
    leaves itself out of it no longer has write permission. *)
Theorem dbSet_replaces_acl fault now key value (options : option Options) origin w existingItem :
  healthy fault →
  db w !! key = Some existingItem →
  hasPermission (write (acl existingItem)) origin = true →
  let acl := options ≫= opt_acl in
  ∃ w' item,
    dbSet fault now key value options origin w = (Return tt, w') ∧
    db w' !! key = Some item ∧
    Core.value item = value ∧
    Core.acl item = {| read := default ["*"] (acl ≫= opt_read);
                       write := default [origin] (acl ≫= opt_write) |} ∧
    (acl = None → Core.acl item = {| read := ["*"]; write := [origin] |}) ∧
    (∀ l, acl ≫= opt_write = Some l → hasPermission l origin = false →
          hasPermission (write (Core.acl item)) origin = false) ∧
    channel w' = channel w ++ [{| change_key := key; change_action := "set" |}].
Proof.
  intros H Hk Hperm acl. run H. rewrite Hk, Hperm. simpl. run H.
  eexists _, _. split; [reflexivity|]. simpl.
  rewrite lookup_insert_eq. split; [reflexivity|]. simpl.
  fold acl. repeat split.
  - by intros ->.
  - by intros l -> Hl.
Qed.

(** What [dbKeys] returns: the keys of the items whose read list admits
    [origin]. *)
Lemma dbKeys_spec fault origin w :
  healthy fault →
  keyed (db w) →
  ∃ keys,
    dbKeys fault origin w = (Return keys, w) ∧
    ∀ k, k ∈ keys ↔ ∃ item, db w !! k = Some item ∧
                             hasPermission (read (acl item)) origin = true.
Proof.
  intros H Hm. run H. eexists. split; [reflexivity|].
  intros k. by apply elem_of_scan.
Qed.

(** C6, amended: [dbKeys] does not look at [expiresAt].  It lists exactly
    the keys of the stored items whose read list admits [origin], an
    expired item that has not been evicted included; once a get has
    evicted the expired item, its key is no longer listed. *)
Theorem dbKeys_lists_until_evicted fault now origin w :
  healthy fault →
  keyed (db w) →
  (∃ keys,
     dbKeys fault origin w = (Return keys, w) ∧
     ∀ k, k ∈ keys ↔ ∃ item, db w !! k = Some item ∧
                              hasPermission (read (acl item)) origin = true) ∧
  (∀ key item reader,
     db w !! key = Some item → expired now item = true →
     ∃ w' keys',
       dbGet fault now key reader w = (Return VNull, w') ∧
       dbKeys fault origin w' = (Return keys', w') ∧
       key ∉ keys').
Proof.
  intros H Hm. split; [by apply dbKeys_spec|].
  intros key item reader Hk Hexp.
  rewrite (dbGet_evicts _ _ _ _ _ item) by done.
  eexists. edestruct (dbKeys_spec fault origin) as (keys' & -> & Hkeys); [done| |].
  2:{ eexists. split; [reflexivity|]. split; [reflexivity|].
      rewrite Hkeys. simpl. rewrite lookup_delete_eq. by intros (? & ? & _). }
  simpl. by apply map_Forall_delete.
Qed.

(** C9: a remove of a key that holds no item returns without error and
    leaves the world as it was (no mutation, no event); and a remove that
    has returned can be repeated with no further effect. *)
Theorem dbRemove_absent_noop fault key origin w :
  healthy fault →
  (db w !! key = None → dbRemove fault key origin w = (Return tt, w)) ∧
  (∀ w1, dbRemove fault key origin w = (Return tt, w1) →
         dbRemove fault key origin w1 = (Return tt, w1)).
Proof.
  intros H.
  assert (Habsent : ∀ w0, db w0 !! key = None →
                          dbRemove fault key origin w0 = (Return tt, w0)).
  { intros w0 Hk. run H. by rewrite Hk. }
  split; [apply Habsent|].
  intros w1 Hrun. apply Habsent. revert Hrun. run H.
  destruct (db w !! key) as [item|] eqn:Hk.
  - destruct (hasPermission (write (acl item)) origin); simpl; [|done].
    run H. intros [= <-]. simpl. apply lookup_delete_eq.
  - by intros [= <-].
Qed.

(** ** The key path invariant *)

Lemma keyed_empty : keyed ∅.
Proof. apply map_Forall_empty. Qed.

Lemma keyed_foldl_delete (l : list StorageItem) (tx : gmap string StorageItem) :
  keyed tx → keyed (foldl (λ t item, delete (key item) t) tx l).
Proof.
  revert tx. induction l as [|item l IH]; intros tx Htx; [done|].
  cbn [foldl]. by apply IH, map_Forall_delete.
Qed.

Ltac run_any :=
  unfold dbSet, dbGet, dbRemove, dbClear, dbKeys, db_get, db_delete, db_getAll,
    dbPromise, store_get, store_put, store_delete, store_getAll, store_iterate,
    transaction, tx_done, postMessage, request, bind, ret, throw;
  cbv beta.

Lemma keyed_dbSet fault now key value options origin w :
  keyed (db w) → keyed (db (dbSet fault now key value options origin w).2).
Proof.
  intros Hw. run_any.
  repeat (case_match; simplify_eq/=; try done).
  all: by apply map_Forall_insert_2.
Qed.

Lemma keyed_dbGet fault now key origin w :
  keyed (db w) → keyed (db (dbGet fault now key origin w).2).
Proof.
  intros Hw. run_any.
  repeat (case_match; simplify_eq/=; try done).
  all: by apply map_Forall_delete.
Qed.

Lemma keyed_dbRemove fault key origin w :
  keyed (db w) → keyed (db (dbRemove fault key origin w).2).
Proof.
  intros Hw. run_any.
  repeat (case_match; simplify_eq/=; try done).
  all: by apply map_Forall_delete.
Qed.

Lemma keyed_dbClear fault origin w :
  keyed (db w) → keyed (db (dbClear fault origin w).2).
Proof.
  intros Hw. run_any. destruct (fault OpOpen); [done|].
  destruct (fault OpIterate); [done|]. rewrite clear_loop_spec.
  destruct (fault OpDone); [done|]. simpl. by apply keyed_foldl_delete.
Qed.

Lemma keyed_dbKeys fault origin w :
  keyed (db w) → keyed (db (dbKeys fault origin w).2).
Proof.
  intros Hw. run_any. by repeat (case_match; simplify_eq/=; try done).
Qed.

(** Whatever the store rejects, handling a message keeps every record
    under its own key. *)
Lemma keyed_listener fault now event w :
  keyed (db w) → keyed (db (listener fault now event w).2).
Proof.
  intros Hw. unfold listener.
  destruct (String.eqb _ _), (source event) as [win|]; try done.
  assert (Hd : keyed (db (dispatch fault now event w).2)).
  { unfold dispatch, bind, ret.
    repeat (destruct (String.eqb (req_action (data event)) _)).
    - pose proof (keyed_dbSet fault now (req_key (data event)) (req_value (data event))
                    (req_options (data event)) (origin event) w Hw).
      by destruct (dbSet _ _ _ _ _ _ _) as [[] ?].
    - pose proof (keyed_dbGet fault now (req_key (data event)) (origin event) w Hw).
      by destruct (dbGet _ _ _ _ _) as [[] ?].
    - pose proof (keyed_dbRemove fault (req_key (data event)) (origin event) w Hw).
      by destruct (dbRemove _ _ _ _) as [[] ?].
    - pose proof (keyed_dbClear fault (origin event) w Hw).
      by destruct (dbClear _ _ _) as [[] ?].
    - pose proof (keyed_dbKeys fault (origin event) w Hw).
      by destruct (dbKeys _ _ _) as [[] ?].
    - done. }
  by destruct (dispatch fault now event w) as [[[v|]|e] w'].
Qed.

(** ** Timestamps *)

(** The expiry that a set computes at a clock reading that is not
    negative, from a lifetime that is a positive double, is positive: it
    is neither zero nor NaN. *)
Lemma expiry_positive (now : Z) (ttl : spec_float) :
  (0 ≤ now)%Z →
  Number.valid ttl = true →
  Number.ltb (Number.of_Z 0) ttl = true →
  Number.signed false
    (Number.add (Number.of_Z now) (Number.mul ttl (Number.of_Z 1000))).
Proof.
  intros Hnow Hv Hpos.
  by apply NumberProps.add_signed, NumberProps.mul_1000_signed, NumberProps.signed_valid.
Qed.

(** A lifetime that is truthy and not negative is positive. *)
Lemma lifetime_positive (ttl : spec_float) :
  Number.truthy ttl = true →
  Number.ltb ttl (Number.of_Z 0) = false →
  Number.ltb (Number.of_Z 0) ttl = true.
Proof. by destruct ttl as [| [] | | [] m e]. Qed.

(** A set at a clock reading that is not negative with a lifetime that is
    a double and not negative stores either no expiry or a positive one;
    no timestamp it stores is zero. *)
Lemma dbSet_expiresAt_positive fault now key value (options : option Options) origin w w' :
  (0 ≤ now)%Z →
  (∀ ttl, options ≫= opt_ttl = Some ttl →
          Number.valid ttl = true ∧ Number.ltb ttl (Number.of_Z 0) = false) →
  dbSet fault now key value options origin w = (Return tt, w') →
  ∃ item, db w' !! key = Some item ∧
          ∀ e, expiresAt item = Some e →
               Number.truthy e = true ∧ Number.ltb (Number.of_Z 0) e = true.
Proof.
  intros Hnow Httl. run_any.
  destruct (options ≫= opt_ttl) as [ttl|] eqn:Hopt.
  - destruct (Httl ttl eq_refl) as [Hv Hneg].
    destruct (Number.truthy ttl) eqn:Htruthy.
    + pose proof (expiry_positive now ttl Hnow Hv (lifetime_positive ttl Htruthy Hneg)) as Hs.
      repeat case_match; intros; simplify_eq/=;
        (eexists; split; [apply lookup_insert_eq|]; simpl; intros e [= <-];
         split; [by eapply NumberProps.signed_truthy|by apply NumberProps.signed_positive]).
    + repeat case_match; intros; simplify_eq/=;
        (eexists; split; [apply lookup_insert_eq|]; simpl; intros e [=]).
  - repeat case_match; intros; simplify_eq/=;
      (eexists; split; [apply lookup_insert_eq|]; simpl; intros e [=]).
Qed.

(** ** Failures of the single-key writes *)

(** A set or a remove that throws, for a missing permission or because
    the store rejected a request, has changed nothing and posted nothing. *)
Lemma dbSet_throws_unchanged fault now key value options origin w e w' :
  dbSet fault now key value options origin w = (Throw e, w') → w' = w.
Proof.
  run_any. repeat case_match; intros; by simplify_eq/=.
Qed.

Lemma dbRemove_throws_unchanged fault key origin w e w' :
  dbRemove fault key origin w = (Throw e, w') → w' = w.
Proof.
  run_any. repeat case_match; intros; by simplify_eq/=.
Qed.

(** ** The scenarios, evaluated *)

Lemma populated_db :
  db populated = <["notes" := notes]> (<["session" := session]> (<["profile" := profile]> ∅)).
Proof. reflexivity. Qed.

Lemma populated_keyed : keyed (db populated).
Proof.
  unfold keyed. apply map_Forall_to_list. vm_compute. repeat constructor.
Defined.

(** Witness of C1: [https://b] sets the profile of [https://a]. *)
Lemma dbSet_denied_witness :
  db populated !! "profile" = Some profile ∧
  hasPermission (write (acl profile)) "https://b" = false ∧
  dbSet no_fault 5 "profile" (VObj [("name", VStr "y")]) None "https://b" populated
  = (Throw (Error "Origin 'https://b' does not have write permission for key 'profile'."),
     populated).
Proof.
  split; [reflexivity|]. split; [reflexivity|].
  apply (dbSet_denied no_fault 5 "profile" (VObj [("name", VStr "y")]) None
           "https://b" populated profile); reflexivity.
Defined.

(** Witness of C2: a reader the ACL would admit or not, 2.5 s later. *)
Lemma dbGet_expired_witness :
  db populated !! "session" = Some session ∧
  dbGet no_fault 2500 "session" "https://b" populated
  = (Return VNull,
     {| db := delete "session" (db populated);
        channel := channel populated
                   ++ [{| change_key := "session"; change_action := "remove" |}] |}).
Proof.
  split; [reflexivity|].
  apply (dbGet_expired no_fault 2500 "session" "https://b" populated session
           (Number.of_Z 1000)).
  - intros op. reflexivity.
  - reflexivity.
  - reflexivity.
  - reflexivity.
  - reflexivity.
Defined.


(** C3: the read list of a new item is not always the list that was asked
    for.  [https://a] creates an item and gives one array, which names a
    partner, for both lists: the origin is appended to that array, and
    the stored read list has it too.  With two arrays of the same content
    the read list is stored as it was asked for. *)
Theorem dbSet_creates_shared_array :
  let partner := ["https://partner.example"] in
  let run acl :=
    dbSet no_fault 0 "doc" (VStr "v") (Some {| opt_acl := Some acl; opt_ttl := None |})
      "https://a" empty in
  (∃ w' item,
     run (OneArray partner) = (Return tt, w') ∧
     db w' !! "doc" = Some item ∧
     write (acl item) = ["https://partner.example"; "https://a"] ∧
     read (acl item) = ["https://partner.example"; "https://a"] ∧
     read (acl item) ≠ default ["*"] (opt_read (OneArray partner)) ∧
     hasPermission (default ["*"] (opt_read (OneArray partner))) "https://a" = false ∧
     hasPermission (read (acl item)) "https://a" = true) ∧
  (∃ w' item,
     run (Arrays (Some partner) (Some partner)) = (Return tt, w') ∧
     db w' !! "doc" = Some item ∧
     write (acl item) = ["https://partner.example"; "https://a"] ∧
     read (acl item) = ["https://partner.example"]).
Proof.
  intros partner run. split.
  - exists (run (OneArray partner)).2,
      {| key := "doc"; value := VStr "v";
         acl := {| read := ["https://partner.example"; "https://a"];
                   write := ["https://partner.example"; "https://a"] |};
         expiresAt := None |}.
    split; [reflexivity|]. split; [reflexivity|].
    repeat split; try reflexivity. discriminate.
  - exists (run (Arrays (Some partner) (Some partner))).2,
      {| key := "doc"; value := VStr "v";
         acl := {| read := ["https://partner.example"];
                   write := ["https://partner.example"; "https://a"] |};
         expiresAt := None |}.
    split; [reflexivity|]. split; [reflexivity|]. by split.
Qed.

(** Witness of C4: [https://a] clears; the notes of [https://b] stay. *)
Lemma dbClear_scoped_witness :
  ∃ w' events,
    dbClear no_fault "https://a" populated = (Return tt, w') ∧
    db w' !! "profile" = None ∧ db w' !! "session" = None ∧
    db w' !! "notes" = Some notes ∧
    channel w' = channel populated ++ events ∧
    NoDup events ∧
    {| change_key := "profile"; change_action := "remove" |} ∈ events ∧
    {| change_key := "notes"; change_action := "remove" |} ∉ events.
Proof.
  destruct (dbClear_scoped no_fault "https://a" populated)
    as (w' & events & Hrun & Hdb & Hch & Hnd & Hev).
  - intros op. reflexivity.
  - exact populated_keyed.
  - exists w', events. split; [exact Hrun|].
    split; [rewrite Hdb; reflexivity|]. split; [rewrite Hdb; reflexivity|].
    split; [rewrite Hdb; reflexivity|]. split; [exact Hch|]. split; [exact Hnd|].
    split.
    + apply Hev. split; [reflexivity|]. exists profile. split; reflexivity.
    + intros Hin. apply Hev in Hin as (_ & item & Hitem & Hperm).
      simpl in Hitem.
      assert (Some notes = Some item) as [= <-] by (rewrite <- Hitem; reflexivity).
      discriminate Hperm.
Defined.

(** Witness of C5: [https://a] hands the profile over to [https://b]. *)
Lemma dbSet_replaces_acl_witness :
  ∃ w' item,
    dbSet no_fault 5 "profile" (VStr "z")
      (Some {| opt_acl := Some (Arrays None (Some ["https://b"])); opt_ttl := None |})
      "https://a" populated = (Return tt, w') ∧
    db w' !! "profile" = Some item ∧
    acl item = {| read := ["*"]; write := ["https://b"] |} ∧
    hasPermission (write (acl item)) "https://a" = false.
Proof.
  destruct (dbSet_replaces_acl no_fault 5 "profile" (VStr "z")
              (Some {| opt_acl := Some (Arrays None (Some ["https://b"])); opt_ttl := None |})
              "https://a" populated profile)
    as (w' & item & Hrun & Hk & _ & Hacl & _ & Hlose & _).
  - intros op. reflexivity.
  - reflexivity.
  - reflexivity.
  - exists w', item. split; [exact Hrun|]. split; [exact Hk|]. split; [exact Hacl|].
    apply (Hlose ["https://b"]); reflexivity.
Defined.

(** Counterexample to C6: five seconds after the session was stored with
    a lifetime of one second, [https://a], which may read it, still gets
    its key from keys. *)
Lemma dbKeys_lists_expired :
  db populated !! "session" = Some session ∧
  expiresAt session = Some (Number.of_Z 1000) ∧
  Number.ltb (Number.of_Z 1000) (Number.of_Z 5000) = true ∧
  expired 5000 session = true ∧
  hasPermission (read (acl session)) "https://a" = true ∧
  ∃ keys, dbKeys no_fault "https://a" populated = (Return keys, populated) ∧
          "session" ∈ keys.
Proof.
  repeat (split; [reflexivity|]).
  eexists. split; [reflexivity|]. vm_compute.
  apply list_elem_of_In. simpl. tauto.
Qed.

(** Witness of C6 as amended. *)
Lemma dbKeys_lists_until_evicted_witness :
  (∃ keys, dbKeys no_fault "https://a" populated = (Return keys, populated) ∧
           "session" ∈ keys) ∧
  (∃ w' keys', dbGet no_fault 5000 "session" "https://b" populated = (Return VNull, w') ∧
               dbKeys no_fault "https://a" w' = (Return keys', w') ∧
               "session" ∉ keys').
Proof.
  destruct (dbKeys_lists_until_evicted no_fault 5000 "https://a" populated)
    as [(keys & Hrun & Hkeys) Hevict].
  - intros op. reflexivity.
  - exact populated_keyed.
  - split.
    + exists keys. split; [exact Hrun|]. apply Hkeys. exists session. split; reflexivity.
    + apply (Hevict "session" session "https://b"); reflexivity.
Defined.

(** Witness of C9: nobody has stored a draft. *)
Lemma dbRemove_absent_noop_witness :
  db populated !! "draft" = None ∧
  dbRemove no_fault "draft" "https://b" populated = (Return tt, populated) ∧
  ∃ w1, dbRemove no_fault "notes" "https://b" populated = (Return tt, w1) ∧
        w1 ≠ populated ∧
        dbRemove no_fault "notes" "https://b" w1 = (Return tt, w1).
Proof.
  split; [reflexivity|]. split.
  - apply (dbRemove_absent_noop no_fault "draft" "https://b" populated).
    + intros op. reflexivity.
    + reflexivity.
  - eexists. split; [reflexivity|]. split.
    + intros Heq. apply (f_equal (λ w, db w !! "notes")) in Heq. discriminate Heq.
    + apply (dbRemove_absent_noop no_fault "notes" "https://b" populated).
      * intros op. reflexivity.
      * reflexivity.
Defined.

End CoreProps.

(** * Properties of the client library and of the protocol *)

Module ClientProps.
Import Client.
Import Scenario.

(** [increment] is the addition of doubles, here at both ends of the
    counter's range. *)
Lemma increment_double :
  Forall (λ n, Number.add (Number.of_Z n) (Number.of_Z 1) = Number.of_Z (increment n))
         [0; 1; 2; 2 ^ 52; 2 ^ 53 - 2; 2 ^ 53 - 1; 2 ^ 53]%Z.
Proof. repeat (apply List.Forall_cons; [by vm_compute|]). apply List.Forall_nil. Qed.

Lemma fresh_initial : fresh initial.
Proof.
  intros id. unfold initial. simpl.
  intros [Hid|[Hid|Hid]]; by apply elem_of_nil in Hid.
Qed.

Section WithUrl.
Variable URL_origin : string → Completion string.

(** In state [failed] a request is rejected on the spot and nothing else
    happens. *)
Lemma sendRequest_failed env message st :
  coreState st = failed →
  sendRequest URL_origin env message st
  = (Return (Settled (Rejected (Error "GlobalLocalStorage core is in a failed state."))), st).
Proof.
  intros Hst. unfold sendRequest. rewrite Hst. simpl. by rewrite Hst.
Qed.

Lemma call_failed env op st :
  is_init op = false → coreState st = failed →
  coreState (call URL_origin env op st) = failed.
Proof.
  intros Hop Hst. destruct op; try discriminate; simpl.
  - unfold setItem. by rewrite sendRequest_failed.
  - unfold getItem. destruct (cache st !! key); [done|].
    by rewrite sendRequest_failed.
  - unfold removeItem. by rewrite sendRequest_failed.
  - unfold clear. by rewrite sendRequest_failed.
  - unfold keys. by rewrite sendRequest_failed.
Qed.

(** C8, amended: in state [failed] the data operations (setItem, getItem,
    removeItem, clear, keys), in any number and order, leave the state
    [failed]; [init] leaves it: where [window] and [document] exist it
    starts over and the state becomes [initializing], elsewhere the state
    stays [failed]. *)
Theorem failed_left_only_by_init env st :
  coreState st = failed →
  (∀ ops, forallb (λ op, negb (is_init op)) ops = true →
          coreState (foldl (λ st op, call URL_origin env op st) st ops) = failed) ∧
  (∀ config, coreState (call URL_origin env (Init config) st)
             = if has_window env && has_document env then initializing else failed).
Proof.
  intros Hst. split.
  - intros ops. revert st Hst. induction ops as [|op ops IH]; intros st Hst Hops; [done|].
    simpl in Hops. apply andb_true_iff in Hops as [Hop Hops].
    simpl. apply IH; [|done]. apply call_failed; [|done].
    by destruct (is_init op).
  - intros config. simpl. unfold init. rewrite Hst.
    destruct (has_window env), (has_document env); simpl; try done.
    destruct (URL_origin _); [|done]. simpl.
    by repeat case_match.
Qed.

Lemma sendRequest_ready env message st :
  coreState st = ready →
  sendRequest URL_origin env message st
  = (Return (Pending (req_requestId message)),
     postToCore message
       (set_pendingRequests (pending_set (req_requestId message) (pendingRequests st))
          (new_promise (req_requestId message) st))).
Proof.
  intros Hst. unfold sendRequest. rewrite Hst. simpl. by rewrite Hst.
Qed.

Lemma sendRequest_initializing env message st :
  coreState st = initializing →
  sendRequest URL_origin env message st
  = (Return (Pending (req_requestId message)),
     set_requestQueue (requestQueue st ++ [message])
       (set_pendingRequests (pending_set (req_requestId message) (pendingRequests st))
          (new_promise (req_requestId message) st))).
Proof.
  intros Hst. unfold sendRequest. rewrite Hst. simpl. by rewrite Hst.
Qed.

(** The [init()] of a first request: only the connection changes. *)
Lemma init_first env st o :
  coreState st = uninitialized →
  has_window env = true → has_document env = true →
  URL_origin defaultCoreUrl = Return o →
  ∃ st0,
    init URL_origin env {| coreUrl := None; cfg_defaultOptions := None |} st
    = (Return tt, st0) ∧
    coreState st0 = initializing ∧
    requestQueue st0 = requestQueue st ∧ pendingRequests st0 = pendingRequests st ∧
    posted st0 = posted st ∧ cache st0 = cache st ∧ reactions st0 = reactions st ∧
    settled st0 = settled st ∧ requestIdCounter st0 = requestIdCounter st.
Proof.
  intros Hst Hw Hd Ho. unfold init. rewrite Hst, Hw, Hd. simpl. rewrite Ho.
  eexists. split; [reflexivity|]. by repeat case_match.
Qed.

Lemma sendRequest_uninitialized env message st o :
  coreState st = uninitialized →
  has_window env = true → has_document env = true →
  URL_origin defaultCoreUrl = Return o →
  ∃ st0,
    sendRequest URL_origin env message st
    = (Return (Pending (req_requestId message)),
       set_requestQueue (requestQueue st0 ++ [message])
         (set_pendingRequests (pending_set (req_requestId message) (pendingRequests st0))
            (new_promise (req_requestId message) st0))) ∧
    coreState st0 = initializing ∧
    requestQueue st0 = requestQueue st ∧ pendingRequests st0 = pendingRequests st ∧
    posted st0 = posted st ∧ cache st0 = cache st ∧ reactions st0 = reactions st ∧
    settled st0 = settled st ∧ requestIdCounter st0 = requestIdCounter st.
Proof.
  intros Hst Hw Hd Ho.
  destruct (init_first env st o Hst Hw Hd Ho) as (st0 & Hinit & Hst0 & Hrest).
  exists st0. split; [|done].
  unfold sendRequest. rewrite Hst. simpl. rewrite Hinit, Hst0. done.
Qed.

(** A name that is not in use is not changed by the creation of its
    promise. *)
Lemma filter_all {A} (P : A → Prop) `{∀ x, Decision (P x)} (l : list A) :
  Forall P l → filter P l = l.
Proof.
  induction 1 as [|x l Hx Hl IH]; [done|].
  by rewrite filter_cons_True, IH.
Qed.

Lemma new_promise_unused id st :
  id ∉ (settled st).*1 → id ∉ (reactions st).*1 → new_promise id st = st.
Proof.
  intros Hs Hr. unfold new_promise.
  rewrite (filter_all _ (settled st)), (filter_all _ (reactions st)).
  - by destruct st.
  - apply Forall_forall. intros r Hin Heq. apply Hr, list_elem_of_fmap. by exists r.
  - apply Forall_forall. intros x Hin Heq. apply Hs, list_elem_of_fmap. by exists x.
Qed.

(** ** Responses *)

Lemma response_settles st (reply : MessageEvent Response) :
  accepts st reply →
  res_action (data reply) = "response" →
  res_requestId (data reply) ∈ pendingRequests st →
  window_onmessage reply st
  = let id := res_requestId (data reply) in
    let st' := match res_error (data reply) with
               | Some error => reject id error st
               | None => resolve id (res_value (data reply)) st
               end in
    set_pendingRequests (pending_delete id (pendingRequests st')) st'.
Proof.
  intros (Hst & Ho & Hw) Hact Hid. unfold window_onmessage.
  rewrite Hst, Ho, Hw, Hact. simpl.
  rewrite !bool_decide_eq_true_2 by done. simpl.
  destruct (res_error (data reply)) as [[n m]|]; reflexivity.
Qed.

Lemma reactions_skip (id : Z) (value : Value) (l : list (Z * string)) (st : State) :
  id ∉ l.*1 →
  foldl (λ st r, if bool_decide (r.1 = id)
                 then set_cache (<[r.2 := value]> (cache st)) st else st) st l = st.
Proof.
  revert st. induction l as [|[i k] l IH]; intros st Hid; [done|].
  rewrite fmap_cons, not_elem_of_cons in Hid. destruct Hid as [Hne Hid].
  cbn [foldl]. simpl. rewrite bool_decide_eq_false_2 by done. by apply IH.
Qed.

Lemma elem_of_pending_delete (id i : Z) (l : list Z) :
  i ∈ pending_delete id l ↔ i ≠ id ∧ i ∈ l.
Proof. unfold pending_delete. by rewrite list_elem_of_filter. Qed.

Lemma elem_of_pending_set (id i : Z) (l : list Z) :
  i ∈ pending_set id l ↔ i = id ∨ i ∈ l.
Proof.
  unfold pending_set. case_bool_decide.
  - split; [by right|]. by intros [->|].
  - rewrite elem_of_app, list_elem_of_singleton. tauto.
Qed.

End WithUrl.

(** ** The invariant [fresh] *)

Lemma same_ids_fresh st st' : same_ids st st' → fresh st → fresh st'.
Proof.
  intros (Hc & Hp & Hs & Hr) Hf id. rewrite Hc, Hp, Hs, Hr. apply Hf.
Qed.

Lemma same_ids_foldl {A} (f : State → A → State) (l : list A) st :
  (∀ st a, same_ids st (f st a)) → same_ids st (foldl f st l).
Proof.
  intros Hf. revert st. induction l as [|a l IH]; intros st; [done|].
  cbn [foldl]. destruct (IH (f st a)) as (Hc & Hp & Hs & Hr).
  destruct (Hf st a) as (Hc' & Hp' & Hs' & Hr').
  unfold same_ids. by rewrite Hc, Hp, Hs, Hr.
Qed.

Lemma reject_settled id error st :
  same_ids st (reject id error st) ∨
  (requestIdCounter (reject id error st) = requestIdCounter st ∧
   pendingRequests (reject id error st) = pendingRequests st ∧
   settled (reject id error st) = settled st ++ [(id, Rejected error)] ∧
   reactions (reject id error st) = reactions st).
Proof. unfold reject. case_bool_decide; [by left|by right]. Qed.

Lemma resolve_settled id value st :
  same_ids st (resolve id value st) ∨
  (requestIdCounter (resolve id value st) = requestIdCounter st ∧
   pendingRequests (resolve id value st) = pendingRequests st ∧
   settled (resolve id value st) = settled st ++ [(id, Resolved value)] ∧
   reactions (resolve id value st) = reactions st).
Proof.
  unfold resolve. case_bool_decide; [by left|right].
  match goal with |- context [foldl ?f ?st0 ?l] =>
    destruct (same_ids_foldl f l st0) as (-> & -> & -> & ->); [|done] end.
  intros st' r. by case_bool_decide.
Qed.

Lemma fresh_reject id error st :
  id ∈ pendingRequests st → fresh st → fresh (reject id error st).
Proof.
  intros Hid Hf. destruct (reject_settled id error st) as [Hs|(Hc & Hp & Hs & Hr)].
  - by apply (same_ids_fresh st).
  - intros i. rewrite Hc, Hp, Hs, Hr, fmap_app, elem_of_app. simpl.
    rewrite list_elem_of_singleton. intros [H|[[H| ->]|H]]; apply Hf; tauto.
Qed.

Lemma fresh_resolve id value st :
  id ∈ pendingRequests st → fresh st → fresh (resolve id value st).
Proof.
  intros Hid Hf. destruct (resolve_settled id value st) as [Hs|(Hc & Hp & Hs & Hr)].
  - by apply (same_ids_fresh st).
  - intros i. rewrite Hc, Hp, Hs, Hr, fmap_app, elem_of_app. simpl.
    rewrite list_elem_of_singleton. intros [H|[[H| ->]|H]]; apply Hf; tauto.
Qed.

Lemma fresh_window_onmessage reply st : fresh st → fresh (window_onmessage reply st).
Proof.
  intros Hf. unfold window_onmessage.
  destruct (_ || _); [done|].
  destruct (_ && _) eqn:Hguard; [|done].
  apply andb_true_iff in Hguard as [_ Hid]. apply bool_decide_eq_true in Hid.
  set (st' := match res_error (data reply) with Some _ => _ | None => _ end).
  assert (Hf' : fresh st').
  { unfold st'. destruct (res_error (data reply)).
    - by apply fresh_reject.
    - by apply fresh_resolve. }
  intros i Hi. apply (Hf' i). simpl in Hi.
  destruct Hi as [Hi|Hi]; [|by right]. left.
  by apply elem_of_pending_delete in Hi as [_ Hi].
Qed.

Lemma fresh_iframe_onload iframe st : fresh st → fresh (iframe_onload iframe st).
Proof.
  apply same_ids_fresh. unfold iframe_onload, processRequestQueue.
  match goal with |- context [foldl ?f ?st0 ?l] =>
    destruct (same_ids_foldl f l st0) as (Hc & Hp & Hs & Hr); [done|] end.
  split; [exact Hc|]. split; [exact Hp|]. split; [exact Hs|exact Hr].
Qed.

Lemma pendingRequests_reject id error st :
  pendingRequests (reject id error st) = pendingRequests st.
Proof. unfold reject. by case_bool_decide. Qed.

Lemma fresh_rejectAll error (queue : list Request) st :
  fresh st →
  let st' := foldl (λ st (req : Request),
                      if bool_decide (req_requestId req ∈ pendingRequests st)
                      then reject (req_requestId req) error st else st) st queue in
  fresh st' ∧ pendingRequests st' = pendingRequests st.
Proof.
  revert st. induction queue as [|req queue IH]; intros st Hf; [done|].
  cbn [foldl]. cbv zeta in IH. case_bool_decide as Hin.
  - destruct (IH (reject (req_requestId req) error st)) as [Hf' Hp'].
    + by apply fresh_reject.
    + split; [done|]. by rewrite Hp', pendingRequests_reject.
  - by apply IH.
Qed.

Lemma fresh_reject_each error (l : list Z) st :
  fresh st →
  (∀ id, id ∈ l → id ∈ pendingRequests st) →
  fresh (foldl (λ st id, reject id error st) st l).
Proof.
  revert st. induction l as [|id l IH]; intros st Hf Hl; [done|].
  cbn [foldl]. apply IH.
  - apply fresh_reject; [|done]. apply Hl. by left.
  - intros i Hi. rewrite pendingRequests_reject. apply Hl. by right.
Qed.

Lemma fresh_iframe_onerror coreUrl st : fresh st → fresh (iframe_onerror coreUrl st).
Proof.
  intros Hf. unfold iframe_onerror.
  set (error := Error _). set (st0 := set_coreState failed st).
  assert (Hf0 : fresh st0) by done.
  destruct (fresh_rejectAll error (requestQueue st0) st0 Hf0) as [Hf1 _].
  set (st1 := foldl _ st0 (requestQueue st0)) in *.
  assert (Hf2 : fresh (foldl (λ st id, reject id error st) st1 (pendingRequests st1)))
    by by apply fresh_reject_each.
  intros i [Hi|Hi]; simpl in Hi |- *.
  - by apply elem_of_nil in Hi.
  - apply Hf2. by right.
Qed.

Lemma elem_of_fst_filter {A} (id i : Z) (l : list (Z * A)) :
  i ∈ (filter (λ x, x.1 ≠ id) l).*1 ↔ i ≠ id ∧ i ∈ l.*1.
Proof.
  rewrite !list_elem_of_fmap. split.
  - intros (x & -> & Hx). apply list_elem_of_filter in Hx as [Hne Hx].
    split; [done|by exists x].
  - intros (Hne & x & -> & Hx). exists x. split; [done|].
    by apply list_elem_of_filter.
Qed.

Lemma fresh_new_promise id st : fresh st → fresh (new_promise id st).
Proof.
  intros Hf i. unfold new_promise. cbn [pendingRequests settled reactions requestIdCounter
    set_reactions set_settled].
  rewrite !elem_of_fst_filter. intros [H|[[_ H]|[_ H]]]; apply Hf; tauto.
Qed.

Lemma fresh_pending_set id st :
  (id < requestIdCounter st)%Z → fresh st →
  fresh (set_pendingRequests (pending_set id (pendingRequests st)) st).
Proof.
  intros Hid Hf i. cbn [pendingRequests settled reactions requestIdCounter set_pendingRequests].
  rewrite elem_of_pending_set. intros [[->|H]|H]; [done|..]; apply Hf; tauto.
Qed.

Section FreshCalls.
Variable URL_origin : string → Completion string.

Lemma same_ids_init env config st : same_ids st (init URL_origin env config st).2.
Proof. unfold init. by repeat case_match. Qed.

Lemma fresh_sendRequest env message st :
  (req_requestId message < requestIdCounter st)%Z →
  fresh st →
  fresh (sendRequest URL_origin env message st).2 ∧
  ∀ p key, (sendRequest URL_origin env message st).1 = Return p →
           fresh (then_cache p key (sendRequest URL_origin env message st).2).
Proof.
  intros Hid Hf. unfold sendRequest.
  set (r := if bool_decide (coreState st = uninitialized) then _ else _).
  assert (Hr : same_ids st r.2).
  { unfold r. case_bool_decide; [apply same_ids_init|done]. }
  destruct r as [c st0]. simpl in Hr.
  assert (Hf0 : fresh st0) by by apply (same_ids_fresh st).
  assert (Hid0 : (req_requestId message < requestIdCounter st0)%Z)
    by (destruct Hr as (-> & _); done).
  clear Hr Hf Hid. destruct c as [[]|e]; [|by split].
  case_bool_decide.
  { split; [done|]. by intros p key [= <-]. }
  set (st1 := set_pendingRequests _ (new_promise _ st0)).
  assert (Hf1 : fresh st1).
  { apply (fresh_pending_set _ (new_promise _ st0)); [done|by apply fresh_new_promise]. }
  set (st2 := if bool_decide (coreState st1 = ready) then _ else _).
  assert (Hs2 : same_ids st1 st2) by (unfold st2; by case_bool_decide).
  assert (Hf2 : fresh st2) by by apply (same_ids_fresh st1).
  split; [done|]. intros p key [= <-]. simpl.
  intros i. simpl. rewrite fmap_app, elem_of_app. simpl. rewrite list_elem_of_singleton.
  intros [H'|[H'|[H'| ->]]]; try (apply Hf2; tauto).
  destruct Hs2 as (-> & _). done.
Qed.

Lemma increment_le (n : Z) : (n ≤ increment n)%Z.
Proof. unfold increment. case_match; lia. Qed.

(** Below [2^53] the counter moves on. *)
Lemma increment_lt (n : Z) : (n < 2 ^ 53)%Z → (n < increment n)%Z.
Proof.
  intros Hn. unfold increment. destruct (Z.ltb_spec n (2 ^ 53)); lia.
Qed.

Lemma fresh_next st :
  fresh st → fresh (set_requestIdCounter (increment (requestIdCounter st)) st).
Proof.
  intros Hf i Hi. simpl in *. assert (i < requestIdCounter st)%Z by by apply Hf.
  pose proof (increment_le (requestIdCounter st)). lia.
Qed.

Lemma fresh_call env op st :
  (requestIdCounter st < 2 ^ 53)%Z → fresh st → fresh (call URL_origin env op st).
Proof.
  intros Hc Hf. pose proof (increment_lt _ Hc) as Hlt. destruct op; simpl.
  - apply (same_ids_fresh st); [apply same_ids_init|done].
  - unfold setItem. apply fresh_sendRequest; [done|].
    apply (same_ids_fresh (set_requestIdCounter (increment (requestIdCounter st)) st));
      [done|by apply fresh_next].
  - unfold getItem. destruct (cache st !! key); [done|].
    match goal with |- context [sendRequest _ _ ?m ?s] =>
      destruct (fresh_sendRequest env m s) as [Hf1 Hf2];
      [done|by apply fresh_next|];
      destruct (sendRequest URL_origin env m s) as [[p|e] st1] end; [|done].
    by apply Hf2.
  - unfold removeItem. apply fresh_sendRequest; [done|].
    apply (same_ids_fresh (set_requestIdCounter (increment (requestIdCounter st)) st));
      [done|by apply fresh_next].
  - unfold clear. apply fresh_sendRequest; [done|].
    apply (same_ids_fresh (set_requestIdCounter (increment (requestIdCounter st)) st));
      [done|by apply fresh_next].
  - unfold keys. apply fresh_sendRequest; [done|]. by apply fresh_next.
Qed.

Lemma fresh_step env s st :
  (requestIdCounter st < 2 ^ 53)%Z → fresh st → fresh (step URL_origin env s st).
Proof.
  intros Hlim Hf. destruct s; simpl.
  - by apply fresh_call.
  - by apply fresh_iframe_onload.
  - by apply fresh_iframe_onerror.
  - apply (same_ids_fresh st); [|done]. unfold DOMContentLoaded.
    match goal with |- context [foldl ?f ?st0 ?l] =>
      destruct (same_ids_foldl f l st0) as (Hc & Hp & Hs & Hr); [done|] end.
    split; [exact Hc|]. split; [exact Hp|]. split; [exact Hs|exact Hr].
  - unfold channel_onmessage. by destruct (_ || _).
  - by apply fresh_window_onmessage.
Qed.

End FreshCalls.

(** ** A request on its way *)

Lemma resolve_unsettled id value st :
  id ∉ (settled st).*1 →
  settled (resolve id value st) = settled st ++ [(id, Resolved value)].
Proof.
  intros Hid. unfold resolve. rewrite (bool_decide_eq_false_2 _ Hid).
  match goal with |- context [foldl ?f ?st0 ?l] =>
    destruct (same_ids_foldl f l st0) as (_ & _ & -> & _); [|done] end.
  intros st' r. by case_bool_decide.
Qed.

Lemma reject_unsettled id error st :
  id ∉ (settled st).*1 →
  settled (reject id error st) = settled st ++ [(id, Rejected error)].
Proof. intros Hid. unfold reject. by rewrite (bool_decide_eq_false_2 _ Hid). Qed.

Lemma counter_settle id st st' :
  same_ids st st' ∨
  (requestIdCounter st' = requestIdCounter st ∧
   pendingRequests st' = pendingRequests st ∧
   (∃ s, settled st' = settled st ++ [(id, s)]) ∧
   reactions st' = reactions st) →
  requestIdCounter st' = requestIdCounter st ∧
  pendingRequests st' = pendingRequests st ∧
  reactions st' = reactions st ∧
  ∀ i, i ≠ id → i ∉ (settled st).*1 → i ∉ (settled st').*1.
Proof.
  intros [(Hc & Hp & Hs & Hr)|(Hc & Hp & (s & Hs) & Hr)]; rewrite Hc, Hp, Hs, Hr.
  - done.
  - repeat split. intros i Hne Hi. rewrite fmap_app, elem_of_app. simpl.
    rewrite list_elem_of_singleton. tauto.
Qed.

Lemma settle_reject id error st :
  requestIdCounter (reject id error st) = requestIdCounter st ∧
  pendingRequests (reject id error st) = pendingRequests st ∧
  reactions (reject id error st) = reactions st ∧
  ∀ i, i ≠ id → i ∉ (settled st).*1 → i ∉ (settled (reject id error st)).*1.
Proof.
  apply counter_settle. destruct (reject_settled id error st) as [H|(Hc & Hp & Hs & Hr)];
    [by left|right]. eauto 10.
Qed.

Lemma settle_resolve id value st :
  requestIdCounter (resolve id value st) = requestIdCounter st ∧
  pendingRequests (resolve id value st) = pendingRequests st ∧
  reactions (resolve id value st) = reactions st ∧
  ∀ i, i ≠ id → i ∉ (settled st).*1 → i ∉ (settled (resolve id value st)).*1.
Proof.
  apply counter_settle. destruct (resolve_settled id value st) as [H|(Hc & Hp & Hs & Hr)];
    [by left|right]. eauto 10.
Qed.

Lemma awaited_same id key st st' : same_ids st st' → awaited id key st → awaited id key st'.
Proof.
  intros (Hc & Hp & Hs & Hr) Ha. unfold awaited. by rewrite Hc, Hp, Hs, Hr.
Qed.

Lemma awaited_window_onmessage id key reply st :
  awaited id key st → awaited id key (window_onmessage reply st).
Proof.
  intros [Hc Ha]. unfold window_onmessage.
  destruct (_ || _); [done|]. destruct (_ && _); [|done].
  set (id' := res_requestId (data reply)).
  set (st' := match res_error (data reply) with Some _ => _ | None => _ end).
  assert (Hst' : requestIdCounter st' = requestIdCounter st ∧
                 pendingRequests st' = pendingRequests st ∧
                 reactions st' = reactions st ∧
                 ∀ i, i ≠ id' → i ∉ (settled st).*1 → i ∉ (settled st').*1).
  { unfold st'. destruct (res_error (data reply)); [apply settle_reject|apply settle_resolve]. }
  destruct Hst' as (Hc' & Hp' & Hr' & Hs').
  split; [simpl; by rewrite Hc'|].
  cbn [pendingRequests settled reactions set_pendingRequests].
  rewrite elem_of_pending_delete, Hp', Hr'. intros [Hne Hin].
  destruct (Ha Hin) as [Hs Hk]. split; [by apply Hs'|done].
Qed.

Lemma settle_foldl {A} (f : State → A → State) (l : list A) st :
  (∀ st a, requestIdCounter (f st a) = requestIdCounter st) →
  requestIdCounter (foldl f st l) = requestIdCounter st.
Proof.
  intros Hf. revert st. induction l as [|a l IH]; intros st; [done|].
  cbn [foldl]. by rewrite IH, Hf.
Qed.

Lemma awaited_iframe_onerror id key coreUrl st :
  awaited id key st → awaited id key (iframe_onerror coreUrl st).
Proof.
  intros [Hc _]. unfold iframe_onerror. cbv zeta. split.
  - cbn [requestIdCounter set_pendingRequests set_requestQueue].
    rewrite !settle_foldl; [done|..].
    + intros st' req. case_bool_decide; [|done]. eapply proj1, settle_reject.
    + intros st' i. eapply proj1, settle_reject.
  - cbn [pendingRequests set_pendingRequests]. intros Hin. by apply elem_of_nil in Hin.
Qed.

Section Awaited.
Variable URL_origin : string → Completion string.

Lemma awaited_sendRequest id key env message st :
  req_requestId message ≠ id →
  awaited id key st →
  awaited id key (sendRequest URL_origin env message st).2 ∧
  ∀ p key', (sendRequest URL_origin env message st).1 = Return p →
            awaited id key (then_cache p key' (sendRequest URL_origin env message st).2).
Proof.
  intros Hne Ha. unfold sendRequest.
  set (r := if bool_decide (coreState st = uninitialized) then _ else _).
  assert (Hr : same_ids st r.2).
  { unfold r. case_bool_decide; [apply same_ids_init|done]. }
  destruct r as [c st0]. simpl in Hr.
  assert (Ha0 : awaited id key st0) by by apply (awaited_same id key st).
  clear Hr Ha. destruct c as [[]|e]; [|by split].
  case_bool_decide.
  { split; [done|]. by intros p key' [= <-]. }
  set (st2 := if bool_decide (_ = ready) then _ else _).
  assert (H2 : requestIdCounter st2 = requestIdCounter st0 ∧
               (∀ i, i ∈ pendingRequests st2 ↔ i = req_requestId message ∨ i ∈ pendingRequests st0) ∧
               (∀ i, i ∈ (settled st2).*1 ↔ i ≠ req_requestId message ∧ i ∈ (settled st0).*1) ∧
               reactions st2 = filter (λ r, r.1 ≠ req_requestId message) (reactions st0)).
  { unfold st2. case_bool_decide; simpl.
    all: split; [done|]; split; [intros i; apply elem_of_pending_set|].
    all: split; [intros i; apply elem_of_fst_filter|done]. }
  destruct H2 as (Hc2 & Hp2 & Hs2 & Hr2). destruct Ha0 as [Hc0 Ha0].
  assert (Ha2 : awaited id key st2).
  { split; [by rewrite Hc2|]. rewrite Hp2. intros [->|Hin]; [done|].
    destruct (Ha0 Hin) as [Hs Hk]. split.
    - rewrite Hs2. tauto.
    - rewrite Hr2. by apply list_elem_of_filter. }
  split; [done|]. intros p key' [= <-]. destruct Ha2 as [Hc Ha2]. split; [done|].
  cbn [then_cache pendingRequests settled reactions set_reactions].
  intros Hin. destruct (Ha2 Hin) as [Hs Hk]. split; [done|].
  apply elem_of_app. by left.
Qed.

Lemma awaited_next id key st :
  awaited id key st →
  awaited id key (set_requestIdCounter (increment (requestIdCounter st)) st).
Proof.
  intros [Hc Ha]. split; [|done]. simpl.
  pose proof (increment_le (requestIdCounter st)). lia.
Qed.

Lemma awaited_call id key env op st :
  awaited id key st → awaited id key (call URL_origin env op st).
Proof.
  intros Ha. assert (Hne : requestIdCounter st ≠ id) by (destruct Ha; lia).
  destruct op; simpl.
  - apply (awaited_same id key st); [apply same_ids_init|done].
  - unfold setItem. apply awaited_sendRequest; [done|].
    apply (awaited_same id key (set_requestIdCounter (increment (requestIdCounter st)) st));
      [done|by apply awaited_next].
  - unfold getItem. destruct (cache st !! key0); [done|].
    match goal with |- context [sendRequest _ _ ?m ?s] =>
      destruct (awaited_sendRequest id key env m s) as [Ha1 Ha2];
      [done|by apply awaited_next|];
      destruct (sendRequest URL_origin env m s) as [[p|e] st1] end; [|done].
    by apply Ha2.
  - unfold removeItem. apply awaited_sendRequest; [done|].
    apply (awaited_same id key (set_requestIdCounter (increment (requestIdCounter st)) st));
      [done|by apply awaited_next].
  - unfold clear. apply awaited_sendRequest; [done|].
    apply (awaited_same id key (set_requestIdCounter (increment (requestIdCounter st)) st));
      [done|by apply awaited_next].
  - unfold keys. apply awaited_sendRequest; [done|]. by apply awaited_next.
Qed.

Lemma awaited_step id key env s st :
  awaited id key st → awaited id key (step URL_origin env s st).
Proof.
  intros Ha. destruct s; simpl.
  - by apply awaited_call.
  - apply (awaited_same id key st); [|done]. unfold iframe_onload, processRequestQueue.
    match goal with |- context [foldl ?f ?st0 ?l] =>
      destruct (same_ids_foldl f l st0) as (Hc & Hp & Hs & Hr); [done|] end.
    split; [exact Hc|]. split; [exact Hp|]. split; [exact Hs|exact Hr].
  - by apply awaited_iframe_onerror.
  - apply (awaited_same id key st); [|done]. unfold DOMContentLoaded.
    match goal with |- context [foldl ?f ?st0 ?l] =>
      destruct (same_ids_foldl f l st0) as (Hc & Hp & Hs & Hr); [done|] end.
    split; [exact Hc|]. split; [exact Hp|]. split; [exact Hs|exact Hr].
  - unfold channel_onmessage. by destruct (_ || _).
  - by apply awaited_window_onmessage.
Qed.

Lemma awaited_trace id key (trace : list (Env * Step)) st :
  awaited id key st →
  awaited id key (foldl (λ st es, step URL_origin es.1 es.2 st) st trace).
Proof.
  revert st. induction trace as [|[env s] trace IH]; intros st Ha; [done|].
  cbn [foldl]. by apply IH, awaited_step.
Qed.

(** The callbacks of a promise, run on its value: a key that has one
    holds the value afterwards. *)
Lemma reactions_keep (id : Z) (key : string) (value : Value) (l : list (Z * string)) st :
  cache st !! key = Some value →
  cache (foldl (λ st r, if bool_decide (r.1 = id)
                        then set_cache (<[r.2 := value]> (cache st)) st else st) st l) !! key
  = Some value.
Proof.
  revert st. induction l as [|[i k] l IH]; intros st Hk; [done|].
  cbn [foldl]. apply IH. case_bool_decide; [|done]. simpl.
  destruct (decide (k = key)) as [->|Hne]; [apply lookup_insert_eq|by rewrite lookup_insert_ne].
Qed.

Lemma reactions_run (id : Z) (key : string) (value : Value) (l : list (Z * string)) st :
  (id, key) ∈ l →
  cache (foldl (λ st r, if bool_decide (r.1 = id)
                        then set_cache (<[r.2 := value]> (cache st)) st else st) st l) !! key
  = Some value.
Proof.
  revert st. induction l as [|[i k] l IH]; intros st Hin; [by apply elem_of_nil in Hin|].
  apply elem_of_cons in Hin as [[= <- <-]|Hin]; cbn [foldl].
  - apply reactions_keep. simpl. rewrite bool_decide_eq_true_2 by done. simpl.
    apply lookup_insert_eq.
  - by apply IH.
Qed.

(** C10: a key that is in the cache is answered from it: the promise is
    already resolved with the cached value and the state is untouched (no
    id is taken, nothing is posted, queued or left pending).  For a key
    that is not in the cache, a proxy that can take requests takes the next
    id and issues [{action: 'getItem', key, requestId}]: posted to the
    core when ready, queued until the core is ready otherwise, pending in
    both cases.  When the response to it carries a value, null included,
    that value is put in the cache under the key, and the next getItem is
    answered from the cache: so it is when the response is the next thing
    that happens, and so it is, for an id below [2^53], after whatever the
    module does in between (the iframe loads and the queue is posted,
    other calls, other responses, broadcasts), as long as the request is
    still pending when its response is accepted. *)
Theorem getItem_cache env key st :
  (∀ value, cache st !! key = Some value →
            getItem URL_origin env key st = (Return (Settled (Resolved value)), st)) ∧
  (cache st !! key = None →
   operational URL_origin env st →
   fresh st →
   let requestId := requestIdCounter st in
   let message := {| req_action := "getItem"; req_key := key; req_value := VUndefined;
                     req_options := None; req_requestId := requestId |} in
   ∃ st1,
     getItem URL_origin env key st = (Return (Pending requestId), st1) ∧
     requestId ∈ pendingRequests st1 ∧
     cache st1 = cache st ∧
     (coreState st = ready →
        posted st1 = posted st ++ [{| to_window := coreWindow st;
                                      to_origin := coreOrigin st;
                                      to_message := message |}] ∧
        requestQueue st1 = requestQueue st) ∧
     (coreState st ≠ ready →
        requestQueue st1 = requestQueue st ++ [message] ∧
        posted st1 = posted st) ∧
     (∀ (reply : MessageEvent Response) value,
        accepts st1 reply →
        data reply = {| res_action := "response"; res_requestId := requestId;
                        res_value := value; res_error := None |} →
        let st2 := window_onmessage reply st1 in
        cache st2 = <[key := value]> (cache st) ∧
        settled st2 = settled st ++ [(requestId, Resolved value)] ∧
        getItem URL_origin env key st2 = (Return (Settled (Resolved value)), st2)) ∧
     ((requestId < 2 ^ 53)%Z →
      ∀ (trace : list (Env * Step)) (reply : MessageEvent Response) value,
        let st1' := foldl (λ st es, step URL_origin es.1 es.2 st) st1 trace in
        requestId ∈ pendingRequests st1' →
        accepts st1' reply →
        data reply = {| res_action := "response"; res_requestId := requestId;
                        res_value := value; res_error := None |} →
        let st2 := window_onmessage reply st1' in
        cache st2 !! key = Some value ∧
        (requestId, Resolved value) ∈ settled st2 ∧
        getItem URL_origin env key st2 = (Return (Settled (Resolved value)), st2))).
Proof.
  split.
  { intros value Hhit. unfold getItem. by rewrite Hhit. }
  intros Hmiss Hst Hfresh requestId message.
  assert (Hn1 : requestId ∉ (settled st).*1).
  { intros Hin. assert (requestId < requestId)%Z by (apply Hfresh; tauto). lia. }
  assert (Hn2 : requestId ∉ (reactions st).*1).
  { intros Hin. assert (requestId < requestId)%Z by (apply Hfresh; tauto). lia. }
  assert (Hin : ∀ l, requestId ∈ pending_set requestId l)
    by (intros l; apply elem_of_pending_set; by left).
  (* the response, whenever it is accepted *)
  assert (Hlate : ∀ st1, awaited requestId key st1 →
    ∀ (trace : list (Env * Step)) (reply : MessageEvent Response) value,
      let st1' := foldl (λ st es, step URL_origin es.1 es.2 st) st1 trace in
      requestId ∈ pendingRequests st1' →
      accepts st1' reply →
      data reply = {| res_action := "response"; res_requestId := requestId;
                      res_value := value; res_error := None |} →
      let st2 := window_onmessage reply st1' in
      cache st2 !! key = Some value ∧
      (requestId, Resolved value) ∈ settled st2 ∧
      getItem URL_origin env key st2 = (Return (Settled (Resolved value)), st2)).
  { intros st1 Haw trace reply value st1' Hpend Hacc Hdata st2.
    destruct (awaited_trace requestId key trace st1 Haw) as [_ Ha].
    destruct (Ha Hpend) as [Hs Hk]. fold st1' in Hs, Hk.
    assert (Hcache : cache st2 !! key = Some value).
    { unfold st2. rewrite response_settles; [|done|by rewrite Hdata|by rewrite Hdata].
      rewrite Hdata. cbn [res_error res_value res_requestId cache set_pendingRequests].
      unfold resolve. rewrite (bool_decide_eq_false_2 _ Hs). by apply reactions_run. }
    split; [done|]. split.
    - unfold st2. rewrite response_settles; [|done|by rewrite Hdata|by rewrite Hdata].
      rewrite Hdata. cbn [res_error res_value res_requestId settled set_pendingRequests].
      rewrite resolve_unsettled by done. apply elem_of_app. right. by left.
    - unfold getItem. by rewrite Hcache. }
  assert (Hnew : ∀ st0, settled st0 = settled st → reactions st0 = reactions st →
                        new_promise requestId st0 = st0).
  { intros st0 Hs Hr. apply new_promise_unused; by rewrite ?Hs, ?Hr. }
  unfold getItem. rewrite Hmiss. fold requestId. fold message.
  destruct Hst as [Hst | [Hst | (Hst & Hw & Hd & o & Ho)]].
  - rewrite sendRequest_ready by done. cbn [then_cache req_requestId message].
    rewrite Hnew by done.
    eexists. split; [reflexivity|].
    split; [apply Hin|]. split; [done|].
    split; [done|]. split; [by intros []|]. split.
    + intros reply value Hacc Hdata.
      rewrite response_settles; [|done|by rewrite Hdata|by rewrite Hdata; apply Hin].
      rewrite Hdata. cbn [res_error res_value res_requestId].
      unfold resolve. simpl.
      rewrite (bool_decide_eq_false_2 _ Hn1).
      rewrite foldl_app, (reactions_skip _ _ _ _ Hn2). simpl.
      rewrite (bool_decide_eq_true_2 (requestId = requestId) eq_refl). simpl.
      split; [done|]. split; [done|].
      unfold getItem. simpl. by rewrite lookup_insert_eq.
    + intros Hlim. apply Hlate. split.
      * simpl. by apply increment_lt.
      * intros _. simpl. split; [done|]. apply elem_of_app. right. by left.
  - rewrite sendRequest_initializing by done. cbn [then_cache req_requestId message].
    rewrite Hnew by done.
    eexists. split; [reflexivity|].
    split; [apply Hin|]. split; [done|].
    split; [by rewrite Hst|]. split; [done|]. split.
    + intros reply value (Hready & _) _. simpl in Hready. congruence.
    + intros Hlim. apply Hlate. split.
      * simpl. by apply increment_lt.
      * intros _. simpl. split; [done|]. apply elem_of_app. right. by left.
  - destruct (sendRequest_uninitialized URL_origin env message
                (set_requestIdCounter (increment requestId) st) o Hst Hw Hd Ho)
      as (st0 & -> & Hst0 & Hq & Hp & Hposted & Hcache & Hr & Hs & Hc0).
    cbn [then_cache req_requestId message].
    rewrite Hnew by done. simpl in Hc0.
    eexists. split; [reflexivity|]. simpl.
    split; [apply Hin|]. split; [done|].
    split; [by rewrite Hst|]. split; [by rewrite Hq, Hposted|]. split.
    + intros reply value (Hready & _) _. simpl in Hready. congruence.
    + intros Hlim. apply Hlate. split.
      * simpl. rewrite Hc0. by apply increment_lt.
      * intros _. simpl. rewrite Hs, Hr. split; [done|]. apply elem_of_app. right. by left.
Qed.
End Awaited.

(** ** The core's report of a failure and its effect on the client *)

(** C7, amended: when the operation a request asks for throws, a Durable
    Store fault included, the listener catches the exception and posts to
    the sender a response with the request's id whose [error] holds the
    exception's own name and message (it is not wrapped or renamed); the
    listener itself returns.  At a client that accepts the response and
    has that id pending, exactly this promise is rejected, with an error
    of that name and message: the id leaves the pending set, the other
    pending requests stay, and the cache is untouched. *)
Theorem fault_reported fault now (event : MessageEvent Request) win e w w' :
  source event = Some win →
  origin event ≠ "" →
  Core.dispatch fault now event w = (Throw e, w') →
  let requestId := req_requestId (data event) in
  let response := {| res_action := "response"; res_requestId := requestId;
                     res_value := VUndefined; res_error := Some e |} in
  Core.listener fault now event w
  = (Some {| Core.target := win; Core.targetOrigin := origin event;
             Core.posted_message := response |}, w') ∧
  (∀ st (reply : MessageEvent Response),
     accepts st reply →
     data reply = response →
     requestId ∈ pendingRequests st →
     requestId ∉ (settled st).*1 →
     let st' := window_onmessage reply st in
     settled st' = settled st ++ [(requestId, Rejected e)] ∧
     (∀ id, id ∈ pendingRequests st' ↔ id ≠ requestId ∧ id ∈ pendingRequests st) ∧
     cache st' = cache st).
Proof.
  intros Hsrc Horigin Hthrow requestId response. split.
  - unfold Core.listener. rewrite Hsrc, Hthrow.
    apply String.eqb_neq in Horigin. rewrite Horigin. by destruct e.
  - intros st reply Hacc Hdata Hpending Hunsettled st'. unfold st'.
    rewrite response_settles; [|done|by rewrite Hdata|by rewrite Hdata].
    rewrite Hdata. simpl. unfold reject.
    rewrite bool_decide_eq_false_2 by done. simpl.
    split; [done|]. split; [|done].
    intros id. apply elem_of_pending_delete.
Qed.

(** ** The scenarios, evaluated *)

Lemma ready_state_fresh : fresh ready_state.
Proof.
  intros id [Hid|[Hid|Hid]]; by apply elem_of_nil in Hid.
Defined.

Lemma initializing_state_fresh : fresh initializing_state.
Proof.
  intros id [Hid|[Hid|Hid]]; by apply elem_of_nil in Hid.
Defined.

(** What the client of [https://a] posted for its first request is the
    data of [store_request]. *)
Lemma waiting_state_posted :
  to_message <$> posted waiting_state !! 0%nat = Some (data store_request) ∧
  pendingRequests waiting_state = [0; 1]%Z ∧
  settled waiting_state = [].
Proof. repeat split. Qed.

(** Counterexample to C7: the store is full, the put of the draft is
    rejected with a QuotaExceededError, and that is the name the response
    carries; nothing is called StorageBackendError. *)
Lemma fault_not_wrapped :
  Core.dispatch full 9 store_request populated = (Throw quota, populated) ∧
  ∃ posted,
    Core.listener full 9 store_request populated = (Some posted, populated) ∧
    res_requestId (Core.posted_message posted) = 0%Z ∧
    name <$> res_error (Core.posted_message posted) = Some "QuotaExceededError" ∧
    name <$> res_error (Core.posted_message posted) ≠ Some "StorageBackendError".
Proof.
  split; [reflexivity|]. eexists. split; [reflexivity|].
  split; [reflexivity|]. split; [reflexivity|]. discriminate.
Qed.

(** Witness of C7 as amended: the rejected put, reported to the client
    that waits for requests 0 and 1. *)
Lemma fault_reported_witness :
  let response := {| res_action := "response"; res_requestId := 0;
                     res_value := VUndefined; res_error := Some quota |} in
  Core.dispatch full 9 store_request populated = (Throw quota, populated) ∧
  Core.listener full 9 store_request populated
  = (Some {| Core.target := 3%nat; Core.targetOrigin := "https://a";
             Core.posted_message := response |}, populated) ∧
  settled (window_onmessage (from_core response) waiting_state) = [(0%Z, Rejected quota)] ∧
  (∀ id, id ∈ pendingRequests (window_onmessage (from_core response) waiting_state)
         ↔ id ≠ 0%Z ∧ id ∈ [0; 1]%Z).
Proof.
  intros response.
  destruct (fault_reported full 9 store_request 3%nat quota populated populated)
    as [Hlistener Hclient].
  - reflexivity.
  - discriminate.
  - reflexivity.
  - split; [reflexivity|]. split; [exact Hlistener|].
    destruct (Hclient waiting_state (from_core response)) as (Hs & Hp & _).
    + repeat split.
    + reflexivity.
    + apply list_elem_of_In. simpl. tauto.
    + simpl. apply not_elem_of_nil.
    + split; [exact Hs|exact Hp].
Defined.

(** Counterexample to C8: the iframe failed to load, the state is
    [failed]; a call of [init] makes it [initializing]. *)
Lemma init_leaves_failed :
  coreState failed_state = failed ∧
  coreState (call URL_origin browser (Init no_config) failed_state) = initializing ∧
  coreState (call URL_origin browser (Init no_config) failed_state) ≠ failed.
Proof. split; [reflexivity|]. split; [reflexivity|discriminate]. Qed.

(** Witness of C8 as amended. *)
Lemma failed_left_only_by_init_witness :
  let ops := [GetItem "profile"; SetItem "draft" (VStr "d") {| opt_acl := None; opt_ttl := None |};
              RemoveItem "draft"; Clear; Keys] in
  coreState failed_state = failed ∧
  coreState (foldl (λ st op, call URL_origin browser op st) failed_state ops) = failed ∧
  coreState (call URL_origin browser (Init no_config) failed_state) = initializing.
Proof.
  intros ops.
  destruct (failed_left_only_by_init URL_origin browser failed_state) as [Hdata Hinit].
  - reflexivity.
  - split; [reflexivity|]. split.
    + apply (Hdata ops). reflexivity.
    + exact (Hinit no_config).
Defined.

(** Witness of C10.  The ready client reads the profile, which the core
    reports as null; the null is cached and the second read is answered
    from the cache.  The client that is still initializing does the same:
    its request waits in the queue, the iframe loads, the request is
    posted, and the response fills the cache. *)
Lemma getItem_cache_witness :
  let message := {| req_action := "getItem"; req_key := "profile"; req_value := VUndefined;
                    req_options := None; req_requestId := 0 |} in
  let reply := from_core {| res_action := "response"; res_requestId := 0;
                            res_value := VNull; res_error := None |} in
  (cache ready_state !! "profile" = None ∧
   coreState ready_state = ready ∧
   ∃ st1,
     getItem URL_origin browser "profile" ready_state = (Return (Pending 0), st1) ∧
     to_message <$> posted st1 = [message] ∧
     let st2 := window_onmessage reply st1 in
     cache st2 !! "profile" = Some VNull ∧
     getItem URL_origin browser "profile" st2 = (Return (Settled (Resolved VNull)), st2)) ∧
  (cache initializing_state !! "profile" = None ∧
   coreState initializing_state = initializing ∧
   ∃ st1,
     getItem URL_origin browser "profile" initializing_state = (Return (Pending 0), st1) ∧
     requestQueue st1 = [message] ∧ posted st1 = [] ∧
     let st1' := iframe_onload 0 st1 in
     to_message <$> posted st1' = [message] ∧
     let st2 := window_onmessage reply st1' in
     cache st2 !! "profile" = Some VNull ∧
     getItem URL_origin browser "profile" st2 = (Return (Settled (Resolved VNull)), st2)).
Proof.
  intros message reply. split.
  - split; [reflexivity|]. split; [reflexivity|].
    destruct (getItem_cache URL_origin browser "profile" ready_state) as [Hhit Hmiss].
    destruct Hmiss as (st1 & Hrun & _ & _ & Hposted & _ & Hreply & _).
    + reflexivity.
    + left. reflexivity.
    + exact ready_state_fresh.
    + exists st1. split; [exact Hrun|].
      destruct (Hposted eq_refl) as [Hp _]. split; [rewrite Hp; reflexivity|].
      assert (Hst1 : accepts st1 reply).
      { assert (Heq : st1 = (getItem URL_origin browser "profile" ready_state).2)
          by (rewrite Hrun; reflexivity).
        rewrite Heq. repeat split. }
      destruct (Hreply reply VNull Hst1 eq_refl) as (Hcache & _ & Hagain).
      split; [|exact Hagain]. rewrite Hcache. reflexivity.
  - split; [reflexivity|]. split; [reflexivity|].
    destruct (getItem_cache URL_origin browser "profile" initializing_state) as [Hhit Hmiss].
    destruct Hmiss as (st1 & Hrun & _ & _ & _ & Hqueued & _ & Hlate).
    + reflexivity.
    + right. left. reflexivity.
    + exact initializing_state_fresh.
    + exists st1. split; [exact Hrun|].
      destruct Hqueued as [Hq Hp]; [discriminate|].
      split; [exact Hq|]. split; [exact Hp|].
      assert (Heq : st1 = (getItem URL_origin browser "profile" initializing_state).2)
        by (rewrite Hrun; reflexivity).
      split; [rewrite Heq; reflexivity|].
      destruct (Hlate eq_refl [(browser, Loaded 0%nat)] reply VNull) as (Hcache & _ & Hagain).
      * rewrite Heq. apply list_elem_of_In. vm_compute. tauto.
      * rewrite Heq. repeat split.
      * reflexivity.
      * split; [exact Hcache|exact Hagain].
Defined.

End ClientProps.

(** * Further properties of the storage core *)

Module CoreExtra.
Import Core.
Import Scenario.
Import CoreProps.

(** X1: a get of a key that holds no item returns null and leaves the
    world as it was, whoever asks. *)
Theorem dbGet_absent fault now key origin w :
  fault OpOpen = None →
  fault (OpGet key) = None →
  db w !! key = None →
  dbGet fault now key origin w = (Return VNull, w).
Proof.
  intros Hopen Hget Hk.
  unfold dbGet, dbPromise, db_get, transaction, store_get, request, bind, ret.
  by rewrite Hopen, Hget, Hk.
Qed.

Lemma dbGet_absent_witness :
  db populated !! "draft" = None ∧
  dbGet no_fault 7 "draft" "https://b" populated = (Return VNull, populated).
Proof.
  split; [reflexivity|].
  apply (dbGet_absent no_fault 7 "draft" "https://b" populated); reflexivity.
Defined.

(** X2: a get of an item that has not expired changes nothing: it returns
    the value to an origin the read list admits and throws the
    read-permission error to any other. *)
Theorem dbGet_live fault now key origin w item :
  fault OpOpen = None →
  fault (OpGet key) = None →
  db w !! key = Some item →
  expired now item = false →
  dbGet fault now key origin w
  = (if hasPermission (read (acl item)) origin
     then Return (value item)
     else Throw (Error (permission_message origin "read" key)), w).
Proof.
  intros Hopen Hget Hk Hlive.
  unfold dbGet, dbPromise, db_get, transaction, store_get, request, bind, ret, throw.
  rewrite Hopen, Hget, Hk, Hlive. by destruct (hasPermission _ _).
Qed.

(** [https://c] stores a secret that only [https://d] may read. *)
Lemma dbGet_live_witness :
  let w := (dbSet no_fault 0 "secret" (VStr "s")
              (Some {| opt_acl := Some (Arrays (Some ["https://d"]) None);
                       opt_ttl := Some (Number.of_Z 60) |}) "https://c" populated).2 in
  dbGet no_fault 59000 "secret" "https://d" w = (Return (VStr "s"), w) ∧
  dbGet no_fault 59000 "secret" "https://c" w
  = (Throw (Error "Origin 'https://c' does not have read permission for key 'secret'."), w).
Proof.
  intros w.
  pose (item := {| key := "secret"; value := VStr "s";
                   acl := {| read := ["https://d"]; write := ["https://c"] |};
                   expiresAt := Some (Number.of_Z 60000) |}).
  split.
  - apply (dbGet_live no_fault 59000 "secret" "https://d" w item); reflexivity.
  - apply (dbGet_live no_fault 59000 "secret" "https://c" w item); reflexivity.
Defined.

(** X3: a remove of a stored item by an origin its write list admits
    deletes that item alone and posts one [{key, remove}] event; by any
    other origin it throws the write-permission error and changes
    nothing.  Expiry plays no part. *)
Theorem dbRemove_present fault key origin w item :
  healthy fault →
  db w !! key = Some item →
  dbRemove fault key origin w
  = if hasPermission (write (acl item)) origin
    then (Return tt,
          {| db := delete key (db w);
             channel := channel w ++ [{| change_key := key; change_action := "remove" |}] |})
    else (Throw (Error (permission_message origin "write" key)), w).
Proof.
  intros H Hk. run H. rewrite Hk.
  destruct (hasPermission _ _); simpl; [|done]. by run H.
Qed.

Lemma dbRemove_present_witness :
  db populated !! "notes" = Some notes ∧
  dbRemove no_fault "notes" "https://b" populated
  = (Return tt,
     {| db := delete "notes" (db populated);
        channel := channel populated
                   ++ [{| change_key := "notes"; change_action := "remove" |}] |}) ∧
  dbRemove no_fault "notes" "https://a" populated
  = (Throw (Error "Origin 'https://a' does not have write permission for key 'notes'."),
     populated).
Proof.
  split; [reflexivity|]. split.
  - apply (dbRemove_present no_fault "notes" "https://b" populated notes);
      [intros op|]; reflexivity.
  - apply (dbRemove_present no_fault "notes" "https://a" populated notes);
      [intros op|]; reflexivity.
Defined.

(** A list that grows admits whom it admitted. *)
Lemma hasPermission_app (l l' : list string) (origin : string) :
  hasPermission l origin = true → hasPermission (l ++ l') origin = true.
Proof.
  unfold hasPermission, includes. rewrite !orb_true_iff, !bool_decide_eq_true, !elem_of_app.
  tauto.
Qed.

(** What a set that is allowed stores. *)
Lemma dbSet_allowed fault now key val (options : option Options) origin w :
  healthy fault →
  (∀ item, db w !! key = Some item → hasPermission (write (acl item)) origin = true) →
  ∃ item,
    dbSet fault now key val options origin w
    = (Return tt, {| db := <[key := item]> (db w);
                     channel := channel w
                                ++ [{| change_key := key; change_action := "set" |}] |}) ∧
    Core.key item = key ∧ value item = val ∧
    (∀ reader, hasPermission (default ["*"] ((options ≫= opt_acl) ≫= opt_read)) reader = true →
               hasPermission (read (acl item)) reader = true) ∧
    (db w !! key = None → hasPermission (write (acl item)) origin = true) ∧
    expiresAt item = match options ≫= opt_ttl with
                     | Some ttl =>
                         if Number.truthy ttl
                         then Some (Number.add (Number.of_Z now)
                                               (Number.mul ttl (Number.of_Z 1000)))
                         else None
                     | None => None
                     end.
Proof.
  intros H Hw. run H. destruct (db w !! key) as [existing|] eqn:Hk.
  - rewrite (Hw existing eq_refl). simpl. run H.
    eexists. split; [reflexivity|]. simpl. by repeat split.
  - set (requested := default [origin] ((options ≫= opt_acl) ≫= opt_write)).
    destruct (includes requested origin) eqn:Hin; simpl; run H.
    all: eexists; split; [reflexivity|]; simpl.
    all: split; [done|]; split; [done|]; split; [|split; [|done]].
    + done.
    + intros _. unfold hasPermission. fold requested. rewrite Hin. apply orb_true_r.
    + intros reader Hr. destruct (same_array _); [|done]. by apply hasPermission_app.
    + intros _. unfold hasPermission, includes.
      rewrite (bool_decide_eq_true_2 (origin ∈ requested ++ [origin]));
        [apply orb_true_r|].
      apply elem_of_app. right. apply list_elem_of_here.
Qed.

(** X4: the origin that creates an item can always take it back: a set
    on a key that holds nothing, whatever ACL it asks for, followed by a
    remove by the same origin, succeeds and leaves the store as it was
    before the set; the channel has seen a set and a remove. *)
Theorem dbSet_then_dbRemove fault now key val (options : option Options) origin w :
  healthy fault →
  db w !! key = None →
  ∃ w1 w2,
    dbSet fault now key val options origin w = (Return tt, w1) ∧
    dbRemove fault key origin w1 = (Return tt, w2) ∧
    db w2 = db w ∧
    channel w2 = channel w ++ [{| change_key := key; change_action := "set" |};
                               {| change_key := key; change_action := "remove" |}].
Proof.
  intros H Hk.
  destruct (dbSet_allowed fault now key val options origin w H)
    as (item & Hset & _ & _ & _ & Hcan & _); [by rewrite Hk|].
  rewrite Hset. eexists _, _. split; [reflexivity|].
  run H. rewrite lookup_insert_eq, (Hcan Hk). simpl. run H.
  split; [reflexivity|]. simpl. split.
  - by rewrite delete_insert_eq, delete_id.
  - by rewrite <- app_assoc.
Qed.

Lemma dbSet_then_dbRemove_witness :
  ∃ w1 w2,
    dbSet no_fault 3 "draft" (VStr "d")
      (Some {| opt_acl := Some (Arrays None (Some ["https://b"])); opt_ttl := None |})
      "https://a" populated = (Return tt, w1) ∧
    dbRemove no_fault "draft" "https://a" w1 = (Return tt, w2) ∧
    db w2 = db populated.
Proof.
  destruct (dbSet_then_dbRemove no_fault 3 "draft" (VStr "d")
              (Some {| opt_acl := Some (Arrays None (Some ["https://b"])); opt_ttl := None |})
              "https://a" populated)
    as (w1 & w2 & H1 & H2 & H3 & _).
  - intros op. reflexivity.
  - reflexivity.
  - exists w1, w2. split; [exact H1|]. split; [exact H2|exact H3].
Defined.



(** X6: a lifetime runs out: after an allowed set with a positive [ttl]
    (any double above zero, a fraction of a second included) at a clock
    reading that is not negative, a get later than [now + ttl * 1000] (as
    doubles compare), by any origin, returns null, leaves no item under
    the key and posts the removal after the set. *)
Theorem dbSet_then_expiry fault now now' key val (options : option Options) ttl origin reader w :
  healthy fault →
  (∀ item, db w !! key = Some item → hasPermission (write (acl item)) origin = true) →
  options ≫= opt_ttl = Some ttl →
  Number.valid ttl = true →
  Number.ltb (Number.of_Z 0) ttl = true →
  (0 ≤ now)%Z →
  Number.ltb (Number.add (Number.of_Z now) (Number.mul ttl (Number.of_Z 1000)))
             (Number.of_Z now') = true →
  ∃ w1 w2,
    dbSet fault now key val options origin w = (Return tt, w1) ∧
    dbGet fault now' key reader w1 = (Return VNull, w2) ∧
    db w2 !! key = None ∧
    channel w2 = channel w ++ [{| change_key := key; change_action := "set" |};
                               {| change_key := key; change_action := "remove" |}].
Proof.
  intros H Hw Hopt Hvalid Httl Hnow Hlate.
  destruct (dbSet_allowed fault now key val options origin w H Hw)
    as (item & Hset & _ & _ & _ & _ & Hexp).
  rewrite Hset. eexists _, _. split; [reflexivity|].
  rewrite Hopt in Hexp.
  assert (Htruthy : Number.truthy ttl = true) by by destruct ttl as [| [] | |].
  rewrite Htruthy in Hexp.
  rewrite (dbGet_evicts fault now' key reader _ item H).
  - split; [reflexivity|]. simpl. split; [apply lookup_delete_eq|].
    by rewrite <- app_assoc.
  - simpl. apply lookup_insert_eq.
  - unfold expired. rewrite Hexp, Hlate.
    by rewrite (NumberProps.signed_truthy false _ (expiry_positive now ttl Hnow Hvalid Httl)).
Qed.

(** A token that lives a millisecond ([ttl: 0.001]) is gone two
    milliseconds later. *)
Lemma dbSet_then_expiry_witness :
  ∃ w1 w2,
    dbSet no_fault 1700000000000 "token" (VStr "t")
      (Some {| opt_acl := None; opt_ttl := Some millisecond |})
      "https://a" populated = (Return tt, w1) ∧
    dbGet no_fault 1700000000002 "token" "https://a" w1 = (Return VNull, w2) ∧
    db w2 !! "token" = None.
Proof.
  destruct (dbSet_then_expiry no_fault 1700000000000 1700000000002 "token" (VStr "t")
              (Some {| opt_acl := None; opt_ttl := Some millisecond |}) millisecond
              "https://a" "https://a" populated) as (w1 & w2 & H1 & H2 & H3 & _).
  - intros op. reflexivity.
  - intros item Hitem. discriminate Hitem.
  - reflexivity.
  - reflexivity.
  - reflexivity.
  - lia.
  - reflexivity.
  - exists w1, w2. split; [exact H1|]. split; [exact H2|exact H3].
Defined.

(** ** Clearing twice *)

Lemma dbClear_run fault origin w :
  healthy fault →
  let deleted := filter (λ item, hasPermission (write (acl item)) origin = true)
                        (map_to_list (db w)).*2 in
  dbClear fault origin w
  = (Return tt, {| db := foldl (λ t item, delete (key item) t) (db w) deleted;
                   channel := channel w ++ (removal <$> deleted) |}).
Proof.
  intros H deleted. run H. rewrite clear_loop_spec. by rewrite (tx_done_ok _ H).
Qed.

(** X7: after a clear, the origin may write nothing that is stored, and
    a second clear by it changes nothing and posts nothing. *)
Theorem dbClear_twice fault origin w :
  healthy fault →
  keyed (db w) →
  ∃ w1,
    dbClear fault origin w = (Return tt, w1) ∧
    (∀ k item, db w1 !! k = Some item → hasPermission (write (acl item)) origin = false) ∧
    dbClear fault origin w1 = (Return tt, w1).
Proof.
  intros H Hm. rewrite (dbClear_run fault origin w H). eexists. split; [reflexivity|].
  set (P := λ item, hasPermission (write (acl item)) origin = true).
  set (w1 := {| db := _; channel := _ |}).
  assert (Hnone : ∀ k item, db w1 !! k = Some item →
                            hasPermission (write (acl item)) origin = false).
  { intros k item. unfold w1. simpl. rewrite lookup_foldl_delete.
    case_bool_decide as Hin; [done|]. intros Hk.
    destruct (hasPermission (write (acl item)) origin) eqn:Hp; [|done].
    destruct Hin. apply (elem_of_scan (db w) P k Hm). eauto. }
  split; [exact Hnone|].
  rewrite (dbClear_run fault origin w1 H).
  assert (Hempty : filter P (map_to_list (db w1)).*2 = []).
  { apply elem_of_nil_inv. intros item Hin.
    apply list_elem_of_filter in Hin as [HP Hin].
    apply list_elem_of_fmap in Hin as ([k item'] & -> & Hin).
    apply elem_of_map_to_list in Hin. simpl in HP.
    unfold P in HP. rewrite (Hnone k item' Hin) in HP. discriminate HP. }
  fold P. rewrite Hempty. simpl. rewrite app_nil_r. reflexivity.
Qed.

Lemma dbClear_twice_witness :
  ∃ w1,
    dbClear no_fault "https://a" populated = (Return tt, w1) ∧
    w1 ≠ populated ∧
    dbClear no_fault "https://a" w1 = (Return tt, w1).
Proof.
  destruct (dbClear_twice no_fault "https://a" populated) as (w1 & H1 & _ & H2).
  - intros op. reflexivity.
  - exact populated_keyed.
  - exists w1. split; [exact H1|]. split; [|exact H2].
    intros ->. vm_compute in H1. discriminate H1.
Defined.

(** ** No silent change *)

Lemma announced_refl w : announced w w.
Proof. exists []. split; [by rewrite app_nil_r|]. by intros k []. Qed.

Lemma announced_insert w k item action :
  announced w {| db := <[k := item]> (db w);
                 channel := channel w ++ [{| change_key := k; change_action := action |}] |}.
Proof.
  eexists. split; [reflexivity|]. simpl. intros k' Hne.
  destruct (decide (k = k')) as [->|Hk]; [|by rewrite lookup_insert_ne in Hne].
  eexists. split; [apply list_elem_of_here|done].
Qed.

Lemma announced_delete w k action :
  announced w {| db := delete k (db w);
                 channel := channel w ++ [{| change_key := k; change_action := action |}] |}.
Proof.
  eexists. split; [reflexivity|]. simpl. intros k' Hne.
  destruct (decide (k = k')) as [->|Hk]; [|by rewrite lookup_delete_ne in Hne].
  eexists. split; [apply list_elem_of_here|done].
Qed.

Lemma announced_clear w (deleted : list StorageItem) :
  announced w {| db := foldl (λ t item, delete (key item) t) (db w) deleted;
                 channel := channel w ++ (removal <$> deleted) |}.
Proof.
  eexists. split; [reflexivity|]. simpl. intros k. rewrite lookup_foldl_delete.
  case_bool_decide as Hin; [|done]. intros _.
  apply list_elem_of_fmap in Hin as (item & -> & Hin).
  exists (removal item). split; [|done]. apply list_elem_of_fmap. eauto.
Qed.

Lemma announced_unposted w events :
  announced w {| db := db w; channel := channel w ++ events |}.
Proof. eexists. split; [reflexivity|]. by intros k []. Qed.

Lemma dispatch_announced fault now event w :
  announced w (dispatch fault now event w).2.
Proof.
  unfold dispatch, bind, ret.
  repeat (destruct (String.eqb (req_action (data event)) _)).
  - assert (announced w (dbSet fault now (req_key (data event)) (req_value (data event))
                           (req_options (data event)) (origin event) w).2).
    { run_any. repeat case_match; simplify_eq/=;
        first [apply announced_refl | apply announced_insert]. }
    by destruct (dbSet _ _ _ _ _ _ _) as [[] ?].
  - assert (announced w (dbGet fault now (req_key (data event)) (origin event) w).2).
    { run_any. repeat case_match; simplify_eq/=;
        first [apply announced_refl | apply announced_delete]. }
    by destruct (dbGet _ _ _ _ _) as [[] ?].
  - assert (announced w (dbRemove fault (req_key (data event)) (origin event) w).2).
    { run_any. repeat case_match; simplify_eq/=;
        first [apply announced_refl | apply announced_delete]. }
    by destruct (dbRemove _ _ _ _) as [[] ?].
  - assert (announced w (dbClear fault (origin event) w).2).
    { run_any. destruct (fault OpOpen); [apply announced_refl|].
      destruct (fault OpIterate); [apply announced_refl|]. rewrite clear_loop_spec.
      destruct (fault OpDone); simpl; [apply announced_unposted|apply announced_clear]. }
    by destruct (dbClear _ _ _) as [[] ?].
  - assert (announced w (dbKeys fault (origin event) w).2).
    { run_any. repeat case_match; simplify_eq/=; apply announced_refl. }
    by destruct (dbKeys _ _ _) as [[] ?].
  - apply announced_refl.
Qed.

(** X8: the core changes no record silently.  Whatever the message and
    whatever the store rejects, handling it only appends events to the
    channel, and every key whose record is created, replaced or deleted is
    the key of one of the events appended. *)
Theorem listener_announces fault now event w :
  announced w (listener fault now event w).2.
Proof.
  unfold listener.
  destruct (String.eqb _ _), (source event) as [win|]; try apply announced_refl.
  pose proof (dispatch_announced fault now event w) as Hd.
  by destruct (dispatch fault now event w) as [[[v|]|e] w'].
Qed.

(** ** Failures *)

Lemma dbGet_throws_unchanged fault now key origin w e w' :
  dbGet fault now key origin w = (Throw e, w') → w' = w.
Proof.
  run_any. repeat case_match; intros; by simplify_eq/=.
Qed.

Lemma dbKeys_unchanged fault origin w : (dbKeys fault origin w).2 = w.
Proof.
  run_any. destruct (fault OpOpen); [done|]. by destruct (fault OpGetAll).
Qed.

Lemma dbClear_throws_db fault origin w e w' :
  dbClear fault origin w = (Throw e, w') → db w' = db w.
Proof.
  run_any. destruct (fault OpOpen); [by intros [= _ <-]|].
  destruct (fault OpIterate); [by intros [= _ <-]|]. rewrite clear_loop_spec.
  destruct (fault OpDone); [by intros [= _ <-]|done].
Qed.

(** X9: no partial write.  When the operation that a message asks for
    throws (a permission is missing or the store rejects a request), the
    store holds what it held before; unless the operation is a clear,
    nothing has been posted on the channel either. *)
Theorem dispatch_throws_unchanged fault now event w e w' :
  dispatch fault now event w = (Throw e, w') →
  db w' = db w ∧ (req_action (data event) ≠ "clear" → w' = w).
Proof.
  unfold dispatch, bind, ret.
  destruct (String.eqb_spec (req_action (data event)) "setItem") as [Ha|_].
  { destruct (dbSet _ _ _ _ _ _ _) as [[[]|e0] w0] eqn:Hrun; intros [= <- <-].
    apply dbSet_throws_unchanged in Hrun as ->. done. }
  destruct (String.eqb_spec (req_action (data event)) "getItem") as [Ha|_].
  { destruct (dbGet _ _ _ _ _) as [[v|e0] w0] eqn:Hrun; intros [= <- <-].
    apply dbGet_throws_unchanged in Hrun as ->. done. }
  destruct (String.eqb_spec (req_action (data event)) "removeItem") as [Ha|_].
  { destruct (dbRemove _ _ _ _) as [[[]|e0] w0] eqn:Hrun; intros [= <- <-].
    apply dbRemove_throws_unchanged in Hrun as ->. done. }
  destruct (String.eqb_spec (req_action (data event)) "clear") as [Ha|_].
  { destruct (dbClear _ _ _) as [[[]|e0] w0] eqn:Hrun; intros [= <- <-].
    apply dbClear_throws_db in Hrun. done. }
  destruct (String.eqb_spec (req_action (data event)) "keys") as [Ha|_]; [|done].
  pose proof (dbKeys_unchanged fault (origin event) w) as Hk.
  destruct (dbKeys _ _ _) as [[v|e0] w0]; intros [= <- <-]. by simpl in Hk; subst.
Qed.

Lemma dispatch_throws_unchanged_witness :
  ∃ w', dispatch full 9 store_request populated = (Throw quota, w') ∧ w' = populated.
Proof.
  exists (dispatch full 9 store_request populated).2.
  split; [vm_compute; reflexivity|].
  apply (dispatch_throws_unchanged full 9 store_request populated quota).
  - vm_compute. reflexivity.
  - discriminate.
Defined.

(** X10: a clear announces before it commits.  When the store accepts
    the scan and rejects the commit, the clear throws that rejection and
    the store holds what it held, yet one [{key, remove}] event has been
    posted for every item the origin may write. *)
Theorem dbClear_commit_rejected fault origin w e :
  fault OpOpen = None →
  fault OpIterate = None →
  fault OpDone = Some e →
  dbClear fault origin w
  = (Throw e,
     {| db := db w;
        channel := channel w
                   ++ (removal <$> filter (λ item, hasPermission (write (acl item)) origin = true)
                                          (map_to_list (db w)).*2) |}).
Proof.
  intros Hopen Hiter Hdone.
  unfold dbClear, dbPromise, transaction, store_iterate, request, tx_done, bind.
  rewrite Hopen, Hiter, clear_loop_spec. by rewrite Hdone.
Qed.

Lemma dbClear_commit_rejected_witness :
  let aborted := {| name := "AbortError"; message := "The transaction was aborted." |} in
  let fault := λ op, match op with OpDone => Some aborted | _ => None end in
  ∃ w', dbClear fault "https://b" populated = (Throw aborted, w') ∧
        db w' = db populated ∧
        channel w' = channel populated
                     ++ [{| change_key := "notes"; change_action := "remove" |}].
Proof.
  intros aborted fault. eexists. split.
  - apply (dbClear_commit_rejected fault "https://b" populated aborted); reflexivity.
  - split; reflexivity.
Defined.

(** ** The listener *)

(** X11: a message is ignored, with no response and no change, when it
    has no origin or no source, or when its action is none of the five the
    listener knows. *)
Theorem listener_ignores fault now event w :
  origin event = "" ∨ source event = None ∨ req_action (data event) ∉ actions →
  listener fault now event w = (None, w).
Proof.
  intros Hcase. unfold listener.
  destruct (String.eqb_spec (origin event) "") as [|Ho]; [done|].
  destruct (source event) as [win|]; [|done].
  destruct Hcase as [|[|Ha]]; [done..|].
  assert (Hne : ∀ a, a ∈ actions → String.eqb (req_action (data event)) a = false).
  { intros a Hin. apply String.eqb_neq. by intros <-. }
  unfold dispatch, ret.
  by rewrite !Hne by (unfold actions; apply list_elem_of_In; simpl; tauto).
Qed.

Lemma listener_ignores_witness :
  let stranger := {| origin := "https://a"; source := Some 3%nat;
                     data := {| req_action := "set"; req_key := "draft";
                                req_value := VStr "d"; req_options := None;
                                req_requestId := 4 |} |} in
  listener no_fault 9 stranger populated = (None, populated).
Proof.
  intros stranger. apply (listener_ignores no_fault 9 stranger populated).
  right. right. unfold actions. simpl.
  intros Hin. repeat (apply elem_of_cons in Hin as [Hin|Hin]; [discriminate Hin|]).
  by apply elem_of_nil in Hin.
Defined.

Lemma listener_response fault now event w win :
  source event = Some win →
  origin event ≠ "" →
  req_action (data event) ∈ actions →
  ∃ response w',
    listener fault now event w
    = (Some {| target := win; targetOrigin := origin event; posted_message := response |}, w') ∧
    w' = (dispatch fault now event w).2 ∧
    res_action response = "response" ∧
    res_requestId response = req_requestId (data event) ∧
    ∀ e, res_error response = Some e ↔ (dispatch fault now event w).1 = Throw e.
Proof.
  intros Hsrc Ho Ha. unfold listener. rewrite Hsrc.
  apply String.eqb_neq in Ho. rewrite Ho.
  assert (Hsome : ∀ w', dispatch fault now event w ≠ (Return None, w')).
  { intros w'. unfold dispatch, bind, ret.
    destruct (String.eqb_spec (req_action (data event)) "setItem") as [_|N1];
      [by destruct (dbSet _ _ _ _ _ _ _) as [[] ?]|].
    destruct (String.eqb_spec (req_action (data event)) "getItem") as [_|N2];
      [by destruct (dbGet _ _ _ _ _) as [[] ?]|].
    destruct (String.eqb_spec (req_action (data event)) "removeItem") as [_|N3];
      [by destruct (dbRemove _ _ _ _) as [[] ?]|].
    destruct (String.eqb_spec (req_action (data event)) "clear") as [_|N4];
      [by destruct (dbClear _ _ _) as [[] ?]|].
    destruct (String.eqb_spec (req_action (data event)) "keys") as [_|N5];
      [by destruct (dbKeys _ _ _) as [[] ?]|].
    unfold actions in Ha. apply list_elem_of_In in Ha. simpl in Ha.
    intros _. destruct Ha as [Ha|[Ha|[Ha|[Ha|[Ha|[]]]]]]; congruence. }
  destruct (dispatch fault now event w) as [[[v|]|e] w'] eqn:Hd.
  - eexists _, _. split; [reflexivity|]. simpl. repeat split; intros [=].
  - by destruct (Hsome w').
  - eexists _, _. split; [reflexivity|]. simpl. destruct e as [n m].
    repeat split; by intros [= <-].
Qed.

(** X12: every other message is answered once: the listener posts to the
    window the message came from, for the origin it came from, one
    response with the request's id; the response carries an error exactly
    when the operation threw, and then it is that exception's name and
    message. *)
Theorem listener_answers fault now event w win :
  source event = Some win →
  origin event ≠ "" →
  req_action (data event) ∈ actions →
  ∃ response w',
    listener fault now event w
    = (Some {| target := win; targetOrigin := origin event; posted_message := response |}, w') ∧
    w' = (dispatch fault now event w).2 ∧
    res_action response = "response" ∧
    res_requestId response = req_requestId (data event) ∧
    ∀ e, res_error response = Some e ↔ (dispatch fault now event w).1 = Throw e.
Proof. apply listener_response. Qed.

Lemma listener_answers_witness :
  let asks := {| origin := "https://b"; source := Some 5%nat;
                 data := {| req_action := "keys"; req_key := ""; req_value := VUndefined;
                            req_options := None; req_requestId := 12 |} |} in
  ∃ response w',
    listener no_fault 9 asks populated
    = (Some {| target := 5%nat; targetOrigin := "https://b"; posted_message := response |}, w') ∧
    res_requestId response = 12%Z.
Proof.
  intros asks.
  destruct (listener_answers no_fault 9 asks populated 5%nat) as (r & w' & H1 & _ & _ & H2 & _).
  - reflexivity.
  - discriminate.
  - unfold actions. apply list_elem_of_In. simpl. tauto.
  - exists r, w'. split; [exact H1|exact H2].
Defined.

(** X13: the store keeps its key path.  Starting from an empty store,
    after any sequence of messages, handled at any times and whatever the
    store rejected on the way, every record is stored under the key it
    carries. *)
Theorem key_path_kept trace :
  keyed (db (handle_all trace empty)).
Proof.
  unfold handle_all. induction trace as [|[fault [now event]] trace IH] using rev_ind.
  - apply keyed_empty.
  - rewrite foldl_app. simpl. by apply keyed_listener.
Qed.

(** ** Stored expiries *)

Lemma dated_dbSet fault now key val (options : option Options) origin w :
  (0 < now)%Z →
  (∀ ttl, options ≫= opt_ttl = Some ttl →
          Number.valid ttl = true ∧ Number.ltb ttl (Number.of_Z 0) = false) →
  dated (db w) → dated (db (dbSet fault now key val options origin w).2).
Proof.
  intros Hnow Httl Hw. run_any. unfold dated in *.
  destruct (options ≫= opt_ttl) as [ttl|] eqn:Hopt.
  - destruct (Httl ttl eq_refl) as [Hv Hneg].
    destruct (Number.truthy ttl) eqn:Htruthy.
    + assert (Hs : Number.ltb (Number.of_Z 0)
                     (Number.add (Number.of_Z now) (Number.mul ttl (Number.of_Z 1000))) = true).
      { apply NumberProps.signed_positive, expiry_positive; [lia|done|].
        by apply lifetime_positive. }
      repeat (case_match; simplify_eq/=; try done);
        (apply map_Forall_insert_2; [|done]); simpl; by intros e [= <-].
    + repeat (case_match; simplify_eq/=; try done);
        (apply map_Forall_insert_2; [|done]); by simpl; intros e He.
  - repeat (case_match; simplify_eq/=; try done);
      (apply map_Forall_insert_2; [|done]); by simpl; intros e He.
Qed.

Lemma dated_listener fault m w :
  timely m → dated (db w) → dated (db (listener fault m.1 m.2 w).2).
Proof.
  destruct m as [now event]. intros [Hnow Httl] Hw. simpl in *. unfold listener.
  destruct (String.eqb _ _), (source event) as [win|]; try done.
  assert (Hd : dated (db (dispatch fault now event w).2)).
  { unfold dispatch, bind, ret.
    repeat (destruct (String.eqb (req_action (data event)) _)).
    - pose proof (dated_dbSet fault now (req_key (data event)) (req_value (data event))
                    (req_options (data event)) (origin event) w Hnow Httl Hw).
      by destruct (dbSet _ _ _ _ _ _ _) as [[] ?].
    - assert (dated (db (dbGet fault now (req_key (data event)) (origin event) w).2)).
      { run_any. repeat (case_match; simplify_eq/=; try done).
        all: by apply map_Forall_delete. }
      by destruct (dbGet _ _ _ _ _) as [[] ?].
    - assert (dated (db (dbRemove fault (req_key (data event)) (origin event) w).2)).
      { run_any. repeat (case_match; simplify_eq/=; try done).
        all: by apply map_Forall_delete. }
      by destruct (dbRemove _ _ _ _) as [[] ?].
    - assert (dated (db (dbClear fault (origin event) w).2)).
      { run_any. destruct (fault OpOpen); [done|].
        destruct (fault OpIterate); [done|]. rewrite clear_loop_spec.
        destruct (fault OpDone); [done|]. simpl.
        generalize (filter (λ item, hasPermission (write (acl item)) (origin event) = true)
                           (map_to_list (db w)).*2).
        intros l. revert Hw. generalize (db w). induction l as [|item l IH]; [done|].
        intros tx Htx. cbn [foldl]. by apply IH, map_Forall_delete. }
      by destruct (dbClear _ _ _) as [[] ?].
    - rewrite <- (dbKeys_unchanged fault (origin event) w) in Hw.
      by destruct (dbKeys _ _ _) as [[] ?].
    - done. }
  by destruct (dispatch fault now event w) as [[[v|]|e] w'].
Qed.

(** X14: no stored expiry is zero.  Starting from an empty store, when
    every message is handled at a positive reading of the clock and asks
    for no negative lifetime, every [expiresAt] in the store is a
    positive timestamp, whatever the store rejected on the way; so an
    expiry that is stored is one that the test [item.expiresAt] sees. *)
Theorem expiries_positive trace :
  Forall (λ m, timely m.2) trace →
  dated (db (handle_all trace empty)).
Proof.
  unfold handle_all. induction trace as [|[fault m] trace IH] using rev_ind; intros Ht.
  - apply map_Forall_empty.
  - apply Forall_app in Ht as [Ht Hm]. apply Forall_cons in Hm as [Hm _].
    rewrite foldl_app. simpl. apply dated_listener; [exact Hm|by apply IH].
Qed.

Lemma expiries_positive_witness :
  let asks ttl := {| origin := "https://a"; source := Some 3%nat;
                     data := {| req_action := "setItem"; req_key := "token";
                                req_value := VStr "t";
                                req_options := Some {| opt_acl := None; opt_ttl := Some ttl |};
                                req_requestId := 0 |} |} in
  let trace := [(no_fault, (5%Z, asks (Number.of_Z 0)));
                (full, (6%Z, asks (Number.of_Z 9)));
                (no_fault, (7%Z, asks (Number.of_Z 2)))] in
  ∃ item, db (handle_all trace empty) !! "token" = Some item ∧
          expiresAt item = Some (Number.of_Z 2007) ∧
          ∀ e, expiresAt item = Some e → Number.ltb (Number.of_Z 0) e = true.
Proof.
  intros asks trace.
  exists {| key := "token"; value := VStr "t";
            acl := {| read := ["*"]; write := ["https://a"] |};
            expiresAt := Some (Number.of_Z 2007) |}.
  split; [reflexivity|]. split; [reflexivity|].
  assert (Hd : dated (db (handle_all trace empty))).
  { apply (expiries_positive trace).
    repeat (apply List.Forall_cons; [split; [simpl; lia|]; simpl; by intros ttl [= <-]|]).
    apply List.Forall_nil. }
  apply (Hd "token"). reflexivity.
Defined.

End CoreExtra.

(** * Further properties of the client library *)

Module ClientExtra.
Import Client.
Import Scenario.
Import ClientProps.

(** ** What the handlers leave alone *)

Lemma same_wire_refl st : same_wire st st.
Proof. done. Qed.

Lemma same_wire_foldl {A} (f : State → A → State) (l : list A) st :
  (∀ st a, same_wire st (f st a)) → same_wire st (foldl f st l).
Proof.
  intros Hf. revert st. induction l as [|a l IH]; intros st; [done|].
  cbn [foldl]. destruct (IH (f st a)) as (Hp & Hq & Hc).
  destruct (Hf st a) as (Hp' & Hq' & Hc').
  unfold same_wire. by rewrite Hp, Hq, Hc.
Qed.

Lemma same_link_foldl {A} (f : State → A → State) (l : list A) st :
  (∀ st a, same_link st (f st a)) → same_link st (foldl f st l).
Proof.
  intros Hf. revert st. induction l as [|a l IH]; intros st; [done|].
  cbn [foldl]. destruct (IH (f st a)) as (Hp & Hq & Hc).
  destruct (Hf st a) as (Hp' & Hq' & Hc').
  unfold same_link. by rewrite Hp, Hq, Hc.
Qed.

Lemma reject_wire id error st :
  same_wire st (reject id error st) ∧ same_link st (reject id error st) ∧
  cache (reject id error st) = cache st.
Proof. unfold reject. by case_bool_decide. Qed.

Lemma resolve_wire id value st :
  same_wire st (resolve id value st) ∧ same_link st (resolve id value st).
Proof.
  unfold resolve. case_bool_decide; [done|]. split.
  - match goal with |- context [foldl ?f ?st0 ?l] =>
      destruct (same_wire_foldl f l st0) as (Hp & Hq & Hc) end.
    { intros st' r. by case_bool_decide. }
    unfold same_wire. by rewrite Hp, Hq, Hc.
  - match goal with |- context [foldl ?f ?st0 ?l] =>
      destruct (same_link_foldl f l st0) as (Hp & Hq & Hc) end.
    { intros st' r. by case_bool_decide. }
    unfold same_link. by rewrite Hp, Hq, Hc.
Qed.

Lemma window_onmessage_wire reply st :
  same_wire st (window_onmessage reply st) ∧ same_link st (window_onmessage reply st).
Proof.
  unfold window_onmessage. destruct (_ || _); [done|]. destruct (_ && _); [|done].
  destruct (res_error (data reply)) as [error|].
  - destruct (reject_wire (res_requestId (data reply))
                {| name := name error; message := message error |} st) as (Hw & Hl & _).
    done.
  - destruct (resolve_wire (res_requestId (data reply)) (res_value (data reply)) st)
      as (Hw & Hl). done.
Qed.

(** The queue, posted in its order over the connection of [st]. *)
Lemma posted_foldl (queue : list Request) st :
  let st' := foldl (λ st request, postToCore request st) st queue in
  posted st' = posted st ++ (toCore st <$> queue) ∧
  same_link st st' ∧ same_ids st st' ∧
  requestQueue st' = requestQueue st ∧ cache st' = cache st ∧
  requestIdCounter st' = requestIdCounter st.
Proof.
  revert st. induction queue as [|m queue IH]; intros st; simpl.
  - by rewrite app_nil_r.
  - destruct (IH (postToCore m st)) as (Hp & Hl & Hi & Hq & Hc & Hn).
    simpl in *. rewrite Hp, <- app_assoc. done.
Qed.

(** X16: when the iframe has loaded, the proxy is ready and connected to
    it, and the requests that were waiting have been posted to it in the
    order in which they were queued, after those posted before; the queue
    is empty and the pending requests and the cache are as they were. *)
Theorem iframe_onload_drains iframe st :
  let st' := iframe_onload iframe st in
  coreState st' = ready ∧
  coreWindow st' = Some iframe ∧
  requestQueue st' = [] ∧
  posted st' = posted st
               ++ ((λ m, {| to_window := Some iframe; to_origin := coreOrigin st;
                            to_message := m |}) <$> requestQueue st) ∧
  issued st' = issued st ∧
  pendingRequests st' = pendingRequests st ∧
  cache st' = cache st.
Proof.
  unfold iframe_onload, processRequestQueue, issued.
  set (st0 := set_coreState ready (set_coreWindow (Some iframe) st)).
  destruct (posted_foldl (requestQueue st0) st0)
    as (Hp & (Hs & Hw & Ho) & (_ & Hpend & _) & Hq & Hc & _).
  simpl in *. rewrite Hs, Hw, Hp, Hpend, Hc.
  repeat split; try done.
  rewrite fmap_app, app_nil_r, <- list_fmap_compose. f_equal.
  by rewrite list_fmap_id.
Qed.

(** ** Request ids *)

Lemma iframe_onload_issued iframe st :
  issued (iframe_onload iframe st) = issued st ∧
  requestIdCounter (iframe_onload iframe st) = requestIdCounter st.
Proof.
  unfold iframe_onload, processRequestQueue, issued.
  set (st0 := set_coreState ready (set_coreWindow (Some iframe) st)).
  destruct (posted_foldl (requestQueue st0) st0) as (Hp & _ & _ & _ & _ & Hc).
  simpl in *. rewrite Hp, Hc. split; [|done].
  rewrite fmap_app, app_nil_r, <- list_fmap_compose. f_equal.
  by rewrite list_fmap_id.
Qed.

Lemma numbered_same st st' : same_wire st st' → numbered st → numbered st'.
Proof.
  intros (Hp & Hq & Hc) [Hnd Hlt]. unfold numbered, issued. by rewrite Hp, Hq, Hc.
Qed.

Lemma numbered_add (m : Request) st st' :
  numbered st →
  (requestIdCounter st ≤ req_requestId m < requestIdCounter st')%Z →
  issued st' = issued st ∨ issued st' ≡ₚ m :: issued st →
  numbered st'.
Proof.
  intros [Hnd Hlt] Hm [Heq|Hperm]; unfold numbered.
  - rewrite Heq. split; [done|]. intros m' Hm'. specialize (Hlt m' Hm'). lia.
  - split.
    + rewrite Hperm, fmap_cons. apply NoDup_cons. split; [|done].
      intros Hin. apply list_elem_of_fmap in Hin as (m' & Heq & Hm').
      specialize (Hlt m' Hm'). lia.
    + intros m' Hm'. rewrite Hperm in Hm'.
      apply elem_of_cons in Hm' as [->|Hm']; [lia|].
      specialize (Hlt m' Hm'). lia.
Qed.

Lemma onerror_wire coreUrl st :
  posted (iframe_onerror coreUrl st) = posted st ∧
  requestQueue (iframe_onerror coreUrl st) = [] ∧
  requestIdCounter (iframe_onerror coreUrl st) = requestIdCounter st.
Proof.
  unfold iframe_onerror. cbv zeta. simpl.
  match goal with |- context [foldl ?f (foldl ?g ?st0 ?q) ?l] =>
    destruct (same_wire_foldl g q st0) as (Hp & Hq & Hc);
    [|destruct (same_wire_foldl f l (foldl g st0 q)) as (Hp' & Hq' & Hc')] end.
  - intros st' req. case_bool_decide; [apply reject_wire|done].
  - intros st' id. apply reject_wire.
  - by rewrite Hp', Hp, Hc', Hc.
Qed.

Section Calls.
Variable URL_origin : string → Completion string.

Lemma init_wire env config st :
  same_wire st (init URL_origin env config st).2 ∧
  cache (init URL_origin env config st).2 = cache st.
Proof. unfold init. by repeat case_match. Qed.

(** What [sendRequest] does to the requests on the wire: nothing, or it
    adds its message. *)
Lemma sendRequest_issued env message st :
  let st' := (sendRequest URL_origin env message st).2 in
  requestIdCounter st' = requestIdCounter st ∧
  cache st' = cache st ∧
  (issued st' = issued st ∨ issued st' ≡ₚ message :: issued st).
Proof.
  unfold sendRequest.
  set (r := if bool_decide (coreState st = uninitialized) then _ else _).
  assert (Hr : same_wire st r.2 ∧ cache r.2 = cache st).
  { unfold r. case_bool_decide; [apply init_wire|done]. }
  destruct r as [c st0]. simpl in Hr. destruct Hr as [(Hp & Hq & Hc) Hcache].
  assert (Hi : issued st0 = issued st) by (unfold issued; by rewrite Hp, Hq).
  cbv zeta.
  destruct c as [[]|e]; [|simpl; split; [done|split; [done|by left]]].
  case_bool_decide; [simpl; split; [done|split; [done|by left]]|].
  simpl. case_bool_decide; simpl.
  - split; [done|]. split; [done|]. right. rewrite <- Hi. unfold issued. simpl.
    rewrite fmap_app, <- app_assoc. simpl. symmetry. apply Permutation_middle.
  - split; [done|]. split; [done|]. right. rewrite <- Hi. unfold issued. simpl.
    rewrite app_assoc. symmetry. apply Permutation_cons_append.
Qed.

Lemma numbered_send env message st0 st :
  (requestIdCounter st < 2 ^ 53)%Z →
  numbered st →
  issued st0 = issued st →
  requestIdCounter st0 = increment (requestIdCounter st) →
  req_requestId message = requestIdCounter st →
  numbered (sendRequest URL_origin env message st0).2.
Proof.
  intros Hlim Hn Hi Hc Hm. pose proof (increment_lt _ Hlim).
  destruct (sendRequest_issued env message st0) as (Hc' & _ & Hi').
  apply (numbered_add message st); [done|lia|]. by rewrite <- Hi.
Qed.

Lemma numbered_call env op st :
  (requestIdCounter st < 2 ^ 53)%Z → numbered st → numbered (call URL_origin env op st).
Proof.
  intros Hlim Hn. destruct op; simpl.
  - apply (numbered_same st); [apply init_wire|done].
  - by apply (numbered_send _ _ _ st).
  - unfold getItem. destruct (cache st !! key); [done|].
    match goal with |- context [sendRequest _ _ ?m ?s] =>
      pose proof (numbered_send env m s st Hlim Hn eq_refl eq_refl eq_refl) as Hs;
      destruct (sendRequest URL_origin env m s) as [[p|e] st1] end; [|done].
    simpl in *. apply (numbered_same st1); [|done]. by destruct p as [[]|].
  - by apply (numbered_send _ _ _ st).
  - by apply (numbered_send _ _ _ st).
  - by apply (numbered_send _ _ _ st).
Qed.

(** The counter never goes back. *)
Lemma counter_call env op st :
  (requestIdCounter st ≤ requestIdCounter (call URL_origin env op st))%Z.
Proof.
  pose proof (increment_le (requestIdCounter st)) as Hle.
  destruct op; cbn [call].
  - destruct (init_wire env config st) as [(_ & _ & ->) _]. lia.
  - unfold setItem.
    match goal with |- context [sendRequest _ _ ?m ?s] =>
      destruct (sendRequest_issued env m s) as (-> & _) end. done.
  - unfold getItem. destruct (cache st !! key); [done|].
    match goal with |- context [sendRequest _ _ ?m ?s] =>
      destruct (sendRequest_issued env m s) as (Hc & _);
      destruct (sendRequest URL_origin env m s) as [[p|e] st1] end;
      simpl in *; [|by rewrite Hc].
    destruct p as [[]|]; simpl; by rewrite Hc.
  - unfold removeItem.
    match goal with |- context [sendRequest _ _ ?m ?s] =>
      destruct (sendRequest_issued env m s) as (-> & _) end. done.
  - unfold clear.
    match goal with |- context [sendRequest _ _ ?m ?s] =>
      destruct (sendRequest_issued env m s) as (-> & _) end. done.
  - unfold keys.
    match goal with |- context [sendRequest _ _ ?m ?s] =>
      destruct (sendRequest_issued env m s) as (-> & _) end. done.
Qed.

Lemma counter_step env s st :
  (requestIdCounter st ≤ requestIdCounter (step URL_origin env s st))%Z.
Proof.
  destruct s as [op|iframe|url| |event|reply]; cbn [step].
  - apply counter_call.
  - destruct (iframe_onload_issued iframe st) as [_ ->]. lia.
  - destruct (onerror_wire url st) as (_ & _ & ->). lia.
  - unfold DOMContentLoaded.
    match goal with |- context [foldl ?f ?st0 ?l] =>
      destruct (same_wire_foldl f l st0) as (_ & _ & Hc); [done|] end.
    simpl in *. rewrite Hc. lia.
  - unfold channel_onmessage. destruct (_ || _); simpl; lia.
  - destruct (window_onmessage_wire reply st) as [(_ & _ & ->) _]. lia.
Qed.

Lemma numbered_step env s st :
  (requestIdCounter st < 2 ^ 53)%Z → numbered st → numbered (step URL_origin env s st).
Proof.
  intros Hlim Hn. destruct s as [op|iframe|url| |event|reply]; simpl.
  - by apply numbered_call.
  - destruct (iframe_onload_issued iframe st) as [Hi Hc].
    unfold numbered. by rewrite Hi, Hc.
  - destruct (onerror_wire url st) as (Hp & Hq & Hc). destruct Hn as [Hnd Hlt].
    unfold numbered, issued in *. rewrite Hp, Hq, Hc, app_nil_r. split.
    + rewrite fmap_app in Hnd. by apply NoDup_app in Hnd as (? & _ & _).
    + intros m Hm. apply Hlt. apply elem_of_app. by left.
  - apply (numbered_same st); [|done]. unfold DOMContentLoaded.
    match goal with |- context [foldl ?f ?st0 ?l] =>
      destruct (same_wire_foldl f l st0) as (Hp & Hq & Hc); [done|] end.
    done.
  - apply (numbered_same st); [|done]. unfold channel_onmessage. by destruct (_ || _).
  - apply (numbered_same st); [apply window_onmessage_wire|done].
Qed.

(** X15: correlation ids are not reused while the counter is below
    [2^53].  In every state that the module reaches from its initial one,
    by calls of its functions and by its handlers, in any environment,
    and in which [requestIdCounter] is below [2^53], the requests posted
    to the core or waiting in the queue have pairwise different ids, all
    below the counter. *)
Theorem request_ids_distinct (trace : list (Env * Step)) :
  let st := foldl (λ st es, step URL_origin es.1 es.2 st) initial trace in
  (requestIdCounter st < 2 ^ 53)%Z →
  NoDup (req_requestId <$> issued st) ∧
  ∀ m, m ∈ issued st → (req_requestId m < requestIdCounter st)%Z.
Proof.
  induction trace as [|[env s] trace IH] using rev_ind.
  - intros st _. split; [constructor|]. intros m Hm. by apply elem_of_nil in Hm.
  - cbv zeta in *. rewrite foldl_app. simpl. intros Hlim.
    pose proof (counter_step env s
                  (foldl (λ st es, step URL_origin es.1 es.2 st) initial trace)) as Hle.
    apply numbered_step; [lia|]. apply IH. lia.
Qed.

(** [fresh] holds in every state the module reaches with a counter below
    [2^53]. *)
Lemma fresh_reachable (trace : list (Env * Step)) :
  let st := foldl (λ st es, step URL_origin es.1 es.2 st) initial trace in
  (requestIdCounter st < 2 ^ 53)%Z → fresh st.
Proof.
  induction trace as [|[env s] trace IH] using rev_ind.
  - intros st _. apply fresh_initial.
  - cbv zeta in *. rewrite foldl_app. simpl. intros Hlim.
    pose proof (counter_step env s
                  (foldl (λ st es, step URL_origin es.1 es.2 st) initial trace)) as Hle.
    apply fresh_step; [lia|]. apply IH. lia.
Qed.

(** X27: while the counter is below [2^53], the id that the next request
    will get names no call that is pending or settled and no callback, in
    every state the module reaches from its initial one. *)
Theorem next_id_unused (trace : list (Env * Step)) :
  let st := foldl (λ st es, step URL_origin es.1 es.2 st) initial trace in
  (requestIdCounter st < 2 ^ 53)%Z →
  (requestIdCounter st ∉ pendingRequests st) ∧
  (requestIdCounter st ∉ (settled st).*1) ∧
  (requestIdCounter st ∉ (reactions st).*1).
Proof.
  intros st Hlim.
  assert (Hf : fresh st) by by apply fresh_reachable.
  repeat split; intros Hin;
    (assert (requestIdCounter st < requestIdCounter st)%Z by (apply Hf; tauto)); lia.
Qed.

(** X18: a failed proxy sends nothing.  In state [failed] every call
    that would send a request returns a promise that is already rejected
    with the failed-state error; nothing is posted, queued or left
    pending, and no promise is settled. *)
Theorem failed_rejects env op st :
  coreState st = failed →
  requests op st →
  let rejected := Return (Settled (Rejected
                    (Error "GlobalLocalStorage core is in a failed state."))) in
  match op with
  | Init _ => True
  | SetItem key value options => (setItem URL_origin env key value options st).1 = rejected
  | GetItem key => (getItem URL_origin env key st).1 = rejected
  | RemoveItem key => (removeItem URL_origin env key st).1 = rejected
  | Clear => (clear URL_origin env st).1 = rejected
  | Keys => (keys URL_origin env st).1 = rejected
  end ∧
  let st' := call URL_origin env op st in
  posted st' = posted st ∧ requestQueue st' = requestQueue st ∧
  pendingRequests st' = pendingRequests st ∧ settled st' = settled st.
Proof.
  intros Hst Hop. destruct op; simpl in *; [done|..].
  - unfold setItem. by rewrite sendRequest_failed.
  - unfold getItem. rewrite Hop. by rewrite sendRequest_failed.
  - unfold removeItem. by rewrite sendRequest_failed.
  - unfold clear. by rewrite sendRequest_failed.
  - unfold keys. by rewrite sendRequest_failed.
Qed.

End Calls.

(** The client initializes, asks for the keys while the iframe loads,
    and reads a key once it has loaded. *)
Lemma request_ids_distinct_witness :
  let trace := [(browser, Call (Init no_config)); (browser, Call Keys);
                (browser, Loaded 0%nat); (browser, Call (GetItem "profile"))] in
  let st := foldl (λ st es, step URL_origin es.1 es.2 st) initial trace in
  req_requestId <$> issued st = [0; 1]%Z ∧
  NoDup (req_requestId <$> issued st).
Proof.
  intros trace st. split; [reflexivity|].
  destruct (request_ids_distinct URL_origin trace) as [Hnd _]; [reflexivity|exact Hnd].
Defined.

Lemma next_id_unused_witness :
  let trace := [(browser, Call (Init no_config)); (browser, Call Keys);
                (browser, Loaded 0%nat); (browser, Call (GetItem "profile"))] in
  let st := foldl (λ st es, step URL_origin es.1 es.2 st) initial trace in
  pendingRequests st = [0; 1]%Z ∧ requestIdCounter st = 2%Z ∧
  (requestIdCounter st ∉ pendingRequests st).
Proof.
  intros trace st. split; [reflexivity|]. split; [reflexivity|].
  destruct (next_id_unused URL_origin trace) as [Hp _]; [reflexivity|exact Hp].
Defined.

Lemma failed_rejects_witness :
  coreState failed_state = failed ∧
  (setItem URL_origin browser "draft" (VStr "d") {| opt_acl := None; opt_ttl := None |}
     failed_state).1
  = Return (Settled (Rejected (Error "GlobalLocalStorage core is in a failed state."))) ∧
  posted (call URL_origin browser
            (SetItem "draft" (VStr "d") {| opt_acl := None; opt_ttl := None |}) failed_state)
  = [].
Proof.
  split; [reflexivity|].
  destruct (failed_rejects URL_origin browser
              (SetItem "draft" (VStr "d") {| opt_acl := None; opt_ttl := None |})
              failed_state) as (Hp & Hposted & _); [reflexivity|exact I|].
  split; [exact Hp|]. rewrite Hposted. reflexivity.
Defined.

(** ** The core cannot be loaded *)

Lemma reject_spec id error st :
  pendingRequests (reject id error st) = pendingRequests st ∧
  id ∈ (settled (reject id error st)).*1 ∧
  (∀ x, x ∈ settled st → x ∈ settled (reject id error st)) ∧
  (∀ x, x ∈ settled (reject id error st) → x ∈ settled st ∨ x = (id, Rejected error)).
Proof.
  unfold reject. case_bool_decide as Hin; simpl.
  - repeat split; tauto.
  - repeat split.
    + rewrite fmap_app. apply elem_of_app. right. apply list_elem_of_here.
    + intros x Hx. apply elem_of_app. by left.
    + intros x Hx. apply elem_of_app in Hx as [Hx|Hx]; [by left|].
      apply list_elem_of_singleton in Hx. by right.
Qed.

Lemma rejectAll_spec error (queue : list Request) st :
  let st' := foldl (λ st (req : Request),
                      if bool_decide (req_requestId req ∈ pendingRequests st)
                      then reject (req_requestId req) error st else st) st queue in
  pendingRequests st' = pendingRequests st ∧
  (∀ x, x ∈ settled st → x ∈ settled st') ∧
  (∀ x, x ∈ settled st' →
        x ∈ settled st ∨ (x.1 ∈ pendingRequests st ∧ x.2 = Rejected error)).
Proof.
  revert st. induction queue as [|req queue IH]; intros st; cbn [foldl]; cbv zeta.
  - repeat split; tauto.
  - cbv zeta in IH. case_bool_decide as Hin; [|apply IH].
    destruct (IH (reject (req_requestId req) error st)) as (Hp & Hmono & Hnew).
    destruct (reject_spec (req_requestId req) error st) as (Hp' & _ & Hmono' & Hnew').
    rewrite Hp' in Hp, Hnew. split; [done|]. split; [by eauto|].
    intros x Hx. destruct (Hnew x Hx) as [Hold|?]; [|by right].
    destruct (Hnew' x Hold) as [?| ->]; [by left|by right].
Qed.

Lemma reject_each_spec error (l : list Z) st :
  let st' := foldl (λ st id, reject id error st) st l in
  pendingRequests st' = pendingRequests st ∧
  (∀ id, id ∈ l → id ∈ (settled st').*1) ∧
  (∀ x, x ∈ settled st → x ∈ settled st') ∧
  (∀ x, x ∈ settled st' → x ∈ settled st ∨ (x.1 ∈ l ∧ x.2 = Rejected error)).
Proof.
  revert st. induction l as [|id l IH]; intros st; cbn [foldl]; cbv zeta.
  - repeat split; try tauto. intros id Hid. by apply elem_of_nil in Hid.
  - cbv zeta in IH.
    destruct (IH (reject id error st)) as (Hp & Hall & Hmono & Hnew).
    destruct (reject_spec id error st) as (Hp' & Hin & Hmono' & Hnew').
    split; [by rewrite Hp|]. split; [|split; [by eauto|]].
    + intros i Hi. apply elem_of_cons in Hi as [->|Hi]; [|by apply Hall].
      apply list_elem_of_fmap in Hin as (x & -> & Hx).
      apply list_elem_of_fmap. exists x. split; [done|]. by apply Hmono.
    + intros x Hx. destruct (Hnew x Hx) as [Hold|[Hl Hr]].
      * destruct (Hnew' x Hold) as [?| ->]; [by left|]. right. split; [|done].
        apply list_elem_of_here.
      * right. split; [|done]. by apply list_elem_of_further.
Qed.

(** X17: when the iframe fails to load, the proxy is failed, its queue
    and its pending map are empty, and every request that was pending has
    been settled; the promises settled by the failure are exactly pending
    ones, each rejected with the load error that names the URL.  What was
    posted and the cache are as they were. *)
Theorem iframe_onerror_rejects coreUrl st :
  let st' := iframe_onerror coreUrl st in
  let error := Error ("Failed to load the storage core iframe. URL: " +:+ coreUrl +:+ ".") in
  coreState st' = failed ∧
  requestQueue st' = [] ∧
  pendingRequests st' = [] ∧
  posted st' = posted st ∧
  (∀ id, id ∈ pendingRequests st → id ∈ (settled st').*1) ∧
  (∀ x, x ∈ settled st → x ∈ settled st') ∧
  (∀ x, x ∈ settled st' →
        x ∈ settled st ∨ (x.1 ∈ pendingRequests st ∧ x.2 = Rejected error)).
Proof.
  intros st' error.
  destruct (onerror_wire coreUrl st) as (Hposted & Hq & _).
  split; [|split; [exact Hq|split; [reflexivity|split; [exact Hposted|]]]].
  { unfold st', iframe_onerror. cbv zeta. simpl.
    match goal with |- context [foldl ?f (foldl ?g ?st0 ?q) ?l] =>
      destruct (same_link_foldl g q st0) as (Hs & _);
      [|destruct (same_link_foldl f l (foldl g st0 q)) as (Hs' & _)] end.
    - intros s req. case_bool_decide; [apply reject_wire|done].
    - intros s id. apply reject_wire.
    - by rewrite Hs', Hs. }
  unfold st', iframe_onerror. cbv zeta. simpl. fold error.
  set (st0 := set_coreState failed st).
  destruct (rejectAll_spec error (requestQueue st0) st0) as (Hp1 & Hmono1 & Hnew1).
  cbv zeta in Hp1, Hmono1, Hnew1.
  set (st1 := foldl _ st0 (requestQueue st0)) in *.
  destruct (reject_each_spec error (pendingRequests st1) st1) as (_ & Hall & Hmono2 & Hnew2).
  cbv zeta in Hall, Hmono2, Hnew2.
  split; [|split].
  - intros id Hid. apply Hall. rewrite Hp1. exact Hid.
  - intros x Hx. by apply Hmono2, Hmono1.
  - intros x Hx. destruct (Hnew2 x Hx) as [Hold|[Hl Hr]]; [by apply Hnew1|].
    right. split; [|done]. rewrite Hp1 in Hl. exact Hl.
Qed.

(** ** The cache *)

Section Cache.
Variable URL_origin : string → Completion string.

Lemma sendRequest_cache env message st :
  cache (sendRequest URL_origin env message st).2 = cache st.
Proof. by destruct (sendRequest_issued URL_origin env message st) as (_ & ? & _). Qed.

Lemma sendRequest_unresolved env message st value :
  (sendRequest URL_origin env message st).1 ≠ Return (Settled (Resolved value)).
Proof.
  unfold sendRequest. destruct (if bool_decide _ then _ else _) as [[[]|e] st0]; [|done].
  by case_bool_decide.
Qed.

(** X20: the proxy forgets what it is about to change.  Whatever its
    state and whether the request can be sent or not, after [setItem] or
    [removeItem] the cache has lost the entry of that key and kept the
    others, after [clear] it is empty, and [keys] and [getItem] leave it
    as it was. *)
Theorem calls_invalidate env st :
  (∀ key value options,
     cache (setItem URL_origin env key value options st).2 = delete key (cache st)) ∧
  (∀ key, cache (removeItem URL_origin env key st).2 = delete key (cache st)) ∧
  cache (clear URL_origin env st).2 = ∅ ∧
  cache (keys URL_origin env st).2 = cache st ∧
  (∀ key, cache (getItem URL_origin env key st).2 = cache st).
Proof.
  repeat split; intros;
    try (unfold setItem, removeItem, clear, keys; by rewrite sendRequest_cache).
  unfold getItem. destruct (cache st !! key) eqn:Hk; [done|].
  match goal with |- context [sendRequest _ _ ?m ?s] =>
    pose proof (sendRequest_cache env m s) as Hc;
    pose proof (sendRequest_unresolved env m s) as Hu;
    destruct (sendRequest URL_origin env m s) as [[p|e] st1] end; [|done].
  simpl in *. destruct p as [[v|e]|id]; [|done..]. by destruct (Hu v).
Qed.

(** X19: a broadcast unseats the cached value.  After the event of a
    set or a remove of a key, whoever made it, the cache has no entry for
    that key and its other entries are kept, so that the next [getItem] of
    the key is not answered from the cache; an event with another action
    changes nothing. *)
Theorem broadcast_invalidates env event st :
  let st' := channel_onmessage event st in
  (change_action event = "set" ∨ change_action event = "remove" →
     cache st' = delete (change_key event) (cache st) ∧
     ∀ value, (getItem URL_origin env (change_key event) st').1
              ≠ Return (Settled (Resolved value))) ∧
  (change_action event ≠ "set" → change_action event ≠ "remove" → st' = st).
Proof.
  intros st'. unfold st', channel_onmessage. split.
  - intros Ha.
    assert (Hg : String.eqb (change_action event) "set"
                 || String.eqb (change_action event) "remove" = true).
    { destruct Ha as [-> | ->]; reflexivity. }
    rewrite Hg. split; [done|]. intros value. unfold getItem. simpl.
    rewrite lookup_delete_eq.
    match goal with |- context [sendRequest _ _ ?m ?s] =>
      pose proof (sendRequest_unresolved env m s value) as Hu;
      destruct (sendRequest URL_origin env m s) as [[p|e] st1] end; [|done].
    simpl in *. congruence.
  - intros H1 H2. apply String.eqb_neq in H1, H2. by rewrite H1, H2.
Qed.

End Cache.

(** The ready proxy has cached the profile; another tab changes it. *)
Lemma broadcast_invalidates_witness :
  let st := set_cache (<["profile" := VStr "old"]> ∅) ready_state in
  let event := {| change_key := "profile"; change_action := "set" |} in
  (getItem URL_origin browser "profile" st).1 = Return (Settled (Resolved (VStr "old"))) ∧
  cache (channel_onmessage event st) = ∅ ∧
  (getItem URL_origin browser "profile" (channel_onmessage event st)).1
  ≠ Return (Settled (Resolved (VStr "old"))).
Proof.
  intros st event. split; [reflexivity|].
  destruct (broadcast_invalidates URL_origin browser event st) as [Hset _].
  destruct Hset as [Hcache Hget]; [by left|].
  split; [rewrite Hcache; reflexivity|apply Hget].
Defined.

(** ** Responses *)

(** X21: a message that is not the response to a pending request changes
    nothing: one that arrives while the proxy is not ready, or from
    another origin or window than the core's, or whose action is not
    ['response'], or whose id is not pending. *)
Theorem window_onmessage_drops reply st :
  ¬ accepts st reply ∨ res_action (data reply) ≠ "response"
  ∨ res_requestId (data reply) ∉ pendingRequests st →
  window_onmessage reply st = st.
Proof.
  intros Hcase. unfold window_onmessage.
  destruct (decide (coreState st = ready)) as [Hs|Hs];
    [|by rewrite (bool_decide_eq_false_2 _ Hs)].
  destruct (decide (Some (origin reply) = coreOrigin st)) as [Ho|Ho];
    [|by rewrite (bool_decide_eq_false_2 _ Ho), orb_true_r].
  destruct (decide (source reply = coreWindow st)) as [Hw|Hw];
    [|by rewrite (bool_decide_eq_false_2 _ Hw), orb_true_r].
  rewrite !bool_decide_eq_true_2 by done. simpl.
  destruct Hcase as [Hacc|[Ha|Hid]].
  - destruct Hacc. by repeat split.
  - apply String.eqb_neq in Ha. by rewrite Ha.
  - by rewrite (bool_decide_eq_false_2 _ Hid), andb_false_r.
Qed.

(** A response that claims to come from the core, sent by another site. *)
Lemma window_onmessage_drops_witness :
  let forged := {| origin := "https://evil.example"; source := Some 0%nat;
                   data := {| res_action := "response"; res_requestId := 0;
                              res_value := VStr "x"; res_error := None |} |} in
  window_onmessage forged waiting_state = waiting_state.
Proof.
  intros forged. apply (window_onmessage_drops forged waiting_state).
  left. intros (_ & Ho & _). discriminate Ho.
Defined.

(** X22: a response is used once.  Handling the same message a second
    time changes nothing: the first time removed the id from the pending
    map. *)
Theorem window_onmessage_once reply st :
  window_onmessage reply (window_onmessage reply st) = window_onmessage reply st.
Proof.
  destruct (window_onmessage_wire reply st) as [_ (Hs & Hw & Ho)].
  set (st1 := window_onmessage reply st) in *.
  unfold window_onmessage at 1. rewrite Hs, Hw, Ho.
  destruct (_ || _) eqn:Hguard; [done|].
  destruct (String.eqb (res_action (data reply)) "response") eqn:Ha; [|done].
  assert (Hgone : res_requestId (data reply) ∉ pendingRequests st1).
  { unfold st1, window_onmessage. rewrite Hguard, Ha, andb_true_l.
    destruct (decide (res_requestId (data reply) ∈ pendingRequests st)) as [Hin|Hin];
      [rewrite (bool_decide_eq_true_2 _ Hin)|by rewrite (bool_decide_eq_false_2 _ Hin)].
    cbn [pendingRequests set_pendingRequests].
    intros Hin'. apply elem_of_pending_delete in Hin'. tauto. }
  by rewrite (bool_decide_eq_false_2 _ Hgone).
Qed.

(** ** Initialization *)

Section Init.
Variable URL_origin : string → Completion string.

Lemma call_initializing env op st :
  has_window env = true → has_document env = true →
  coreState st = initializing →
  let st' := call URL_origin env op st in
  coreState st' = initializing ∧ iframes st' = iframes st ∧
  deferred st' = deferred st ∧ posted st' = posted st.
Proof.
  intros Hw Hd Hst. destruct op; simpl.
  - unfold init. by rewrite Hw, Hd, Hst.
  - unfold setItem. by rewrite sendRequest_initializing.
  - unfold getItem. destruct (cache st !! key); [done|].
    by rewrite sendRequest_initializing.
  - unfold removeItem. by rewrite sendRequest_initializing.
  - unfold clear. by rewrite sendRequest_initializing.
  - unfold keys. by rewrite sendRequest_initializing.
Qed.

(** X23: a core URL that does not parse leaves the proxy waiting for
    nothing.  In a browser, [init] with such a URL on a proxy that is
    uninitialized or failed throws the parser's exception after it has
    set the state to [initializing] and before it creates an iframe; from
    then on no call of the public functions changes the state, creates an
    iframe or posts a request. *)
Theorem init_unparsable env config url e st :
  has_window env = true → has_document env = true →
  coreState st = uninitialized ∨ coreState st = failed →
  coreUrl config = Some url → url ≠ "" →
  URL_origin url = Throw e →
  let st1 := (init URL_origin env config st).2 in
  (init URL_origin env config st).1 = Throw e ∧
  ∀ ops,
    let st2 := foldl (λ st op, call URL_origin env op st) st1 ops in
    coreState st2 = initializing ∧ iframes st2 = iframes st ∧
    deferred st2 = deferred st ∧ posted st2 = posted st.
Proof.
  intros Hw Hd Hst Hcfg Hurl He.
  assert (Hinit : init URL_origin env config st = (Throw e, set_coreState initializing st)).
  { unfold init. rewrite Hw, Hd, Hcfg. apply String.eqb_neq in Hurl. rewrite Hurl.
    simpl. rewrite He. by destruct Hst as [-> | ->]. }
  rewrite Hinit. split; [done|]. simpl. intros ops.
  assert (Hgen : ∀ s, coreState s = initializing →
            let s' := foldl (λ st op, call URL_origin env op st) s ops in
            coreState s' = initializing ∧ iframes s' = iframes s ∧
            deferred s' = deferred s ∧ posted s' = posted s).
  { induction ops as [|op ops IH]; intros s Hs; [done|]. cbn [foldl]. cbv zeta.
    destruct (call_initializing env op s Hw Hd Hs) as (H1 & H2 & H3 & H4).
    destruct (IH _ H1) as (H1' & H2' & H3' & H4').
    by rewrite H1', H2', H3', H4', H2, H3, H4. }
  by apply (Hgen (set_coreState initializing st)).
Qed.

(** X24: waiting for the document makes no difference.  On a proxy
    with no deferred setup, [init] while the document is loading,
    followed by [DOMContentLoaded], leaves the state that [init] leaves
    when the document has loaded. *)
Theorem init_deferred env config st :
  deferred st = [] →
  readyState env ≠ "loading" →
  let loading := {| has_window := has_window env; has_document := has_document env;
                    readyState := "loading" |} in
  DOMContentLoaded (init URL_origin loading config st).2
  = (init URL_origin env config st).2.
Proof.
  intros Hdef Hready loading. apply String.eqb_neq in Hready.
  unfold init, DOMContentLoaded. simpl. rewrite Hready.
  destruct st; simpl in *; subst.
  repeat case_match; simplify_eq/=; try done.
Qed.

End Init.

Lemma init_unparsable_witness :
  let config := {| coreUrl := Some "core.html"; cfg_defaultOptions := None |} in
  let st1 := (init URL_origin browser config initial).2 in
  let st2 := (getItem URL_origin browser "profile" st1).2 in
  (init URL_origin browser config initial).1
  = Throw {| name := "TypeError"; message := "Invalid URL" |} ∧
  coreState st2 = initializing ∧ iframes st2 = [] ∧ deferred st2 = [] ∧ posted st2 = [].
Proof.
  intros config st1 st2.
  destruct (init_unparsable URL_origin browser config "core.html"
              {| name := "TypeError"; message := "Invalid URL" |} initial)
    as [Hthrow Hstuck];
    [reflexivity|reflexivity|by left|reflexivity|discriminate|reflexivity|].
  split; [exact Hthrow|]. exact (Hstuck [GetItem "profile"]).
Defined.

Lemma init_deferred_witness :
  let loading := {| has_window := true; has_document := true; readyState := "loading" |} in
  iframes (init URL_origin loading no_config initial).2 = [] ∧
  DOMContentLoaded (init URL_origin loading no_config initial).2 = initializing_state.
Proof.
  intros loading. split; [reflexivity|].
  apply (init_deferred URL_origin browser no_config initial); [reflexivity|discriminate].
Defined.

(** ** Requests and their answers *)

Section RoundTrip.
Variable URL_origin : string → Completion string.

(** What a call that sends a request does in a ready proxy. *)
Lemma call_ready env op st :
  coreState st = ready →
  requests op st →
  let st1 := call URL_origin env op st in
  ∃ message,
    req_requestId message = requestIdCounter st ∧
    req_action message ∈ Core.actions ∧
    posted st1 = posted st ++ [toCore st message] ∧
    requestQueue st1 = requestQueue st ∧
    pendingRequests st1 = pending_set (requestIdCounter st) (pendingRequests st) ∧
    settled st1 = filter (λ x, x.1 ≠ requestIdCounter st) (settled st) ∧
    same_link st st1 ∧
    requestIdCounter st1 = increment (requestIdCounter st).
Proof.
  intros Hst Hop. unfold Core.actions.
  destruct op; simpl in *; [done|..].
  - unfold setItem. rewrite sendRequest_ready by done.
    exists {| req_action := "setItem"; req_key := key; req_value := value;
              req_options := Some (merge (defaultOptions st) options);
              req_requestId := requestIdCounter st |}.
    split; [reflexivity|]. simpl. split; [|by repeat split].
    apply list_elem_of_In. simpl. tauto.
  - unfold getItem. rewrite Hop, sendRequest_ready by done.
    exists {| req_action := "getItem"; req_key := key; req_value := VUndefined;
              req_options := None; req_requestId := requestIdCounter st |}.
    split; [reflexivity|]. simpl. split; [|by repeat split].
    apply list_elem_of_In. simpl. tauto.
  - unfold removeItem. rewrite sendRequest_ready by done.
    exists {| req_action := "removeItem"; req_key := key; req_value := VUndefined;
              req_options := None; req_requestId := requestIdCounter st |}.
    split; [reflexivity|]. simpl. split; [|by repeat split].
    apply list_elem_of_In. simpl. tauto.
  - unfold clear. rewrite sendRequest_ready by done.
    exists {| req_action := "clear"; req_key := ""; req_value := VUndefined;
              req_options := None; req_requestId := requestIdCounter st |}.
    split; [reflexivity|]. simpl. split; [|by repeat split].
    apply list_elem_of_In. simpl. tauto.
  - unfold keys. rewrite sendRequest_ready by done.
    exists {| req_action := "keys"; req_key := ""; req_value := VUndefined;
              req_options := None; req_requestId := requestIdCounter st |}.
    split; [reflexivity|]. simpl. split; [|by repeat split].
    apply list_elem_of_In. simpl. tauto.
Qed.

(** X30: at [2^53] the ids come back.  In a ready proxy whose counter
    has reached [2^53], where [requestIdCounter++] no longer changes it,
    two calls that send a request post two messages with the same id
    [2^53]; the counter is still [2^53] and the pending map holds one
    entry for the two. *)
Theorem request_id_repeats env op1 op2 st :
  coreState st = ready →
  requestIdCounter st = (2 ^ 53)%Z →
  requests op1 st →
  requests op2 (call URL_origin env op1 st) →
  let st2 := call URL_origin env op2 (call URL_origin env op1 st) in
  ∃ m1 m2,
    posted st2 = posted st ++ [toCore st m1; toCore st m2] ∧
    req_requestId m1 = (2 ^ 53)%Z ∧ req_requestId m2 = (2 ^ 53)%Z ∧
    requestIdCounter st2 = (2 ^ 53)%Z ∧
    pendingRequests st2 = pending_set (2 ^ 53) (pendingRequests st).
Proof.
  intros Hst Hc Hop1 Hop2 st2.
  destruct (call_ready env op1 st Hst Hop1)
    as (m1 & Hid1 & _ & Hposted1 & _ & Hpending1 & _ & (Hs1 & Hw1 & Ho1) & Hc1).
  set (st1 := call URL_origin env op1 st) in *.
  assert (Hst1 : coreState st1 = ready) by by rewrite Hs1.
  assert (Hc1' : requestIdCounter st1 = (2 ^ 53)%Z) by by rewrite Hc1, Hc.
  destruct (call_ready env op2 st1 Hst1 Hop2)
    as (m2 & Hid2 & _ & Hposted2 & _ & Hpending2 & _ & _ & Hc2).
  fold st2 in Hposted2, Hpending2, Hc2.
  exists m1, m2. split; [|split; [by rewrite Hid1|split; [by rewrite Hid2, Hc1'|split]]].
  - rewrite Hposted2, Hposted1, <- app_assoc. unfold toCore. by rewrite Hw1, Ho1.
  - by rewrite Hc2, Hc1'.
  - rewrite Hpending2, Hpending1, Hc1', Hc. unfold pending_set at 1.
    rewrite bool_decide_eq_true_2; [done|]. apply elem_of_pending_set. by left.
Qed.

(** X25: the two sides speak the same protocol.  Every request that a
    ready proxy sends is one the core's listener answers, whatever the
    store holds or rejects: the call posts one message with the next id,
    the listener posts back one response with that id, and when the
    response reaches the proxy the promise of the call is settled (with
    the value, or rejected with the error) and the id is no longer
    pending. *)
Theorem round_trip fault now env op st w page win o :
  coreState st = ready →
  coreOrigin st = Some o →
  fresh st →
  requests op st →
  page ≠ "" →
  let id := requestIdCounter st in
  let st1 := call URL_origin env op st in
  ∃ message response w',
    posted st1 = posted st ++ [toCore st message] ∧
    req_requestId message = id ∧
    id ∈ pendingRequests st1 ∧
    Core.listener fault now {| origin := page; source := Some win; data := message |} w
    = (Some {| Core.target := win; Core.targetOrigin := page;
               Core.posted_message := response |}, w') ∧
    let st2 := window_onmessage
                 {| origin := o; source := coreWindow st; data := response |} st1 in
    (id ∉ pendingRequests st2) ∧
    settled st2 = settled st
                  ++ [(id, match res_error response with
                           | Some e => Rejected e
                           | None => Resolved (res_value response)
                           end)].
Proof.
  intros Hst Ho Hfresh Hop Hpage id st1.
  destruct (call_ready env op st Hst Hop)
    as (message & Hid & Hact & Hposted & _ & Hpending & Hsettled & (Hs & Hw & Horigin) & _).
  fold st1 in Hposted, Hpending, Hsettled, Hs, Hw, Horigin.
  rewrite filter_all in Hsettled.
  2:{ apply Forall_forall. intros x Hx Heq.
      assert (requestIdCounter st < requestIdCounter st)%Z; [|lia].
      apply Hfresh. right. left. apply list_elem_of_fmap. by exists x. }
  destruct (CoreExtra.listener_response fault now
              {| origin := page; source := Some win; data := message |} w win)
    as (response & w' & Hlistener & _ & Hra & Hrid & _); [done..|].
  simpl in Hrid. rewrite Hid in Hrid. fold id in Hrid.
  exists message, response, w'.
  assert (Hin : id ∈ pendingRequests st1).
  { rewrite Hpending. apply elem_of_pending_set. by left. }
  assert (Hnew : id ∉ (settled st1).*1).
  { rewrite Hsettled. intros Hx.
    assert (id < id)%Z by (apply Hfresh; tauto). lia. }
  split; [exact Hposted|]. split; [exact Hid|]. split; [exact Hin|].
  split; [exact Hlistener|].
  rewrite response_settles;
    [|unfold accepts; simpl; by rewrite Hs, Hw, Horigin|exact Hra|simpl; by rewrite Hrid].
  simpl.
  rewrite Hrid. split.
  - intros Hgone. apply elem_of_pending_delete in Hgone. tauto.
  - rewrite <- Hsettled.
    destruct (res_error response) as [[n m]|].
    + by apply reject_unsettled.
    + by apply resolve_unsettled.
Qed.

(** X26: a read goes all the way.  A ready proxy whose cache lacks the
    key asks the core; when the store holds under that key an item that
    has not expired and that the page's origin may read, the response
    carries the item's value, the store is untouched, and once the
    response has reached the proxy the promise is resolved with that value
    and the cache holds it. *)
Theorem getItem_round_trip fault now env key st w page win o item :
  coreState st = ready →
  coreOrigin st = Some o →
  fresh st →
  cache st !! key = None →
  page ≠ "" →
  fault Core.OpOpen = None → fault (Core.OpGet key) = None →
  Core.db w !! key = Some item →
  Core.expired now item = false →
  Core.hasPermission (Core.read (Core.acl item)) page = true →
  let id := requestIdCounter st in
  let message := {| req_action := "getItem"; req_key := key; req_value := VUndefined;
                    req_options := None; req_requestId := id |} in
  let response := {| res_action := "response"; res_requestId := id;
                     res_value := Core.value item; res_error := None |} in
  let st1 := (getItem URL_origin env key st).2 in
  posted st1 = posted st ++ [toCore st message] ∧
  Core.listener fault now {| origin := page; source := Some win; data := message |} w
  = (Some {| Core.target := win; Core.targetOrigin := page;
             Core.posted_message := response |}, w) ∧
  let st2 := window_onmessage
               {| origin := o; source := coreWindow st; data := response |} st1 in
  settled st2 = settled st ++ [(id, Resolved (Core.value item))] ∧
  cache st2 = <[key := Core.value item]> (cache st).
Proof.
  intros Hst Ho Hfresh Hmiss Hpage Hopen Hget Hk Hlive Hperm id message response st1.
  assert (Hn1 : id ∉ (settled st).*1).
  { intros Hin. assert (id < id)%Z by (apply Hfresh; tauto). lia. }
  assert (Hn2 : id ∉ (reactions st).*1).
  { intros Hin. assert (id < id)%Z by (apply Hfresh; tauto). lia. }
  assert (Hst1 : st1 = then_cache (Pending id) key
                         (postToCore message
                            (set_pendingRequests (pending_set id (pendingRequests st))
                               (set_requestIdCounter (increment id) st)))).
  { unfold st1, getItem. rewrite Hmiss. fold id. fold message.
    rewrite sendRequest_ready by done. by rewrite new_promise_unused. }
  split; [by rewrite Hst1|]. split.
  { unfold Core.listener. simpl. apply String.eqb_neq in Hpage. rewrite Hpage.
    unfold Core.dispatch, Core.bind, Core.ret. simpl.
    unfold Core.dbGet, Core.dbPromise, Core.db_get, Core.transaction, Core.store_get,
      Core.request, Core.bind, Core.ret.
    by rewrite Hopen, Hget, Hk, Hlive, Hperm. }
  rewrite response_settles; [|rewrite Hst1; unfold accepts; simpl; by rewrite Hst, Ho|done|].
  2:{ rewrite Hst1. simpl. apply elem_of_pending_set. by left. }
  rewrite Hst1. simpl. unfold resolve. simpl.
  rewrite (bool_decide_eq_false_2 _ Hn1).
  rewrite foldl_app, (reactions_skip _ _ _ _ Hn2). simpl.
  by rewrite (bool_decide_eq_true_2 (id = id) eq_refl).
Qed.

(** X28: the defaults given to [init] reach the core.  After an [init]
    that got past its guards with [defaultOptions], a [setItem] queues a
    request whose options are the caller's, completed field by field from
    the JSON copy that [init] kept of those defaults: the caller's ACL and
    lifetime where given, the default ones where not. *)
Theorem setItem_defaults env config defaults key value options st o :
  has_window env = true → has_document env = true →
  coreState st = uninitialized ∨ coreState st = failed →
  coreUrl config = None →
  URL_origin defaultCoreUrl = Return o →
  cfg_defaultOptions config = Some defaults →
  let st1 := (init URL_origin env config st).2 in
  let st2 := (setItem URL_origin env key value options st1).2 in
  requestQueue st2
  = requestQueue st
    ++ [{| req_action := "setItem"; req_key := key; req_value := value;
           req_options :=
             Some {| opt_acl := from_option Some (opt_acl (JSON_copy defaults))
                                                 (opt_acl options);
                     opt_ttl := from_option Some (opt_ttl (JSON_copy defaults))
                                                 (opt_ttl options) |};
           req_requestId := requestIdCounter st |}] ∧
  posted st2 = posted st.
Proof.
  intros Hw Hd Hst Hurl Ho Hdef. unfold init. rewrite Hw, Hd, Hurl, Hdef. simpl.
  rewrite Ho.
  assert (Hg : negb (bool_decide (coreState st = uninitialized))
               && negb (bool_decide (coreState st = failed)) = false)
    by (destruct Hst as [-> | ->]; done).
  rewrite Hg. cbv zeta. unfold setItem.
  rewrite sendRequest_initializing by by repeat case_match.
  unfold merge, JSON_copy. simpl. split.
  - destruct (opt_acl defaults) as [[]|], (opt_ttl defaults), (opt_acl options),
      (opt_ttl options); simpl; by repeat case_match.
  - by repeat case_match.
Qed.

End RoundTrip.

(** After [2^53] requests, the keys and the profile are asked for under
    one id. *)
Lemma request_id_repeats_witness :
  let st2 := call URL_origin browser (GetItem "profile")
               (call URL_origin browser Keys exhausted_state) in
  (req_action ∘ to_message) <$> posted st2 = ["keys"; "getItem"] ∧
  (req_requestId ∘ to_message) <$> posted st2 = [2 ^ 53; 2 ^ 53]%Z ∧
  pendingRequests st2 = [2 ^ 53]%Z.
Proof.
  intros st2.
  destruct (request_id_repeats URL_origin browser Keys (GetItem "profile") exhausted_state)
    as (m1 & m2 & Hposted & Hid1 & Hid2 & _ & Hpending);
    [reflexivity|reflexivity|exact I|reflexivity|].
  fold st2 in Hposted, Hpending. split; [reflexivity|]. split.
  - rewrite Hposted. simpl. by rewrite Hid1, Hid2.
  - rewrite Hpending. reflexivity.
Defined.

(** The client of [https://a] asks for the profile it has not cached. *)
Lemma round_trip_witness :
  ∃ message response w',
    posted (call URL_origin browser (GetItem "profile") ready_state) = [toCore ready_state message] ∧
    Core.listener Core.no_fault 9
      {| origin := "https://a"; source := Some 3%nat; data := message |} populated
    = (Some {| Core.target := 3%nat; Core.targetOrigin := "https://a";
               Core.posted_message := response |}, w') ∧
    settled (window_onmessage (from_core response)
               (call URL_origin browser (GetItem "profile") ready_state))
    = [(0%Z, Resolved (VObj [("name", VStr "x")]))].
Proof.
  destruct (round_trip URL_origin Core.no_fault 9 browser (GetItem "profile") ready_state
              populated "https://a" 3%nat core_origin)
    as (message & response & w' & Hposted & Hid & _ & Hlistener & _ & Hsettled);
    [reflexivity|reflexivity|exact ready_state_fresh|reflexivity|discriminate|].
  exists message, response, w'. split; [exact Hposted|]. split; [exact Hlistener|].
  change (from_core response)
    with {| origin := core_origin; source := coreWindow ready_state; data := response |}.
  rewrite Hsettled. simpl.
  assert (Hm : message = {| req_action := "getItem"; req_key := "profile";
                            req_value := VUndefined; req_options := None;
                            req_requestId := 0 |}).
  { assert (Hp : to_message <$> posted (call URL_origin browser (GetItem "profile") ready_state)
                 = [message]) by (rewrite Hposted; reflexivity).
    vm_compute in Hp. by injection Hp as <-. }
  subst message. vm_compute in Hlistener. injection Hlistener as <- _. reflexivity.
Defined.

Lemma getItem_round_trip_witness :
  let st1 := (getItem URL_origin browser "profile" ready_state).2 in
  let response := {| res_action := "response"; res_requestId := 0;
                     res_value := VObj [("name", VStr "x")]; res_error := None |} in
  cache (window_onmessage (from_core response) st1) !! "profile"
  = Some (VObj [("name", VStr "x")]).
Proof.
  intros st1 response.
  destruct (getItem_round_trip URL_origin Core.no_fault 9 browser "profile" ready_state
              populated "https://b" 4%nat core_origin profile)
    as (_ & _ & _ & Hcache);
    [reflexivity|reflexivity|exact ready_state_fresh|reflexivity|discriminate|
     reflexivity|reflexivity|reflexivity|reflexivity|reflexivity|].
  change (from_core response)
    with {| origin := core_origin; source := coreWindow ready_state;
            data := {| res_action := "response"; res_requestId := requestIdCounter ready_state;
                       res_value := Core.value profile; res_error := None |} |}.
  fold st1 in Hcache. rewrite Hcache. reflexivity.
Defined.

(** The defaults give a lifetime of a minute and one array for both
    lists; the copy that reaches the core has two arrays. *)
Lemma setItem_defaults_witness :
  let minute := Number.of_Z 60 in
  let defaults := {| opt_acl := Some (OneArray ["https://b"]); opt_ttl := Some minute |} in
  let config := {| coreUrl := None; cfg_defaultOptions := Some defaults |} in
  let st1 := (init URL_origin browser config initial).2 in
  req_options <$> requestQueue (setItem URL_origin browser "draft" (VStr "d")
                                  {| opt_acl := None; opt_ttl := None |} st1).2
  = [Some {| opt_acl := Some (Arrays (Some ["https://b"]) (Some ["https://b"]));
             opt_ttl := Some minute |}] ∧
  req_options <$> requestQueue (setItem URL_origin browser "draft" (VStr "d")
                                  {| opt_acl := None; opt_ttl := Some millisecond |} st1).2
  = [Some {| opt_acl := Some (Arrays (Some ["https://b"]) (Some ["https://b"]));
             opt_ttl := Some millisecond |}].
Proof.
  intros minute defaults config st1. split.
  - destruct (setItem_defaults URL_origin browser config defaults "draft" (VStr "d")
                {| opt_acl := None; opt_ttl := None |} initial core_origin) as [Hq _];
      [reflexivity|reflexivity|by left|reflexivity|reflexivity|reflexivity|].
    fold st1 in Hq. rewrite Hq. reflexivity.
  - destruct (setItem_defaults URL_origin browser config defaults "draft" (VStr "d")
                {| opt_acl := None; opt_ttl := Some millisecond |} initial core_origin)
      as [Hq _];
      [reflexivity|reflexivity|by left|reflexivity|reflexivity|reflexivity|].
    fold st1 in Hq. rewrite Hq. reflexivity.
Defined.

End ClientExtra.
